(** * Rule 727: SELECT followed by DELETE ADJACENT DUPLICATES

    A shallow embedding of [src/app/app.py] and the properties of its
    scanner.

    Text is a list of characters.  A character is a Rocq [ascii], read as
    the code point of the same number (0..255); the character classes [\s]
    and [\w], [str.lower] and the letters of a case-insensitive pattern are
    those of Python on that range.  Offsets into the text are [nat]; line
    numbers are [Z], as [Unit.start_line] is any Python integer.

    The patterns of the source are values of [regex], run by a
    backtracking matcher in continuation-passing style; [search] and
    [finditer] drive it over the text as [re] does.  [scan_unit] keeps the
    two loops of the source as folds over the matches. *)

From Stdlib Require Import Ascii String NArith ZArith Bool Arith Lia.
From Stdlib Require Import List Sorted.
Import ListNotations.

Open Scope list_scope.

(* ------------------------------------------------------------------ *)
(** ** Strings *)

Definition str := list ascii.

(** A literal of the source, as text. *)
Definition s (x : string) : str := list_ascii_of_string x.

Definition str_eqb (a b : str) : bool :=
  if list_eq_dec ascii_dec a b then true else false.

Definition nl : ascii := "010"%char.
Definition backslash : ascii := "\"%char.
Definition dquote : ascii := "034"%char.

(** [ord(c)] *)
Definition ord (c : ascii) : N := N_of_ascii c.

Definition between (lo hi : N) (c : ascii) : bool :=
  ((lo <=? ord c) && (ord c <=? hi))%N.

(** [\s] of a Python [str] pattern. *)
Definition is_space (c : ascii) : bool :=
  between 9 13 c || between 28 32 c || (ord c =? 133)%N || (ord c =? 160)%N.

(** [\w] of a Python [str] pattern: [str.isalnum] or the underscore. *)
Definition is_word (c : ascii) : bool :=
  between 48 57 c || between 65 90 c || (ord c =? 95)%N || between 97 122 c
  || (ord c =? 170)%N || between 178 179 c || (ord c =? 181)%N
  || between 185 186 c || between 188 190 c || between 192 214 c
  || between 216 246 c || between 248 255 c.

(** [str.lower] on one character. *)
Definition lower_char (c : ascii) : ascii :=
  if between 65 90 c || between 192 214 c || between 216 222 c
  then ascii_of_N (ord c + 32) else c.

(** [str.lower()] *)
Definition lower (x : str) : str := map lower_char x.

(** [str.count("\n")] *)
Fixpoint count_nl (x : str) : nat :=
  match x with
  | [] => 0
  | c :: t => (if Ascii.eqb c nl then 1 else 0) + count_nl t
  end.

(** [str.replace("\n", "\\n")] *)
Fixpoint escape_nl (x : str) : str :=
  match x with
  | [] => []
  | c :: t => if Ascii.eqb c nl then backslash :: "n"%char :: escape_nl t
              else c :: escape_nl t
  end.

(** [text[a:b]] for offsets [0 <= a], [0 <= b]. *)
Definition slice (text : str) (a b : nat) : str :=
  firstn (b - a) (skipn a text).

(** [text.find("\n", from)]: the first index [>= from] of a newline, or -1. *)
Fixpoint find_nl_aux (x : str) (i : nat) : Z :=
  match x with
  | [] => (-1)%Z
  | c :: t => if Ascii.eqb c nl then Z.of_nat i else find_nl_aux t (S i)
  end.

Definition find_nl (text : str) (from : nat) : Z :=
  find_nl_aux (skipn from text) from.

(** [text.rfind("\n", 0, upto)]: the last index [< upto] of a newline, or -1. *)
Fixpoint rfind_nl_aux (x : str) (i : nat) (last : Z) : Z :=
  match x with
  | [] => last
  | c :: t => rfind_nl_aux t (S i) (if Ascii.eqb c nl then Z.of_nat i else last)
  end.

Definition rfind_nl (text : str) (upto : nat) : Z :=
  rfind_nl_aux (firstn upto text) 0 (-1)%Z.

(* ------------------------------------------------------------------ *)
(** ** Models *)

(** Every field of a [Finding] is optional. *)
Record Finding := mkFinding {
  prog_name : option str;
  incl_name : option str;
  types : option str;
  blockname : option str;
  starting_line : option Z;
  ending_line : option Z;
  issues_type : option str;
  severity : option str;
  message : option str;
  suggestion : option str;
  snippet : option str
}.

(** [code] is the text of the unit; [findings] is what comes in with the
    request, and is replaced by the scan. *)
Record Unit := mkUnit {
  pgm_name : str;
  inc_name : str;
  type : str;
  name : option str;
  start_line : option Z;
  end_line : option Z;
  code : option str;
  findings : option (list Finding)
}.

(* ------------------------------------------------------------------ *)
(** ** Regular expressions

    The patterns of the source use concatenation, alternation, optional
    groups, named groups, the word boundary, and repetition of a single
    character class only.  The matcher is the backtracking one of [re]:
    alternatives in order, repetition greedy, the first success wins. *)

Inductive regex :=
| Eps
| Chr (p : ascii -> bool)
| Cat (a b : regex)
| Alt (a b : regex)
| Opt (a : regex)
| Star (p : ascii -> bool)
| WordB
| Group (n : string) (a : regex).

Record cursor := mkCursor {
  c_prev : option ascii;
  c_pos : nat;
  c_rest : str;
  c_groups : list (string * str)
}.

Definition word_before (cur : cursor) : bool :=
  match c_prev cur with Some c => is_word c | None => false end.

Definition word_after (cur : cursor) : bool :=
  match c_rest cur with c :: _ => is_word c | [] => false end.

Definition at_boundary (cur : cursor) : bool :=
  xorb (word_before cur) (word_after cur).

Definition capture (n : string) (from to : cursor) : cursor :=
  mkCursor (c_prev to) (c_pos to) (c_rest to)
           ((n, firstn (c_pos to - c_pos from) (c_rest from)) :: c_groups to).

Section Matcher.
Context {R : Type}.

Fixpoint star_run (p : ascii -> bool) (k : cursor -> option R)
         (prev : option ascii) (pos : nat) (rest : str)
         (g : list (string * str)) : option R :=
  match rest with
  | c :: t =>
      if p c then
        match star_run p k (Some c) (S pos) t g with
        | Some r => Some r
        | None => k (mkCursor prev pos rest g)
        end
      else k (mkCursor prev pos rest g)
  | [] => k (mkCursor prev pos rest g)
  end.

Fixpoint rmatch (r : regex) (cur : cursor) (k : cursor -> option R)
  : option R :=
  match r with
  | Eps => k cur
  | Chr p =>
      match c_rest cur with
      | c :: t => if p c then k (mkCursor (Some c) (S (c_pos cur)) t (c_groups cur))
                  else None
      | [] => None
      end
  | Cat a b => rmatch a cur (fun cur' => rmatch b cur' k)
  | Alt a b =>
      match rmatch a cur k with
      | Some x => Some x
      | None => rmatch b cur k
      end
  | Opt a =>
      match rmatch a cur k with
      | Some x => Some x
      | None => k cur
      end
  | Star p => star_run p k (c_prev cur) (c_pos cur) (c_rest cur) (c_groups cur)
  | WordB => if at_boundary cur then k cur else None
  | Group n a => rmatch a cur (fun cur' => k (capture n cur cur'))
  end.
End Matcher.

(** A match object: [m.start()], [m.end()], [m.group(0)] and the named
    groups that took part in the match. *)
Record re_match := mkMatch {
  m_start : nat;
  m_end : nat;
  m_group0 : str;
  m_groupdict : list (string * str)
}.

(** One attempt at the position of [cur].  [must_advance] refuses an empty
    match, as the engine does right after an empty match at this position. *)
Definition try_at (r : regex) (must_advance : bool) (cur : cursor)
  : option re_match :=
  rmatch r cur (fun fin =>
    if must_advance && (c_pos fin =? c_pos cur) then None
    else Some (mkMatch (c_pos cur) (c_pos fin)
                       (firstn (c_pos fin - c_pos cur) (c_rest cur))
                       (c_groups fin))).

(** [pattern.search(text)] from the position of the cursor. *)
Fixpoint search_from (r : regex) (prev : option ascii) (pos : nat) (rest : str)
  : option re_match :=
  match try_at r false (mkCursor prev pos rest []) with
  | Some m => Some m
  | None =>
      match rest with
      | [] => None
      | c :: t => search_from r (Some c) (S pos) t
      end
  end.

Definition search (r : regex) (text : str) : option re_match :=
  search_from r None 0 text.

(** [pattern.finditer(text)]: the scan resumes where the last match ended;
    [skip] counts the characters still to pass before the next attempt. *)
Fixpoint scan_from (r : regex) (prev : option ascii) (pos : nat) (rest : str)
         (skip : nat) : list re_match :=
  match skip with
  | S k =>
      match rest with
      | [] => []
      | c :: t => scan_from r (Some c) (S pos) t k
      end
  | O =>
      let cur := mkCursor prev pos rest [] in
      match try_at r false cur with
      | None =>
          match rest with
          | [] => []
          | c :: t => scan_from r (Some c) (S pos) t 0
          end
      | Some m =>
          if m_end m =? pos then
            match try_at r true cur with
            | Some m2 =>
                m :: m2 ::
                  match rest with
                  | [] => []
                  | c :: t => scan_from r (Some c) (S pos) t (m_end m2 - S pos)
                  end
            | None =>
                m ::
                  match rest with
                  | [] => []
                  | c :: t => scan_from r (Some c) (S pos) t 0
                  end
            end
          else
            m ::
              match rest with
              | [] => []
              | c :: t => scan_from r (Some c) (S pos) t (m_end m - S pos)
              end
      end
  end.

Definition finditer (r : regex) (text : str) : list re_match :=
  scan_from r None 0 text 0.

(** *** Pattern combinators *)

(** A letter of a pattern compiled with [(?i)]. *)
Definition ci (c : ascii) : regex :=
  Chr (fun x => Ascii.eqb (lower_char x) (lower_char c)).

Definition lit (c : ascii) : regex := Chr (Ascii.eqb c).

Fixpoint word_ci (w : str) : regex :=
  match w with
  | [] => Eps
  | [c] => ci c
  | c :: t => Cat (ci c) (word_ci t)
  end.

Definition kw (w : string) : regex := word_ci (s w).

Definition plus (p : ascii -> bool) : regex := Cat (Chr p) (Star p).

Definition spaces1 : regex := plus is_space.
Definition spaces0 : regex := Star is_space.
Definition ident : regex := plus is_word.
Definition not_dot (c : ascii) : bool := negb (Ascii.eqb c "."%char).

Fixpoint cat (l : list regex) : regex :=
  match l with
  | [] => Eps
  | [r] => r
  | r :: t => Cat r (cat t)
  end.

(** *** The patterns of the source *)

(** [(?is)\bSELECT\b[^.]*\.] *)
Definition STMT_SELECT_RE : regex :=
  cat [WordB; kw "SELECT"; WordB; Star not_dot; lit "."%char].

(** [(?i)\bSELECT\b\s+DISTINCT\b] *)
Definition SELECT_DISTINCT_RE : regex :=
  cat [WordB; kw "SELECT"; WordB; spaces1; kw "DISTINCT"; WordB].

(** The four shapes of a target token, each with its named group:
    [DATA\s*\(\s*(?P<data>\w+)\s*\)], [<\s*(?P<fs>\w+)\s*>],
    [\(\s*(?P<dyn>\w+)\s*\)] and [(?P<plain>\w+)]. *)
Definition shape_data : regex :=
  cat [kw "DATA"; spaces0; lit "("%char; spaces0; Group "data" ident;
       spaces0; lit ")"%char].
Definition shape_fs : regex :=
  cat [lit "<"%char; spaces0; Group "fs" ident; spaces0; lit ">"%char].
Definition shape_dyn : regex :=
  cat [lit "("%char; spaces0; Group "dyn" ident; spaces0; lit ")"%char].
Definition shape_plain : regex := Group "plain" ident.

(** The target token: [@?\s*] and one of the four shapes. *)
Definition TARGET_ITAB_TOKEN : regex :=
  cat [Opt (lit "@"%char); spaces0;
       Alt shape_data (Alt shape_fs (Alt shape_dyn shape_plain))].

(** [\bINTO\s+(?:(?:CORRESPONDING\s+FIELDS\s+OF\s+)?TABLE|APPENDING\s+TABLE)\s+]
    and the target token. *)
Definition INTO_TABLE_ITAB_RE : regex :=
  cat [WordB; kw "INTO"; spaces1;
       Alt (cat [Opt (cat [kw "CORRESPONDING"; spaces1; kw "FIELDS"; spaces1;
                           kw "OF"; spaces1]);
                 kw "TABLE"])
           (cat [kw "APPENDING"; spaces1; kw "TABLE"]);
       spaces1; TARGET_ITAB_TOKEN].

(** [\bDELETE\s+ADJACENT\s+DUPLICATES\s+FROM\s+], the target token, and
    [[^.]*\.] *)
Definition STMT_DELETE_DUP_RE : regex :=
  cat [WordB; kw "DELETE"; spaces1; kw "ADJACENT"; spaces1;
       kw "DUPLICATES"; spaces1; kw "FROM"; spaces1;
       TARGET_ITAB_TOKEN; Star not_dot; lit "."%char].

(* ------------------------------------------------------------------ *)
(** ** Helpers *)

(** [m.groupdict().get(n)]: the text of group [n], or [None] when the
    group took no part in the match. *)
Fixpoint groupdict_get (d : list (string * str)) (n : string) : option str :=
  match d with
  | [] => None
  | (k, v) :: t => if String.eqb k n then Some v else groupdict_get t n
  end.

Definition canon_name (raw : option str) : option str :=
  match raw with
  | Some (c :: t) => Some (lower (c :: t))
  | _ => None
  end.

Fixpoint coalesce_group (m : re_match) (names : list string) : option str :=
  match names with
  | [] => None
  | n :: rest =>
      match groupdict_get (m_groupdict m) n with
      | Some (c :: t) => Some (c :: t)
      | _ => coalesce_group m rest
      end
  end.

Definition get_line_snippet (text : str) (start end_ : nat) : str :=
  let line_start := rfind_nl text start in
  let line_start := if (line_start =? -1)%Z then 0%Z else (line_start + 1)%Z in
  let line_end := find_nl text end_ in
  let line_end := if (line_end =? -1)%Z then Z.of_nat (length text) else line_end in
  slice text (Z.to_nat line_start) (Z.to_nat line_end).

(* ------------------------------------------------------------------ *)
(** ** Scanner *)

Definition shapes : list string := ["data"; "fs"; "dyn"; "plain"]%string.

(** An entry of [selects]. *)
Record select_rec := mkSelect {
  itab : str;
  start : nat;
  end_ : nat;
  has_distinct : bool;
  stmt : str
}.

(** The body of the first loop of [scan_unit], for one match [m]. *)
Definition select_step (selects : list select_rec) (m : re_match)
  : list select_rec :=
  let sel_stmt := m_group0 m in
  match search INTO_TABLE_ITAB_RE sel_stmt with
  | None => selects
  | Some itab_match =>
      match canon_name (coalesce_group itab_match shapes) with
      | Some (c :: t) =>
          selects ++ [mkSelect (c :: t) (m_start m) (m_end m)
                        (match search SELECT_DISTINCT_RE sel_stmt with
                         | Some _ => true
                         | None => false
                         end)
                        sel_stmt]
      | _ => selects
      end
  end.

Definition collect_selects (src : str) : list select_rec :=
  fold_left select_step (finditer STMT_SELECT_RE src) [].

Definition build_finding_for_pair (unit : Unit) (src : str) (base_start : Z)
           (itab_name : str) (select_start select_end : nat)
           (delete_start delete_end : nat) : Finding :=
  let stmt_start := select_start in
  let stmt_end := select_end in
  let line_in_block := (Z.of_nat (count_nl (slice src 0 stmt_start)) + 1)%Z in
  let snippet_line := get_line_snippet src stmt_start stmt_end in
  let snippet_line_count := (Z.of_nat (count_nl snippet_line) + 1)%Z in
  let starting_line_abs := (base_start + line_in_block)%Z in
  let ending_line_abs := (base_start + line_in_block + snippet_line_count)%Z in
  let msg :=
    s "SELECT fills '" ++ itab_name
      ++ s "' followed by DELETE ADJACENT DUPLICATES. "
      ++ s "Prefer SELECT DISTINCT." in
  let suggestion :=
    s "* Replace the SELECT that fills `" ++ itab_name
      ++ s "` with DISTINCT and "
      ++ s "remove the DELETE step." ++ [nl; nl]
      ++ s "Example rewrite:" ++ [nl]
      ++ s "  SELECT DISTINCT ..." ++ [nl]
      ++ s "    INTO TABLE " ++ itab_name ++ s "." ++ [nl]
      ++ s "  " ++ [dquote] ++ s " DELETE ADJACENT DUPLICATES FROM "
      ++ itab_name ++ s ".  " ++ [dquote] ++ s " <-- remove" ++ [nl] in
  mkFinding (Some (pgm_name unit)) (Some (inc_name unit)) (Some (type unit))
            (name unit) (Some starting_line_abs) (Some ending_line_abs)
            (Some (s "UseSelectDistinct")) (Some (s "error"))
            (Some msg) (Some suggestion) (Some (escape_nl snippet_line)).

(** The body of the inner loop over [selects]. *)
Definition prior_step (d_itab : str) (d_start : nat)
           (prior : option select_rec) (c : select_rec) : option select_rec :=
  if str_eqb (itab c) d_itab && (end_ c <? d_start) then
    match prior with
    | None => Some c
    | Some p => if end_ p <? end_ c then Some c else prior
    end
  else prior.

Definition find_prior (selects : list select_rec) (d_itab : str) (d_start : nat)
  : option select_rec :=
  fold_left (prior_step d_itab d_start) selects None.

(** The body of the second loop of [scan_unit], for one match [d]. *)
Definition delete_step (unit : Unit) (src : str) (base_start : Z)
           (selects : list select_rec) (findings : list Finding) (d : re_match)
  : list Finding :=
  match canon_name (coalesce_group d shapes) with
  | Some (c :: t) =>
      let d_itab := c :: t in
      match find_prior selects d_itab (m_start d) with
      | Some prior =>
          if has_distinct prior then findings
          else findings ++ [build_finding_for_pair unit src base_start d_itab
                              (start prior) (end_ prior) (m_start d) (m_end d)]
      | None => findings
      end
  | _ => findings
  end.

(** [unit.code or ""] *)
Definition src_of (unit : Unit) : str :=
  match code unit with Some c => c | None => [] end.

(** [unit.start_line or 0] *)
Definition base_start_of (unit : Unit) : Z :=
  match start_line unit with Some z => z | None => 0%Z end.

Definition scan_unit (unit : Unit) : Unit :=
  let src := src_of unit in
  let base_start := base_start_of unit in
  let selects := collect_selects src in
  let findings :=
    fold_left (delete_step unit src base_start selects)
              (finditer STMT_DELETE_DUP_RE src) [] in
  mkUnit (pgm_name unit) (inc_name unit) (type unit) (name unit)
         (start_line unit) (end_line unit) (code unit) (Some findings).

(* ------------------------------------------------------------------ *)
(** ** Endpoints *)

(** [if res.findings]: a list that is there and not empty. *)
Definition has_findings (u : Unit) : bool :=
  match findings u with Some (_ :: _) => true | _ => false end.

(** The handler of [POST /remediate-array], as the function it computes:
    the scanned units that have findings. *)
Definition scan_rule_array (units : list Unit) : list Unit :=
  fold_left (fun results u =>
               let res := scan_unit u in
               if has_findings res then results ++ [res] else results)
            units [].

(** The handler of [POST /remediate]: the scanned unit. *)
Definition scan_rule_single (unit : Unit) : Unit := scan_unit unit.

(* ================================================================== *)
(** * Vocabulary of the properties *)

(* ------------------------------------------------------------------ *)
(** ** Spans of matches *)

(** The least number of characters a match of [r] takes. *)
Fixpoint min_len (r : regex) : nat :=
  match r with
  | Eps | Star _ | WordB | Opt _ => 0
  | Chr _ => 1
  | Cat a b => min_len a + min_len b
  | Alt a b => Nat.min (min_len a) (min_len b)
  | Group _ a => min_len a
  end.

(** [cur'] lies [n] or more characters after [cur] in the same text. *)
Definition span (n : nat) (cur cur' : cursor) : Prop :=
  exists w, c_rest cur = w ++ c_rest cur'
            /\ c_pos cur' = c_pos cur + length w
            /\ n <= length w.

(** A match found at [pos] in [rest]: it starts there, takes at least
    [min_len r] characters of [rest], and [group(0)] is what it spans. *)
Definition match_at (r : regex) (pos : nat) (rest : str) (m : re_match) : Prop :=
  m_start m = pos
  /\ m_start m + min_len r <= m_end m
  /\ m_end m <= pos + length rest
  /\ m_group0 m = firstn (m_end m - m_start m) rest.

(** What every match of [r] in [text] satisfies. *)
Definition in_text (r : regex) (text : str) (m : re_match) : Prop :=
  m_start m + min_len r <= m_end m
  /\ m_end m <= length text
  /\ m_group0 m = slice text (m_start m) (m_end m).

(** [a] ends before [b] starts. *)
Definition before (a b : re_match) : Prop := m_end a <= m_start b.

(** The matches of [l] lie in [text] from offset [lo] on, each after the
    end of the one before. *)
Fixpoint chained (r : regex) (text : str) (lo : nat) (l : list re_match) : Prop :=
  match l with
  | [] => True
  | m :: t => lo <= m_start m /\ in_text r text m /\ chained r text (m_end m) t
  end.

(* ------------------------------------------------------------------ *)
(** ** Candidates, pairs and findings *)

(** What one query statement adds to [selects]. *)
Definition select_of (m : re_match) : list select_rec := select_step [] m.

(** A candidate comes from a query statement of the text. *)
Definition select_from (m : re_match) (c : select_rec) : Prop :=
  start c = m_start m /\ end_ c = m_end m /\ stmt c = m_group0 m
  /\ itab c <> []
  /\ has_distinct c
     = match search SELECT_DISTINCT_RE (m_group0 m) with
       | Some _ => true
       | None => false
       end.

(** [a] ends before [b] starts. *)
Definition sel_before (a b : select_rec) : Prop := end_ a <= start b.

(** The span of a candidate in [src]. *)
Definition sel_in_text (src : str) (c : select_rec) : Prop :=
  start c < end_ c /\ end_ c <= length src
  /\ stmt c = slice src (start c) (end_ c).

(** [c] fills [d_itab] and ends before [d_start]. *)
Definition eligible (selects : list select_rec) (d_itab : str) (d_start : nat)
           (c : select_rec) : Prop :=
  In c selects /\ itab c = d_itab /\ end_ c < d_start.

(** [c] is eligible and no eligible candidate ends later. *)
Definition nearest_prior (selects : list select_rec) (d_itab : str)
           (d_start : nat) (c : select_rec) : Prop :=
  eligible selects d_itab d_start c
  /\ forall c', eligible selects d_itab d_start c' -> end_ c' <= end_ c.

(** The canonical target of a deduplication statement. *)
Definition d_target (d : re_match) : option str :=
  canon_name (coalesce_group d shapes).

(** What one deduplication statement adds to [findings]. *)
Definition findings_for (unit : Unit) (d : re_match) : list Finding :=
  delete_step unit (src_of unit) (base_start_of unit)
              (collect_selects (src_of unit)) [] d.

(** The candidate a deduplication statement is paired with, when a
    finding is built for it. *)
Definition pair_of (selects : list select_rec) (d : re_match)
  : list (select_rec * re_match) :=
  match d_target d with
  | Some (c :: t) =>
      match find_prior selects (c :: t) (m_start d) with
      | Some prior => if has_distinct prior then [] else [(prior, d)]
      | None => []
      end
  | _ => []
  end.

Definition matched_pairs (unit : Unit) : list (select_rec * re_match) :=
  flat_map (pair_of (collect_selects (src_of unit)))
           (finditer STMT_DELETE_DUP_RE (src_of unit)).

Definition finding_of (unit : Unit) (p : select_rec * re_match) : Finding :=
  build_finding_for_pair unit (src_of unit) (base_start_of unit)
    (itab (fst p)) (start (fst p)) (end_ (fst p))
    (m_start (snd p)) (m_end (snd p)).

(** [p] is triggered by a deduplication statement that starts before the
    one that triggers [q]. *)
Definition delete_before (p q : select_rec * re_match) : Prop :=
  m_start (snd p) < m_start (snd q).

(* ------------------------------------------------------------------ *)
(** ** Lines and substrings *)

(** [needle] is a prefix of [hay]. *)
Fixpoint starts_with (needle hay : str) : bool :=
  match needle, hay with
  | [], _ => true
  | a :: n, b :: h => Ascii.eqb a b && starts_with n h
  | _ :: _, [] => false
  end.

(** [needle in hay] *)
Fixpoint contains (needle hay : str) : bool :=
  starts_with needle hay
  || match hay with
     | [] => false
     | _ :: h => contains needle h
     end.

(** [text.split("\n")]: the physical lines of the text. *)
Fixpoint split_lines (x : str) : list str :=
  match x with
  | [] => [[]]
  | c :: t =>
      if Ascii.eqb c nl then [] :: split_lines t
      else match split_lines t with
           | l :: ls => (c :: l) :: ls
           | [] => [[c]]
           end
  end.

(** The physical line that holds offset [off]: the line whose number is
    the count of line breaks before [off]. *)
Definition physical_line (text : str) (off : nat) : str :=
  nth (count_nl (firstn off text)) (split_lines text) [].

(** What [get_line_snippet] returns for a span [a, b) of the text: the
    text from the start of the line that holds [a] to the end of the line
    that holds [b]. *)
Definition lines_of_span (text : str) (a b : nat) (snip : str) : Prop :=
  exists pre post,
    text = pre ++ snip ++ post
    /\ (pre = [] \/ exists q, pre = q ++ [nl])
    /\ (post = [] \/ exists q, post = nl :: q)
    /\ length pre <= a
    /\ count_nl (slice text (length pre) a) = 0
    /\ b <= length pre + length snip
    /\ count_nl (slice text b (length pre + length snip)) = 0.

(* ------------------------------------------------------------------ *)
(** ** The first successful path of the matcher *)

(** The language of a pattern, boundaries and groups set aside. *)
Fixpoint lang (r : regex) (w : str) : Prop :=
  match r with
  | Eps | WordB => w = []
  | Chr p => exists c, w = [c] /\ p c = true
  | Cat a b => exists w1 w2, w = w1 ++ w2 /\ lang a w1 /\ lang b w2
  | Alt a b => lang a w \/ lang b w
  | Opt a => w = [] \/ lang a w
  | Star p => Forall (fun c => p c = true) w
  | Group _ a => lang a w
  end.

(** From [c1] the matcher reaches [c2] through [r] before anything else:
    whatever continuation succeeds at [c2] decides the result. *)
Definition leads (r : regex) (c1 c2 : cursor) : Prop :=
  forall (R : Type) (k : cursor -> option R) (res : R),
    k c2 = Some res -> rmatch r c1 k = Some res.

(** No match of [r] starts at [c1]. *)
Definition fails (r : regex) (c1 : cursor) : Prop :=
  forall (R : Type) (k : cursor -> option R), rmatch r c1 k = None.

(** The character before the cursor once [w] has been passed. *)
Fixpoint prev_after (prev : option ascii) (w : str) : option ascii :=
  match w with
  | [] => prev
  | c :: t => prev_after (Some c) t
  end.

(** The cursor once [w] has been passed, [rest] still ahead. *)
Definition passed (prev : option ascii) (pos : nat) (w rest : str)
           (g : list (string * str)) : cursor :=
  mkCursor (prev_after prev w) (pos + length w) rest g.

(** A repetition of [p] stops in front of [rest]. *)
Definition stops (p : ascii -> bool) (rest : str) : Prop :=
  match rest with
  | [] => True
  | c :: _ => p c = false
  end.

(** No word character before the cursor. *)
Definition after_nonword (prev : option ascii) : Prop :=
  match prev with
  | Some c => is_word c = false
  | None => True
  end.

(* ------------------------------------------------------------------ *)
(** ** Spellings of an identifier *)

(** The four shapes of a target token. *)
Inductive shape := InlineData | FieldSymbol | Dynamic | Plain.

(** The identifier [x] spelled in a shape. *)
Definition spell (sh : shape) (x : str) : str :=
  match sh with
  | InlineData => s "DATA(" ++ x ++ s ")"
  | FieldSymbol => s "<" ++ x ++ s ">"
  | Dynamic => s "(" ++ x ++ s ")"
  | Plain => x
  end.

(** The named group of a shape. *)
Definition group_of (sh : shape) : string :=
  match sh with
  | InlineData => "data"
  | FieldSymbol => "fs"
  | Dynamic => "dyn"
  | Plain => "plain"
  end.

(** An identifier: one or more word characters. *)
Definition identifier (x : str) : Prop :=
  x <> [] /\ Forall (fun c => is_word c = true) x.

(** A query that fills the identifier [x] spelled in shape [sh]. *)
Definition query_on (sh : shape) (x : str) : str :=
  s "SELECT * FROM t INTO TABLE " ++ spell sh x ++ s ".".

(** A deduplication statement on the identifier [y] spelled in [sh]. *)
Definition dedup_on (sh : shape) (y : str) : str :=
  s "DELETE ADJACENT DUPLICATES FROM " ++ spell sh y ++ s ".".

(** The query on line 1, the deduplication statement on line 2. *)
Definition pair_text (sh1 : shape) (x : str) (sh2 : shape) (y : str) : str :=
  query_on sh1 x ++ [nl] ++ dedup_on sh2 y.

(* ------------------------------------------------------------------ *)
(** ** Example units *)

(** A unit with a fixed header, a text and a starting line. *)
Definition header (text : str) (line : Z) : Unit :=
  mkUnit (s "ZPROG") (s "ZINCL") (s "FORM") (Some (s "MAIN"))
         (Some line) (Some 0%Z) (Some text) None.

(** The example of the specification: a query and, on the next line, a
    deduplication statement on its target. *)
Definition select_line : str := s "SELECT * FROM t INTO TABLE @lt_tab.".
Definition delete_line : str :=
  s "DELETE ADJACENT DUPLICATES FROM lt_tab COMPARING ALL FIELDS.".

Definition example_text : str := select_line ++ [nl] ++ delete_line.
Definition example_unit : Unit := header example_text 100.

Definition example_delete : re_match :=
  mkMatch 36 96 delete_line [("plain"%string, s "lt_tab")].

(** The same with a query that requests distinct rows. *)
Definition distinct_text : str :=
  s "SELECT DISTINCT * FROM t INTO TABLE @lt_tab." ++ [nl] ++ delete_line.
Definition distinct_unit : Unit := header distinct_text 100.
Definition distinct_select : re_match :=
  mkMatch 0 44 (s "SELECT DISTINCT * FROM t INTO TABLE @lt_tab.") [].

(** Two queries, and their deduplication statements in the other order. *)
Definition crossed_text : str :=
  s "SELECT * FROM t INTO TABLE lt_a." ++ [nl]
    ++ s "SELECT * FROM t INTO TABLE lt_b." ++ [nl]
    ++ s "DELETE ADJACENT DUPLICATES FROM lt_b." ++ [nl]
    ++ s "DELETE ADJACENT DUPLICATES FROM lt_a.".
Definition crossed_unit : Unit := header crossed_text 0.

Definition short_delete : str := s "DELETE ADJACENT DUPLICATES FROM lt_tab.".



(** A query written on two lines. *)
Definition multi_text : str :=
  s "SELECT *" ++ [nl] ++ s "  FROM t INTO TABLE lt_tab." ++ [nl]
    ++ short_delete.
Definition multi_unit : Unit := header multi_text 100.
Definition multi_select : select_rec :=
  mkSelect (s "lt_tab") 0 36 false
           (s "SELECT *" ++ [nl] ++ s "  FROM t INTO TABLE lt_tab.").
Definition multi_delete : re_match :=
  mkMatch 37 76 short_delete [("plain"%string, s "lt_tab")].

(* ------------------------------------------------------------------ *)
(** ** Alphabets, line shifts and findings as a list *)

(** Every character a match of [r] can hold satisfies [P]. *)
Fixpoint all_chars (P : ascii -> Prop) (r : regex) : Prop :=
  match r with
  | Eps | WordB => True
  | Chr p | Star p => forall c, p c = true -> P c
  | Cat a b | Alt a b => all_chars P a /\ all_chars P b
  | Opt a | Group _ a => all_chars P a
  end.

(** [f] with its starting and ending lines moved by [k]. *)
Definition shift_lines (k : Z) (f : Finding) : Finding :=
  mkFinding (prog_name f) (incl_name f) (types f) (blockname f)
            (option_map (fun z => (z + k)%Z) (starting_line f))
            (option_map (fun z => (z + k)%Z) (ending_line f))
            (issues_type f) (severity f) (message f) (suggestion f)
            (snippet f).

(** The findings of a unit, none when the field is absent. *)
Definition findings_list (u : Unit) : list Finding :=
  match findings u with
  | Some l => l
  | None => []
  end.

(** [unit] with other incoming findings and another ending line. *)
Definition with_incoming (unit : Unit) (e : option Z)
           (fs : option (list Finding)) : Unit :=
  mkUnit (pgm_name unit) (inc_name unit) (type unit) (name unit)
         (start_line unit) e (code unit) fs.

(** [unit] with another starting line. *)
Definition with_start_line (unit : Unit) (l : option Z) : Unit :=
  mkUnit (pgm_name unit) (inc_name unit) (type unit) (name unit)
         l (end_line unit) (code unit) (findings unit).

(** [r] ends with the literal [c], after characters that satisfy [P]. *)
Fixpoint ends_with (P : ascii -> Prop) (c : ascii) (r : regex) : Prop :=
  match r with
  | Cat a b => all_chars P a /\ ends_with P c b
  | Chr p => forall x, p x = true -> x = c
  | _ => False
  end.

(** [r] starts with the letters of the keyword [k], in any case. *)
Fixpoint starts_with_kw (k : str) (r : regex) : Prop :=
  match r with
  | Cat WordB b => starts_with_kw k b
  | Cat a _ => a = word_ci k
  | _ => False
  end.

(** A statement that opens with the keyword [k], in any case, and closes
    with its only period. *)
Definition statement_of (k : str) (w : str) : Prop :=
  (exists head, w = head ++ ["."%char] /\ ~ In "."%char head)
  /\ exists kwd rest, w = kwd ++ rest /\ lower kwd = k.

(** The example of the specification with its periods left out. *)
Definition unterminated_unit : Unit :=
  header (s "SELECT * FROM t INTO TABLE @lt_tab" ++ [nl]
            ++ s "DELETE ADJACENT DUPLICATES FROM lt_tab") 100.

(** A value that Python takes as false: [None] or the empty string. *)
Definition falsy (v : option str) : Prop := v = None \/ v = Some [].

(** A query that appends to a table with no INTO before the clause. *)
Definition appending_stmt : str := s "SELECT * FROM t APPENDING TABLE lt_tab.".

(** A run of whitespace characters, as [\s*] takes it. *)
Definition blanks (w : str) : Prop := Forall (fun c => is_space c = true) w.

(** One or more whitespace characters, as [\s+] takes them. *)
Definition gap (w : str) : Prop := w <> [] /\ blanks w.

(** The keyword [k] written in any letter case. *)
Definition written (k : string) (w : str) : Prop := lower w = lower (s k).

(** The keywords [ks] in this order, each written in any letter case and
    followed by a gap. *)
Fixpoint phrase (ks : list string) (w : str) : Prop :=
  match ks with
  | [] => w = []
  | k :: t =>
      exists a g rest,
        w = a ++ g ++ rest /\ written k a /\ gap g /\ phrase t rest
  end.

(** The free parts of a target token: the host marker [@] with the
    whitespace after it, the letters of DATA, the whitespace before the
    opening bracket and the whitespace on either side of the identifier
    inside the brackets. *)
Record layout := mkLayout {
  host : option str;
  data_kw : str;
  before_open : str;
  inner_left : str;
  inner_right : str
}.

Definition layout_ok (l : layout) : Prop :=
  match host l with Some w => blanks w | None => True end
  /\ written "DATA" (data_kw l)
  /\ blanks (before_open l) /\ blanks (inner_left l) /\ blanks (inner_right l).

(** The identifier [x] in a shape, laid out by [l], without the host
    marker. *)
Definition body_text (l : layout) (sh : shape) (x : str) : str :=
  match sh with
  | InlineData =>
      data_kw l ++ before_open l ++ "("%char :: inner_left l ++ x
        ++ inner_right l ++ [")"%char]
  | FieldSymbol => "<"%char :: inner_left l ++ x ++ inner_right l ++ [">"%char]
  | Dynamic => "("%char :: inner_left l ++ x ++ inner_right l ++ [")"%char]
  | Plain => x
  end.

(** The target token on [x] in a shape, laid out by [l]. *)
Definition token_text (l : layout) (sh : shape) (x : str) : str :=
  match host l with Some w => "@"%char :: w | None => [] end
    ++ body_text l sh x.

(** The layout with no marker and no whitespace: [spell]. *)
Definition tight : layout := mkLayout None (s "DATA") [] [] [].

(** A layout with the marker and whitespace wherever it may stand. *)
Definition loose : layout :=
  mkLayout (Some (s " ")) (s "Data") (s " ") (s "  ") (s " ").

(** What may follow a target token for the token to end there: after a
    plain identifier, no word character next and no opening bracket
    further on. *)
Definition may_follow (sh : shape) (rest : str) : Prop :=
  sh = Plain -> stops is_word rest /\ ~ In "("%char rest.

(** The three forms of the fill clause. *)
Inductive fill_form := IntoTable | IntoCorresponding | IntoAppending.

Definition fill_keywords (f : fill_form) : list string :=
  match f with
  | IntoTable => ["INTO"; "TABLE"]%string
  | IntoCorresponding =>
      ["INTO"; "CORRESPONDING"; "FIELDS"; "OF"; "TABLE"]%string
  | IntoAppending => ["INTO"; "APPENDING"; "TABLE"]%string
  end.

Definition dedup_keywords : list string :=
  ["DELETE"; "ADJACENT"; "DUPLICATES"; "FROM"]%string.

(** A deduplication phrase in mixed case over two lines, and a fill
    phrase of the long form. *)
Definition loose_dedup_phrase : str :=
  s "delete  adjacent" ++ nl :: s "Duplicates FROM ".

Definition loose_fill_phrase : str :=
  s "into corresponding  Fields" ++ nl :: s "of TABLE ".

(** The pattern [r] goes through [w] in front of [rest], wherever the
    cursor stands, and adds the groups [gs]. *)
Definition runs (r : regex) (w rest : str) (gs : list (string * str)) : Prop :=
  forall prev pos g,
    exists fin,
      leads r (mkCursor prev pos (w ++ rest) g) fin
      /\ c_pos fin = pos + length w /\ c_rest fin = rest
      /\ c_groups fin = gs ++ g.

(** A phrase and the target token after it. *)
Definition laid_out (ph : str) (l : layout) (sh : shape) (x : str) : str :=
  ph ++ token_text l sh x.

(** A deduplication statement: the phrase, the token, anything but a
    period, and the period. *)
Definition dedup_text (ph : str) (l : layout) (sh : shape) (x junk : str)
  : str :=
  laid_out ph l sh x ++ junk ++ ["."%char].

(** The sharp s, the one character below code point 256 whose upper-case
    form is two letters. *)
Definition sharp_s : ascii := "223"%char.

(** [str.upper] on one character, where the result lies below code point
    256: the letter 32 code points below for a lower-case letter, SS for
    the sharp s, the character itself where there is no upper-case form;
    nothing for the micro sign and the y with diaeresis, whose upper-case
    forms lie beyond code point 255. *)
Definition upper_char (c : ascii) : option str :=
  if between 97 122 c || between 224 246 c || between 248 254 c
  then Some [ascii_of_N (ord c - 32)]
  else if (ord c =? 223)%N then Some (s "SS")
  else if (ord c =? 181)%N || (ord c =? 255)%N then None
  else Some [c].

(** [y] spells [x] in another combination of upper and lower case: each
    character of [x] is kept, or replaced by its lower-case form, or by its
    upper-case form. *)
Inductive recased : str -> str -> Prop :=
  | recased_nil : recased [] []
  | recased_keep c x y : recased x y -> recased (c :: x) (c :: y)
  | recased_lower c x y : recased x y -> recased (c :: x) (lower_char c :: y)
  | recased_upper c u x y :
      upper_char c = Some u -> recased x y -> recased (c :: x) (u ++ y).

(** An identifier with a sharp s, and its spelling in upper case. *)
Definition sharp_s_name : str := s "stra" ++ sharp_s :: s "e".
Definition sharp_s_upper : str := s "STRASSE".

(** The period, the statement terminator. *)
Definition period : ascii := "."%char.

(* ================================================================== *)
(** * Properties *)

(* ------------------------------------------------------------------ *)
(** ** The matcher: where a match can end *)

Lemma span_refl cur : span 0 cur cur.
Proof. exists []. simpl. repeat split; lia. Qed.

Lemma span_trans n1 n2 a b c :
  span n1 a b -> span n2 b c -> span (n1 + n2) a c.
Proof.
  intros (w1 & E1 & P1 & L1) (w2 & E2 & P2 & L2).
  exists (w1 ++ w2). rewrite E1, E2, P2, P1, length_app, app_assoc.
  repeat split; lia.
Qed.

Lemma span_weaken n m a b : m <= n -> span n a b -> span m a b.
Proof. intros H (w & E & P & L). exists w. repeat split; auto; lia. Qed.

Section MatcherFacts.
Context {R : Type}.
Implicit Types (k : cursor -> option R) (res : R).

Lemma star_run_span p k rest : forall prev pos g res,
  star_run p k prev pos rest g = Some res ->
  exists cur', span 0 (mkCursor prev pos rest g) cur' /\ k cur' = Some res.
Proof.
  induction rest as [|c t IH]; intros prev pos g res H; simpl in H.
  - eexists; split; [apply span_refl | exact H].
  - destruct (p c).
    + destruct (star_run p k (Some c) (S pos) t g) as [r0|] eqn:E.
      * injection H as <-. apply IH in E as (cur' & (w & E1 & P1 & _) & Hk).
        exists cur'. split; [|exact Hk]. exists (c :: w). simpl in *.
        rewrite E1, P1. repeat split; lia.
      * eexists; split; [apply span_refl | exact H].
    + eexists; split; [apply span_refl | exact H].
Qed.

Lemma rmatch_span r : forall cur k res,
  rmatch r cur k = Some res ->
  exists cur', span (min_len r) cur cur' /\ k cur' = Some res.
Proof.
  induction r as [|p|a IHa b IHb|a IHa b IHb|a IHa|p| |n a IHa];
    intros cur k res H; simpl in H.
  - eexists; split; [apply span_refl | exact H].
  - destruct (c_rest cur) as [|c t] eqn:E; [discriminate|].
    destruct (p c); [|discriminate].
    eexists; split; [|exact H]. exists [c]. simpl. rewrite E.
    repeat split; lia.
  - apply IHa in H as (c1 & S1 & H). apply IHb in H as (c2 & S2 & H).
    exists c2. split; [|exact H]. simpl. eapply span_trans; eauto.
  - destruct (rmatch a cur k) as [x|] eqn:E.
    + injection H as <-. apply IHa in E as (c1 & S1 & E).
      exists c1. split; [|exact E]. simpl.
      eapply span_weaken; [|exact S1]. lia.
    + apply IHb in H as (c1 & S1 & H).
      exists c1. split; [|exact H]. simpl.
      eapply span_weaken; [|exact S1]. lia.
  - destruct (rmatch a cur k) as [x|] eqn:E.
    + injection H as <-. apply IHa in E as (c1 & S1 & E).
      exists c1. split; [|exact E]. simpl.
      eapply span_weaken; [|exact S1]. lia.
    + eexists; split; [apply span_refl | exact H].
  - apply star_run_span in H. destruct cur; exact H.
  - destruct (at_boundary cur); [|discriminate].
    eexists; split; [apply span_refl | exact H].
  - apply IHa in H as (c1 & S1 & H).
    exists (capture n cur c1). split; [|exact H]. exact S1.
Qed.
End MatcherFacts.

Lemma try_at_match r ma prev pos rest g m :
  try_at r ma (mkCursor prev pos rest g) = Some m -> match_at r pos rest m.
Proof.
  unfold try_at. intros H.
  apply rmatch_span in H as (fin & (w & E & P & L) & H). simpl in *.
  destruct (ma && (c_pos fin =? pos)); [discriminate|].
  injection H as <-. unfold match_at. simpl.
  rewrite E, P, length_app. repeat split; try lia.
Qed.

Lemma try_at_advance r prev pos rest g m :
  try_at r true (mkCursor prev pos rest g) = Some m -> pos < m_end m.
Proof.
  unfold try_at. intros H.
  apply rmatch_span in H as (fin & (w & E & P & L) & H). simpl in *.
  destruct (c_pos fin =? pos) eqn:Q; [discriminate|].
  injection H as <-. simpl. apply Nat.eqb_neq in Q. lia.
Qed.

(* ------------------------------------------------------------------ *)
(** ** [finditer]: matches in text order, none overlapping *)

Lemma chained_weaken r text lo lo' l :
  lo' <= lo -> chained r text lo l -> chained r text lo' l.
Proof.
  destruct l; simpl; [auto|]. intros H (A & B & C).
  split; [lia | split; assumption].
Qed.

Lemma match_at_in_text r pre rest m :
  match_at r (length pre) rest m ->
  length pre <= m_start m /\ in_text r (pre ++ rest) m.
Proof.
  intros (A & B & C & D). unfold in_text, slice.
  rewrite length_app, A, skipn_app, skipn_all, Nat.sub_diag. simpl.
  rewrite D, A. repeat split; lia.
Qed.

Ltac chain_step := simpl; split; [lia | split; [assumption|]].

Lemma scan_from_chained r rest : forall pre prev skip,
  chained r (pre ++ rest) (length pre + skip)
          (scan_from r prev (length pre) rest skip).
Proof.
  induction rest as [|c t IH]; intros pre prev skip.
  - destruct skip; simpl; [|exact I].
    destruct (try_at r false _) as [m|] eqn:E; [|exact I].
    apply try_at_match in E. pose proof (match_at_in_text _ _ _ _ E) as [L W].
    destruct E as (A & B & C & _). simpl in C.
    assert (Q : m_end m = length pre) by lia. rewrite Q, Nat.eqb_refl.
    destruct (try_at r true _) as [m2|] eqn:E2.
    + apply try_at_advance in E2 as X. apply try_at_match in E2.
      destruct E2 as (_ & _ & C2 & _). simpl in C2. lia.
    + chain_step. exact I.
  - assert (T : forall prev' k,
               chained r (pre ++ c :: t) (S (length pre) + k)
                       (scan_from r prev' (S (length pre)) t k)).
    { intros prev' k. specialize (IH (pre ++ [c]) prev' k).
      rewrite <- app_assoc, length_app in IH. simpl in IH.
      rewrite Nat.add_1_r in IH. exact IH. }
    destruct skip as [|k]; simpl.
    + destruct (try_at r false _) as [m|] eqn:E.
      * apply try_at_match in E.
        pose proof (match_at_in_text _ _ _ _ E) as [L W].
        destruct E as (A & B & _).
        destruct (m_end m =? length pre) eqn:Q.
        -- apply Nat.eqb_eq in Q.
           destruct (try_at r true _) as [m2|] eqn:E2.
           ++ apply try_at_advance in E2 as X. apply try_at_match in E2.
              pose proof (match_at_in_text _ _ _ _ E2) as [L2 W2].
              chain_step. chain_step.
              eapply chained_weaken; [|apply T]. lia.
           ++ chain_step. eapply chained_weaken; [|apply T]. lia.
        -- apply Nat.eqb_neq in Q. chain_step.
           eapply chained_weaken; [|apply T]. lia.
      * eapply chained_weaken; [|apply T]. lia.
    + eapply chained_weaken; [|apply T]. lia.
Qed.

Lemma finditer_chained r text : chained r text 0 (finditer r text).
Proof. exact (scan_from_chained r text [] None 0). Qed.

Lemma chained_Forall r text l : forall lo,
  chained r text lo l ->
  Forall (fun m => lo <= m_start m /\ in_text r text m) l.
Proof.
  induction l as [|m t IH]; intros lo H; [constructor|].
  destruct H as (A & B & C). constructor; [auto|].
  apply IH in C. eapply Forall_impl; [|exact C].
  intros x [X Y]. split; [|exact Y]. destruct B. lia.
Qed.

Lemma chained_sorted r text l : forall lo,
  chained r text lo l -> StronglySorted before l.
Proof.
  induction l as [|m t IH]; intros lo H; [constructor|].
  destruct H as (A & B & C). constructor; [eauto|].
  apply chained_Forall in C. eapply Forall_impl; [|exact C].
  intros x [X _]. exact X.
Qed.

Lemma finditer_in_text r text :
  Forall (in_text r text) (finditer r text).
Proof.
  eapply Forall_impl; [|exact (chained_Forall _ _ _ _ (finditer_chained r text))].
  intros m [_ H]. exact H.
Qed.

Lemma finditer_sorted r text : StronglySorted before (finditer r text).
Proof. exact (chained_sorted _ _ _ _ (finditer_chained r text)). Qed.

(* ------------------------------------------------------------------ *)
(** ** The two loops of [scan_unit] *)

Lemma fold_left_append {A B} (f : list B -> A -> list B) (g : A -> list B) :
  (forall acc x, f acc x = acc ++ g x) ->
  forall l acc, fold_left f l acc = acc ++ flat_map g l.
Proof.
  intros H l. induction l as [|x t IH]; intros acc; simpl.
  - now rewrite app_nil_r.
  - now rewrite IH, H, <- app_assoc.
Qed.

Lemma str_eqb_eq a b : str_eqb a b = true <-> a = b.
Proof. unfold str_eqb. destruct (list_eq_dec ascii_dec a b); split; congruence. Qed.

Lemma select_step_app acc m : select_step acc m = acc ++ select_of m.
Proof.
  unfold select_of, select_step.
  destruct (search INTO_TABLE_ITAB_RE (m_group0 m)); [|now rewrite app_nil_r].
  destruct (canon_name _) as [[|c t]|]; simpl; now rewrite ?app_nil_r.
Qed.

Lemma collect_selects_flat src :
  collect_selects src = flat_map select_of (finditer STMT_SELECT_RE src).
Proof. unfold collect_selects. now rewrite (fold_left_append _ _ select_step_app). Qed.

Lemma select_of_cases m :
  select_of m = [] \/ exists c, select_of m = [c] /\ select_from m c.
Proof.
  unfold select_of, select_step.
  destruct (search INTO_TABLE_ITAB_RE (m_group0 m)); [|now left].
  destruct (canon_name _) as [[|c t]|]; [now left| |now left].
  right. eexists. split; [reflexivity|].
  unfold select_from. simpl. repeat split. discriminate.
Qed.

Lemma selects_in_text src : Forall (sel_in_text src) (collect_selects src).
Proof.
  rewrite collect_selects_flat.
  pose proof (finditer_in_text STMT_SELECT_RE src) as H.
  induction H as [|m l Hm _ IH]; simpl; [constructor|].
  apply Forall_app. split; [|exact IH].
  destruct (select_of_cases m) as [-> | (c & -> & A & B & C & _)]; [constructor|].
  constructor; [|constructor].
  destruct Hm as (X & Y & Z). change (min_len STMT_SELECT_RE) with 7 in X.
  unfold sel_in_text. rewrite A, B, C. repeat split; auto; lia.
Qed.

Lemma selects_sorted src : StronglySorted sel_before (collect_selects src).
Proof.
  rewrite collect_selects_flat.
  pose proof (finditer_sorted STMT_SELECT_RE src) as H.
  induction H as [|m l _ IH Hm]; simpl; [constructor|].
  destruct (select_of_cases m) as [-> | (c & -> & A & B & _)]; [exact IH|].
  simpl. constructor; [exact IH|].
  apply Forall_flat_map. eapply Forall_impl; [|exact Hm].
  intros m' Hb.
  destruct (select_of_cases m') as [-> | (c' & -> & A' & _)]; [constructor|].
  constructor; [|constructor]. unfold sel_before, before in *. lia.
Qed.

(** Spans in text order, none empty, none overlapping: a span is known by
    its start, and by its end. *)
Lemma spans_inj {A} (st en : A -> nat) l :
  StronglySorted (fun a b => en a <= st b) l ->
  Forall (fun a => st a < en a) l ->
  forall a b, In a l -> In b l -> st a = st b \/ en a = en b -> a = b.
Proof.
  induction 1 as [|x l _ IH Hx]; intros HT a b Ha Hb E; [destruct Ha|].
  inversion HT as [|? ? Tx Tl]; subst.
  rewrite Forall_forall in Hx, Tl.
  destruct Ha as [<-|Ha], Hb as [<-|Hb]; auto.
  - specialize (Hx _ Hb). specialize (Tl _ Hb). lia.
  - specialize (Hx _ Ha). specialize (Tl _ Ha). lia.
  - apply IH; auto. now apply Forall_forall.
Qed.

(** No two candidates end at the same offset. *)
Lemma selects_end_inj src a b :
  In a (collect_selects src) -> In b (collect_selects src) ->
  end_ a = end_ b -> a = b.
Proof.
  intros Ha Hb E.
  apply (spans_inj start end_ (collect_selects src)); auto.
  - apply selects_sorted.
  - eapply Forall_impl; [|apply selects_in_text]. now intros c (H & _).
Qed.

(** No two matches of a pattern that takes a character start at the same
    offset. *)
Lemma finditer_start_inj r text a b :
  0 < min_len r ->
  In a (finditer r text) -> In b (finditer r text) ->
  m_start a = m_start b -> a = b.
Proof.
  intros Hr Ha Hb E.
  apply (spans_inj m_start m_end (finditer r text)); auto.
  - apply finditer_sorted.
  - eapply Forall_impl; [|apply finditer_in_text]. intros m (H & _). lia.
Qed.

(** *** The inner loop: the nearest candidate before *)

Lemma prior_step_cases d_itab d_start prior c :
  (itab c = d_itab /\ end_ c < d_start
   /\ prior_step d_itab d_start prior c
      = match prior with
        | None => Some c
        | Some p => if end_ p <? end_ c then Some c else prior
        end)
  \/ (~ (itab c = d_itab /\ end_ c < d_start)
      /\ prior_step d_itab d_start prior c = prior).
Proof.
  unfold prior_step.
  destruct (str_eqb (itab c) d_itab) eqn:E1; simpl.
  - apply str_eqb_eq in E1. destruct (end_ c <? d_start) eqn:E2.
    + apply Nat.ltb_lt in E2. left. auto.
    + apply Nat.ltb_ge in E2. right. split; [lia | reflexivity].
  - right. split; [|reflexivity]. intros [H _]. apply str_eqb_eq in H. congruence.
Qed.

Lemma fold_prior_spec d_itab d_start l : forall acc,
  match fold_left (prior_step d_itab d_start) l acc with
  | None => acc = None
            /\ forall c, In c l -> ~ (itab c = d_itab /\ end_ c < d_start)
  | Some p =>
      (acc = Some p \/ (In p l /\ itab p = d_itab /\ end_ p < d_start))
      /\ (forall a, acc = Some a -> end_ a <= end_ p)
      /\ (forall c, In c l -> itab c = d_itab -> end_ c < d_start ->
                    end_ c <= end_ p)
  end.
Proof.
  induction l as [|x t IH]; intros acc; simpl.
  - destruct acc as [p|].
    + split; [now left|]. split; [|intros c []].
      intros a [= ->]. lia.
    + split; [reflexivity | intros c []].
  - specialize (IH (prior_step d_itab d_start acc x)).
    destruct (fold_left _ t _) as [p|].
    + destruct IH as (A & B & C).
      destruct (prior_step_cases d_itab d_start acc x)
        as [(I1 & I2 & E) | (N & E)]; rewrite E in A, B.
      * destruct acc as [a|].
        -- destruct (end_ a <? end_ x) eqn:Q;
             [apply Nat.ltb_lt in Q | apply Nat.ltb_ge in Q].
           ++ specialize (B x eq_refl). split; [|split].
              ** destruct A as [[= <-] | (A1 & A2)]; right; auto.
              ** intros a' [= <-]. lia.
              ** intros c [<-|Hc] H1 H2; [lia | auto].
           ++ specialize (B a eq_refl). split; [|split].
              ** destruct A as [A | (A1 & A2)]; [now left | right; auto].
              ** intros a' [= <-]. lia.
              ** intros c [<-|Hc] H1 H2; [lia | auto].
        -- specialize (B x eq_refl). split; [|split].
           ++ destruct A as [[= <-] | (A1 & A2)]; right; auto.
           ++ discriminate.
           ++ intros c [<-|Hc] H1 H2; [lia | auto].
      * split; [|split].
        -- destruct A as [A | (A1 & A2)]; [now left | right; auto].
        -- exact B.
        -- intros c [<-|Hc] H1 H2; [tauto | auto].
    + destruct IH as (A & B).
      destruct (prior_step_cases d_itab d_start acc x)
        as [(I1 & I2 & E) | (N & E)]; rewrite E in A.
      * destruct acc as [a|]; [destruct (end_ a <? end_ x)|]; discriminate.
      * split; [exact A|]. intros c [<-|Hc]; auto.
Qed.

Lemma find_prior_some selects d_itab d_start p :
  find_prior selects d_itab d_start = Some p ->
  nearest_prior selects d_itab d_start p.
Proof.
  unfold find_prior. intros H.
  pose proof (fold_prior_spec d_itab d_start selects None) as S.
  rewrite H in S. destruct S as ([A | A] & _ & C); [discriminate|].
  split; [exact A|]. intros c' (X & Y & Z). auto.
Qed.

Lemma find_prior_none selects d_itab d_start :
  find_prior selects d_itab d_start = None ->
  forall c, ~ eligible selects d_itab d_start c.
Proof.
  unfold find_prior. intros H c (X & Y & Z).
  pose proof (fold_prior_spec d_itab d_start selects None) as S.
  rewrite H in S. destruct S as (_ & S). apply (S c X). auto.
Qed.

(** *** The outer loop: one deduplication statement at a time *)

Lemma canon_name_nonempty raw t : canon_name raw = Some t -> t <> [].
Proof. destruct raw as [[|c x]|]; simpl; intros [= <-]; discriminate. Qed.

Lemma delete_step_app unit src base selects acc d :
  delete_step unit src base selects acc d
  = acc ++ delete_step unit src base selects [] d.
Proof.
  unfold delete_step.
  destruct (canon_name _) as [[|c t]|]; rewrite ?app_nil_r; auto.
  destruct (find_prior _ _ _) as [p|]; rewrite ?app_nil_r; auto.
  destruct (has_distinct p); rewrite ?app_nil_r; auto.
Qed.

Lemma scan_unit_findings unit :
  findings (scan_unit unit)
  = Some (flat_map (findings_for unit)
                   (finditer STMT_DELETE_DUP_RE (src_of unit))).
Proof.
  unfold scan_unit. simpl. f_equal.
  now rewrite (fold_left_append _ (findings_for unit)
                 (fun acc d => delete_step_app unit _ _ _ acc d)).
Qed.

Lemma findings_for_pairs unit d :
  findings_for unit d
  = map (finding_of unit) (pair_of (collect_selects (src_of unit)) d).
Proof.
  unfold findings_for, delete_step, pair_of, d_target.
  destruct (canon_name _) as [[|c t]|]; auto.
  destruct (find_prior _ _ _) as [p|] eqn:E; auto.
  destruct (has_distinct p); auto. simpl. unfold finding_of. simpl.
  apply find_prior_some in E as ((_ & <- & _) & _). reflexivity.
Qed.

Lemma scan_unit_pairs unit :
  findings (scan_unit unit) = Some (map (finding_of unit) (matched_pairs unit)).
Proof.
  rewrite scan_unit_findings. unfold matched_pairs. f_equal.
  induction (finditer _ _) as [|d l IH]; simpl; [reflexivity|].
  now rewrite map_app, IH, findings_for_pairs.
Qed.

Lemma pair_of_inv selects d c d' :
  In (c, d') (pair_of selects d) ->
  d' = d /\ has_distinct c = false
  /\ exists t, d_target d = Some t /\ nearest_prior selects t (m_start d) c.
Proof.
  unfold pair_of. destruct (d_target d) as [[|x t]|] eqn:T; try (intros []).
  destruct (find_prior _ _ _) as [p|] eqn:E; [|intros []].
  destruct (has_distinct p) eqn:D; [intros []|].
  intros [[= <- <-]|[]]. repeat split; auto.
  eexists. split; [reflexivity|]. now apply find_prior_some.
Qed.

Lemma matched_pairs_inv unit c d :
  In (c, d) (matched_pairs unit) ->
  In d (finditer STMT_DELETE_DUP_RE (src_of unit))
  /\ has_distinct c = false
  /\ exists t, d_target d = Some t
               /\ nearest_prior (collect_selects (src_of unit)) t (m_start d) c.
Proof.
  unfold matched_pairs. rewrite in_flat_map. intros (d0 & I & P).
  apply pair_of_inv in P as (-> & P). split; assumption.
Qed.

(* ------------------------------------------------------------------ *)
(** ** Pairing *)

(** C1.  For every unit and every deduplication statement [d] found in its
    text, with canonical target [t]: the findings of the unit are what the
    statements add, one after the other; and either [d] is paired with the
    one candidate on [t] that ends latest among those ending before [d]
    starts, and a finding is built for [d] unless that candidate has the
    distinct flag, or no candidate on [t] ends before [d] starts and
    nothing is added for [d]. *)
Theorem pairing_contract (unit : Unit) (d : re_match) (t : str) :
  In d (finditer STMT_DELETE_DUP_RE (src_of unit)) ->
  d_target d = Some t ->
  let src := src_of unit in
  let selects := collect_selects src in
  findings (scan_unit unit)
  = Some (flat_map (findings_for unit) (finditer STMT_DELETE_DUP_RE src))
  /\ ((exists c,
          nearest_prior selects t (m_start d) c
          /\ (forall c', nearest_prior selects t (m_start d) c' -> c' = c)
          /\ findings_for unit d
             = if has_distinct c then []
               else [build_finding_for_pair unit src (base_start_of unit) t
                       (start c) (end_ c) (m_start d) (m_end d)])
      \/ ((forall c, ~ eligible selects t (m_start d) c)
          /\ findings_for unit d = [])).
Proof.
  intros Hd Ht src selects. split; [apply scan_unit_findings|].
  pose proof (canon_name_nonempty _ _ Ht) as Hne.
  unfold findings_for, delete_step. fold src selects.
  unfold d_target in Ht. rewrite Ht.
  destruct t as [|x t]; [congruence|].
  destruct (find_prior selects (x :: t) (m_start d)) as [p|] eqn:E.
  - left. exists p. apply find_prior_some in E as N.
    split; [exact N|]. split; [|now destruct (has_distinct p)].
    intros c' ((I' & T' & L') & M'). destruct N as ((I & T & L) & M).
    apply (selects_end_inj src); auto.
    assert (end_ c' <= end_ p) by (apply M; repeat split; auto).
    assert (end_ p <= end_ c') by (apply M'; repeat split; auto).
    lia.
  - right. split; [|reflexivity]. now apply find_prior_none.
Qed.

Lemma pairing_contract_witness :
  In example_delete (finditer STMT_DELETE_DUP_RE (src_of example_unit))
  /\ d_target example_delete = Some (s "lt_tab")
  /\ findings (scan_unit example_unit)
     = Some (flat_map (findings_for example_unit)
                      (finditer STMT_DELETE_DUP_RE (src_of example_unit))).
Proof.
  assert (H1 : In example_delete
                  (finditer STMT_DELETE_DUP_RE (src_of example_unit)))
    by (vm_compute; left; reflexivity).
  assert (H2 : d_target example_delete = Some (s "lt_tab")) by reflexivity.
  split; [exact H1|]. split; [exact H2|].
  exact (proj1 (pairing_contract example_unit example_delete (s "lt_tab") H1 H2)).
Defined.

(** C2.  The unit whose text is the query line, a line break and the
    deduplication line, with starting line 100, whatever its other header
    fields: the scan returns exactly one finding, tagged UseSelectDistinct,
    of severity error, starting at line 101, whose snippet is the query
    line (which escaping leaves as it is) and whose suggestion mentions
    lt_tab. *)
Theorem example_scenario (pgm inc ty : str) (nm : option str) (e : option Z)
        (old : option (list Finding)) :
  exists f sg,
    findings (scan_unit (mkUnit pgm inc ty nm (Some 100%Z) e
                                (Some example_text) old)) = Some [f]
    /\ issues_type f = Some (s "UseSelectDistinct")
    /\ severity f = Some (s "error")
    /\ starting_line f = Some 101%Z
    /\ snippet f = Some (escape_nl select_line)
    /\ snippet f = Some select_line
    /\ suggestion f = Some sg
    /\ contains (s "lt_tab") sg = true.
Proof.
  eexists. eexists. split; [vm_compute; reflexivity|].
  repeat split; vm_compute; reflexivity.
Qed.

(* ------------------------------------------------------------------ *)
(** ** Distinct suppresses *)

Lemma in_selects_from src c :
  In c (collect_selects src) ->
  exists m, In m (finditer STMT_SELECT_RE src) /\ select_from m c.
Proof.
  rewrite collect_selects_flat, in_flat_map. intros (m & Hm & Hc).
  exists m. split; [exact Hm|].
  destruct (select_of_cases m) as [E | (c' & E & F)]; rewrite E in Hc.
  - destruct Hc.
  - destruct Hc as [<-|[]]. exact F.
Qed.

(** C5.  A query statement [m] of the unit in whose span of the text the
    distinct-rows modifier is found anchors no finding: the findings are
    those of the matched pairs, and no matched pair has the statement [m]
    as its candidate, whatever deduplication statements follow. *)
Theorem distinct_suppresses (unit : Unit) (m : re_match) :
  In m (finditer STMT_SELECT_RE (src_of unit)) ->
  search SELECT_DISTINCT_RE (m_group0 m) <> None ->
  m_group0 m = slice (src_of unit) (m_start m) (m_end m)
  /\ findings (scan_unit unit)
     = Some (map (finding_of unit) (matched_pairs unit))
  /\ forall c d, In (c, d) (matched_pairs unit) -> start c <> m_start m.
Proof.
  intros Hm Hd. split; [|split; [apply scan_unit_pairs|]].
  { pose proof (finditer_in_text STMT_SELECT_RE (src_of unit)) as F.
    rewrite Forall_forall in F. apply (F m Hm). }
  intros c d Hp E.
  apply matched_pairs_inv in Hp as (_ & Hnd & t & _ & (Hc & _) & _).
  apply in_selects_from in Hc as (m' & Hm' & (A & _ & _ & _ & D)).
  assert (m' = m) as ->.
  { apply (finditer_start_inj STMT_SELECT_RE (src_of unit)); auto; [|lia].
    change (min_len STMT_SELECT_RE) with 7. lia. }
  destruct (search SELECT_DISTINCT_RE (m_group0 m)); congruence.
Qed.

Lemma distinct_suppresses_witness :
  In distinct_select (finditer STMT_SELECT_RE (src_of distinct_unit))
  /\ search SELECT_DISTINCT_RE (m_group0 distinct_select) <> None
  /\ findings (scan_unit distinct_unit) = Some [].
Proof.
  assert (H1 : In distinct_select
                  (finditer STMT_SELECT_RE (src_of distinct_unit)))
    by (vm_compute; left; reflexivity).
  assert (H2 : search SELECT_DISTINCT_RE (m_group0 distinct_select) <> None)
    by (vm_compute; discriminate).
  split; [exact H1|]. split; [exact H2|].
  rewrite (proj1 (proj2 (distinct_suppresses distinct_unit distinct_select
                           H1 H2))).
  vm_compute. reflexivity.
Defined.

(* ------------------------------------------------------------------ *)
(** ** Batch and single scans *)

Lemma fold_left_filter {A B} (f : A -> B) (p : B -> bool) l : forall acc,
  fold_left (fun results u => if p (f u) then results ++ [f u] else results)
            l acc
  = acc ++ filter p (map f l).
Proof.
  induction l as [|x t IH]; intros acc; simpl.
  - now rewrite app_nil_r.
  - rewrite IH. destruct (p (f x)); [|reflexivity].
    now rewrite <- app_assoc.
Qed.

(** C7.  A batch scan returns the scanned units that have a finding, in
    the order of the input.  A single scan returns the scanned unit: the
    header of the input with a findings list, which is empty when no pair
    was matched. *)
Theorem batch_semantics :
  (forall units,
      scan_rule_array units = filter has_findings (map scan_unit units))
  /\ (forall unit,
         has_findings (scan_unit unit) = true <-> matched_pairs unit <> [])
  /\ (forall unit,
         scan_rule_single unit
         = mkUnit (pgm_name unit) (inc_name unit) (type unit) (name unit)
                  (start_line unit) (end_line unit) (code unit)
                  (Some (map (finding_of unit) (matched_pairs unit))))
  /\ (forall unit,
         matched_pairs unit = [] ->
         findings (scan_rule_single unit) = Some []).
Proof.
  split; [|split; [|split]].
  - intros units. unfold scan_rule_array.
    now rewrite (fold_left_filter scan_unit has_findings).
  - intros unit. unfold has_findings. rewrite scan_unit_pairs.
    destruct (matched_pairs unit); simpl; split; congruence.
  - intros unit. unfold scan_rule_single.
    pose proof (scan_unit_pairs unit) as H. unfold scan_unit in *.
    simpl in *. now rewrite H.
  - intros unit H. unfold scan_rule_single.
    now rewrite scan_unit_pairs, H.
Qed.

(* ------------------------------------------------------------------ *)
(** ** The scan never fails *)

Lemma no_eligible_no_prior selects t d_start :
  (forall c, ~ eligible selects t d_start c) ->
  find_prior selects t d_start = None.
Proof.
  intros H. destruct (find_prior selects t d_start) as [p|] eqn:E; [|reflexivity].
  apply find_prior_some in E as (E & _). now apply H in E.
Qed.

(** C8.  [scan_unit] is a function defined on every unit: it returns the
    header of the unit with a findings list.  The list is empty when the
    text is absent or empty, when no query statement is a candidate, and
    when there is no deduplication statement.  A query statement with no
    fill clause, or with no resolvable target, is no candidate; a
    deduplication statement with no resolvable target, or with no eligible
    candidate before it, adds no finding. *)
Theorem scan_total (unit : Unit) :
  exists fs,
    scan_unit unit
    = mkUnit (pgm_name unit) (inc_name unit) (type unit) (name unit)
             (start_line unit) (end_line unit) (code unit) (Some fs)
    /\ (code unit = None \/ code unit = Some [] -> fs = [])
    /\ (collect_selects (src_of unit) = [] -> fs = [])
    /\ (finditer STMT_DELETE_DUP_RE (src_of unit) = [] -> fs = [])
    /\ (forall m, search INTO_TABLE_ITAB_RE (m_group0 m) = None ->
                  select_of m = [])
    /\ (forall m im, search INTO_TABLE_ITAB_RE (m_group0 m) = Some im ->
                     canon_name (coalesce_group im shapes) = None ->
                     select_of m = [])
    /\ (forall d, d_target d = None -> findings_for unit d = [])
    /\ (forall d t, d_target d = Some t ->
                    (forall c, ~ eligible (collect_selects (src_of unit)) t
                                          (m_start d) c) ->
                    findings_for unit d = []).
Proof.
  exists (flat_map (findings_for unit)
                   (finditer STMT_DELETE_DUP_RE (src_of unit))).
  assert (P : forall d, collect_selects (src_of unit) = [] ->
                        findings_for unit d = []).
  { intros d H. unfold findings_for, delete_step. rewrite H.
    destruct (canon_name _) as [[|c t]|]; reflexivity. }
  split; [|repeat split].
  - pose proof (scan_unit_findings unit) as H. unfold scan_unit in *.
    simpl in *. now rewrite H.
  - intros H. unfold src_of. destruct H as [-> | ->]; reflexivity.
  - intros H. induction (finditer _ _) as [|d l IH]; simpl; [reflexivity|].
    now rewrite IH, P.
  - now intros ->.
  - intros m H. unfold select_of, select_step. now rewrite H.
  - intros m im H1 H2. unfold select_of, select_step. now rewrite H1, H2.
  - intros d H. unfold findings_for, delete_step. unfold d_target in H.
    now rewrite H.
  - intros d t H N. unfold findings_for, delete_step. unfold d_target in H.
    rewrite H. destruct t as [|c t]; [reflexivity|].
    now rewrite (no_eligible_no_prior _ _ _ N).
Qed.

(* ------------------------------------------------------------------ *)
(** ** Findings follow the deduplication statements *)

Lemma min_len_delete : min_len STMT_DELETE_DUP_RE = 34.
Proof. reflexivity. Qed.

Lemma pair_of_cases selects d :
  pair_of selects d = [] \/ exists c, pair_of selects d = [(c, d)].
Proof.
  unfold pair_of. destruct (d_target d) as [[|x t]|]; auto.
  destruct (find_prior _ _ _) as [p|]; auto.
  destruct (has_distinct p); eauto.
Qed.

Lemma matched_pairs_sorted unit :
  StronglySorted delete_before (matched_pairs unit).
Proof.
  unfold matched_pairs.
  pose proof (finditer_sorted STMT_DELETE_DUP_RE (src_of unit)) as HS.
  pose proof (finditer_in_text STMT_DELETE_DUP_RE (src_of unit)) as HT.
  induction HS as [|d l _ IH Hd]; simpl; [constructor|].
  inversion HT as [|? ? Td Tl]; subst. specialize (IH Tl).
  destruct (pair_of_cases (collect_selects (src_of unit)) d)
    as [-> | (c & ->)]; [exact IH|].
  simpl. constructor; [exact IH|].
  apply Forall_flat_map. rewrite Forall_forall in Hd, Tl |- *.
  intros d' Hd'. specialize (Hd _ Hd'). specialize (Tl _ Hd').
  destruct (pair_of_cases (collect_selects (src_of unit)) d')
    as [-> | (c' & ->)]; [constructor|].
  constructor; [|constructor].
  destruct Td as (X & _). rewrite min_len_delete in X.
  unfold delete_before, before in *. simpl. lia.
Qed.

(** C10.  The findings of a unit are those of its matched pairs, listed by
    ascending start offset of the deduplication statement of each pair.
    The query statements they are anchored to need not be in order: a unit
    with two queries and the two deduplication statements crossed has its
    first finding at line 2 and its second at line 1. *)
Theorem findings_in_delete_order :
  (forall unit,
      findings (scan_unit unit)
      = Some (map (finding_of unit) (matched_pairs unit))
      /\ StronglySorted delete_before (matched_pairs unit))
  /\ exists f1 f2,
       findings (scan_unit crossed_unit) = Some [f1; f2]
       /\ starting_line f1 = Some 2%Z
       /\ starting_line f2 = Some 1%Z.
Proof.
  split.
  - intros unit. split; [apply scan_unit_pairs | apply matched_pairs_sorted].
  - eexists. eexists. split; [vm_compute; reflexivity|].
    split; reflexivity.
Qed.

(* ------------------------------------------------------------------ *)
(** ** Candidates are not consumed *)




(* ------------------------------------------------------------------ *)
(** ** Lines of the text *)

Lemma count_nl_app a b : count_nl (a ++ b) = count_nl a + count_nl b.
Proof. induction a as [|c t IH]; simpl; [reflexivity | rewrite IH; lia]. Qed.

Lemma escape_nl_id x : count_nl x = 0 -> escape_nl x = x.
Proof.
  induction x as [|c t IH]; simpl; [reflexivity|].
  destruct (Ascii.eqb c nl); [discriminate|]. intros H. now rewrite IH.
Qed.

Lemma find_nl_aux_spec x : forall i,
  (find_nl_aux x i = (-1)%Z /\ count_nl x = 0)
  \/ exists x1 x2, x = x1 ++ nl :: x2 /\ count_nl x1 = 0
                   /\ find_nl_aux x i = Z.of_nat (i + length x1).
Proof.
  induction x as [|c t IH]; intros i; simpl; [now left|].
  destruct (Ascii.eqb c nl) eqn:E.
  - apply Ascii.eqb_eq in E as ->. right. exists [], t. simpl.
    now rewrite Nat.add_0_r.
  - destruct (IH (S i)) as [[A B] | (x1 & x2 & A & B & C)].
    + left. now rewrite A, B.
    + right. exists (c :: x1), x2. simpl. rewrite E, C, B, A.
      repeat split. f_equal. lia.
Qed.

Lemma rfind_nl_aux_spec x : forall i last,
  (rfind_nl_aux x i last = last /\ count_nl x = 0)
  \/ exists x1 x2, x = x1 ++ nl :: x2 /\ count_nl x2 = 0
                   /\ rfind_nl_aux x i last = Z.of_nat (i + length x1).
Proof.
  induction x as [|c t IH]; intros i last; simpl; [now left|].
  destruct (Ascii.eqb c nl) eqn:E.
  - apply Ascii.eqb_eq in E as ->.
    destruct (IH (S i) (Z.of_nat i)) as [[A B] | (x1 & x2 & A & B & C)].
    + right. exists [], t. simpl. now rewrite Nat.add_0_r.
    + right. exists (nl :: x1), x2. simpl. rewrite C, A.
      repeat split; auto; f_equal; lia.
  - destruct (IH (S i) last) as [[A B] | (x1 & x2 & A & B & C)].
    + left. now rewrite A, B.
    + right. exists (c :: x1), x2. simpl. rewrite C, A.
      repeat split; auto; f_equal; lia.
Qed.

(** Where the snippet starts: after the last line break of what comes
    before the statement, or at the start of the text. *)
Lemma line_start_spec A :
  exists p a,
    A = p ++ a /\ count_nl a = 0 /\ (p = [] \/ exists q, p = q ++ [nl])
    /\ Z.to_nat (if (rfind_nl_aux A 0 (-1) =? -1)%Z then 0%Z
                 else (rfind_nl_aux A 0 (-1) + 1)%Z) = length p.
Proof.
  destruct (rfind_nl_aux_spec A 0 (-1)%Z) as [[E C] | (x1 & x2 & E & C & F)].
  - exists [], A. rewrite E. simpl. auto.
  - exists (x1 ++ [nl]), x2. rewrite F, E, <- app_assoc. simpl.
    repeat split; eauto.
    destruct (Z.of_nat (length x1) =? -1)%Z eqn:Q.
    + apply Z.eqb_eq in Q. lia.
    + rewrite length_app. simpl. lia.
Qed.

(** Where the snippet ends: at the first line break of what comes after
    the statement, or at the end of the text. *)
Lemma line_end_spec B e :
  exists b q,
    B = b ++ q /\ count_nl b = 0 /\ (q = [] \/ exists q', q = nl :: q')
    /\ Z.to_nat (if (find_nl_aux B e =? -1)%Z then Z.of_nat (e + length B)
                 else find_nl_aux B e) = e + length b.
Proof.
  destruct (find_nl_aux_spec B e) as [[E C] | (x1 & x2 & E & C & F)].
  - exists B, []. rewrite E, app_nil_r. repeat split; auto.
    rewrite Z.eqb_refl. apply Nat2Z.id.
  - exists x1, (nl :: x2). rewrite F. repeat split; eauto.
    destruct (Z.of_nat (e + length x1) =? -1)%Z eqn:Q.
    + apply Z.eqb_eq in Q. lia.
    + apply Nat2Z.id.
Qed.

Lemma slice_mid (p m q : str) a b :
  a = length p -> b = length p + length m -> slice (p ++ m ++ q) a b = m.
Proof.
  intros -> ->. unfold slice.
  rewrite skipn_app, skipn_all, Nat.sub_diag. simpl.
  replace (length p + length m - length p) with (length m) by lia.
  rewrite firstn_app, firstn_all, Nat.sub_diag. simpl. apply app_nil_r.
Qed.

Lemma text_split (text : str) a b :
  a <= b -> b <= length text ->
  text = firstn a text ++ slice text a b ++ skipn b text
  /\ length (firstn a text) = a
  /\ length (slice text a b) = b - a.
Proof.
  intros H1 H2. unfold slice. split; [|split].
  - rewrite <- (firstn_skipn a text) at 1. f_equal.
    rewrite <- (firstn_skipn (b - a) (skipn a text)) at 1. f_equal.
    rewrite skipn_skipn. f_equal. lia.
  - rewrite length_firstn. lia.
  - rewrite length_firstn, length_skipn. lia.
Qed.

Lemma get_line_snippet_spec text a b :
  a <= b -> b <= length text ->
  lines_of_span text a b (get_line_snippet text a b)
  /\ count_nl (get_line_snippet text a b) = count_nl (slice text a b).
Proof.
  intros H1 H2. destruct (text_split text a b H1 H2) as (T & LA & LM).
  assert (LB : length text = b + length (skipn b text))
    by (rewrite length_skipn; lia).
  destruct (line_start_spec (firstn a text)) as (p & x & EA & Cx & Hp & Ls).
  destruct (line_end_spec (skipn b text) b) as (y & q & EB & Cy & Hq & Le).
  rewrite <- LB in Le.
  assert (G : get_line_snippet text a b
              = slice text (length p) (b + length y)).
  { unfold get_line_snippet, rfind_nl, find_nl. now rewrite Ls, Le. }
  rewrite G. clear G Ls Le LB.
  rewrite EA, EB in T. rewrite EA, length_app in LA.
  remember (slice text a b) as M. clear HeqM EA EB.
  assert (S : slice text (length p) (b + length y) = x ++ M ++ y).
  { rewrite T.
    replace ((p ++ x) ++ M ++ y ++ q) with (p ++ (x ++ M ++ y) ++ q)
      by (now rewrite <- !app_assoc).
    apply slice_mid; [reflexivity|]. rewrite !length_app. lia. }
  rewrite S. split.
  - exists p, q. split; [|split; [|split; [|split; [|split; [|split]]]]]; auto.
    + rewrite T. now rewrite <- !app_assoc.
    + lia.
    + rewrite T.
      replace ((p ++ x) ++ M ++ y ++ q) with (p ++ x ++ (M ++ y ++ q))
        by (now rewrite <- !app_assoc).
      rewrite slice_mid; auto; lia.
    + rewrite !length_app. lia.
    + rewrite T.
      replace ((p ++ x) ++ M ++ y ++ q) with (((p ++ x) ++ M) ++ y ++ q)
        by (now rewrite <- !app_assoc).
      rewrite slice_mid; auto; rewrite !length_app; lia.
  - rewrite !count_nl_app. lia.
Qed.

Lemma split_lines_first L post :
  count_nl L = 0 -> (post = [] \/ exists q, post = nl :: q) ->
  exists ls, split_lines (L ++ post) = L :: ls.
Proof.
  intros HL Hp. induction L as [|c t IH]; simpl in *.
  - destruct Hp as [-> | (q & ->)]; simpl; eauto.
  - destruct (Ascii.eqb c nl); [discriminate|].
    destruct (IH HL) as (ls & ->). eauto.
Qed.

Lemma split_lines_skip rest q :
  nth (count_nl (q ++ [nl])) (split_lines ((q ++ [nl]) ++ rest)) []
  = nth 0 (split_lines rest) [].
Proof.
  induction q as [|c t IH]; simpl.
  - reflexivity.
  - destruct (Ascii.eqb c nl); simpl; [exact IH|].
    rewrite <- IH. rewrite count_nl_app. simpl.
    rewrite Nat.add_1_r.
    destruct (split_lines ((t ++ [nl]) ++ rest)); [destruct (count_nl t)|];
      reflexivity.
Qed.

Lemma physical_line_spec pre L post off :
  (pre = [] \/ exists q, pre = q ++ [nl]) ->
  (post = [] \/ exists q, post = nl :: q) ->
  count_nl L = 0 -> length pre <= off ->
  count_nl (slice (pre ++ L ++ post) (length pre) off) = 0 ->
  physical_line (pre ++ L ++ post) off = L.
Proof.
  intros Hpre Hpost HL Hoff Hc. unfold physical_line.
  assert (E : count_nl (firstn off (pre ++ L ++ post)) = count_nl pre).
  { unfold slice in Hc. rewrite skipn_app, skipn_all, Nat.sub_diag in Hc.
    simpl in Hc. rewrite firstn_app, count_nl_app, firstn_all2 by lia.
    rewrite Hc. lia. }
  rewrite E. destruct (split_lines_first L post HL Hpost) as (ls & F).
  destruct Hpre as [-> | (q & ->)].
  - simpl. now rewrite F.
  - rewrite split_lines_skip, F. reflexivity.
Qed.

(* ------------------------------------------------------------------ *)
(** ** The snippet of a finding *)

Lemma multi_pairs : matched_pairs multi_unit = [(multi_select, multi_delete)].
Proof. vm_compute. reflexivity. Qed.

Lemma matched_pair_span unit c d :
  In (c, d) (matched_pairs unit) ->
  start c < end_ c /\ end_ c <= length (src_of unit)
  /\ stmt c = slice (src_of unit) (start c) (end_ c).
Proof.
  intros H. apply matched_pairs_inv in H as (_ & _ & t & _ & (Hc & _) & _).
  pose proof (selects_in_text (src_of unit)) as F.
  rewrite Forall_forall in F. exact (F c Hc).
Qed.

(** C3, as stated, fails: for a query statement written on two lines the
    snippet holds both lines, not the one line of the start offset. *)
Lemma single_line_snippet_fails :
  ~ (forall unit c d,
        In (c, d) (matched_pairs unit) ->
        snippet (finding_of unit (c, d))
        = Some (physical_line (src_of unit) (start c))).
Proof.
  intros H. specialize (H multi_unit multi_select multi_delete).
  rewrite multi_pairs in H. specialize (H (or_introl eq_refl)).
  vm_compute in H. discriminate H.
Qed.

(** C3, amended.  The snippet of every finding is, with its line breaks
    escaped, the text from the character after the last line break before
    the start offset of the query statement (or the start of the text) up
    to the first line break at or after the end offset of the statement (or
    the end of the text).  When the statement has no line break in it, this
    is the one physical line that holds its start offset, and escaping
    leaves it as it is. *)
Theorem snippet_lines (unit : Unit) (c : select_rec) (d : re_match) :
  In (c, d) (matched_pairs unit) ->
  let src := src_of unit in
  let snip := get_line_snippet src (start c) (end_ c) in
  findings (scan_unit unit) = Some (map (finding_of unit) (matched_pairs unit))
  /\ snippet (finding_of unit (c, d)) = Some (escape_nl snip)
  /\ lines_of_span src (start c) (end_ c) snip
  /\ (count_nl (stmt c) = 0 ->
      snip = physical_line src (start c) /\ escape_nl snip = snip).
Proof.
  intros H src snip. apply matched_pair_span in H as (L1 & L2 & St).
  destruct (get_line_snippet_spec src (start c) (end_ c)) as (Sp & Cn);
    [lia | exact L2 |].
  fold snip in Sp, Cn. fold src in St.
  split; [apply scan_unit_pairs|]. split; [reflexivity|].
  split; [exact Sp|]. intros Z. rewrite St, <- Cn in Z.
  split; [|now apply escape_nl_id].
  destruct Sp as (pre & post & T & Hpre & Hpost & A1 & A2 & _).
  rewrite T. symmetry. apply physical_line_spec; auto. now rewrite <- T.
Qed.

Lemma snippet_lines_witness :
  In (multi_select, multi_delete) (matched_pairs multi_unit)
  /\ snippet (finding_of multi_unit (multi_select, multi_delete))
     = Some (s "SELECT *\n  FROM t INTO TABLE lt_tab.").
Proof.
  assert (H : In (multi_select, multi_delete) (matched_pairs multi_unit))
    by (rewrite multi_pairs; left; reflexivity).
  split; [exact H|].
  rewrite (proj1 (proj2 (snippet_lines multi_unit multi_select multi_delete H))).
  vm_compute. reflexivity.
Defined.

(* ------------------------------------------------------------------ *)
(** ** The lines of a finding *)

Lemma example_pairs :
  matched_pairs example_unit
  = [(mkSelect (s "lt_tab") 0 35 false select_line, example_delete)].
Proof. vm_compute. reflexivity. Qed.

(** C4, as stated, fails: the finding of the example unit starts at line
    101 and its snippet has no line break, yet it ends at line 102. *)
Lemma ending_line_as_stated_fails :
  ~ (forall unit c d,
        In (c, d) (matched_pairs unit) ->
        let f := finding_of unit (c, d) in
        let snip := get_line_snippet (src_of unit) (start c) (end_ c) in
        let line := (base_start_of unit
                     + (Z.of_nat (count_nl (firstn (start c) (src_of unit))) + 1))%Z in
        starting_line f = Some line
        /\ ending_line f = Some (line + Z.of_nat (count_nl snip))%Z).
Proof.
  intros H.
  specialize (H example_unit (mkSelect (s "lt_tab") 0 35 false select_line)
                example_delete).
  rewrite example_pairs in H. destruct (H (or_introl eq_refl)) as [_ E].
  vm_compute in E. discriminate E.
Qed.

(** C4, amended.  Every finding starts at the starting line of the unit
    plus the line of the query statement in the unit, counted from 1: one
    plus the line breaks before its start offset.  It ends at that line
    plus one plus the line breaks in the snippet before escaping; for a
    statement with no line break in it, at the starting line plus one. *)
Theorem line_numbers (unit : Unit) (c : select_rec) (d : re_match) :
  In (c, d) (matched_pairs unit) ->
  let src := src_of unit in
  let f := finding_of unit (c, d) in
  let snip := get_line_snippet src (start c) (end_ c) in
  let line := (base_start_of unit
               + (Z.of_nat (count_nl (firstn (start c) src)) + 1))%Z in
  findings (scan_unit unit) = Some (map (finding_of unit) (matched_pairs unit))
  /\ starting_line f = Some line
  /\ ending_line f = Some (line + (Z.of_nat (count_nl snip) + 1))%Z
  /\ (count_nl (stmt c) = 0 -> ending_line f = Some (line + 1)%Z).
Proof.
  intros H src f snip line. apply matched_pair_span in H as (L1 & L2 & St).
  destruct (get_line_snippet_spec src (start c) (end_ c)) as (_ & Cn);
    [lia | exact L2 |].
  fold snip in Cn. fold src in St.
  assert (E : slice src 0 (start c) = firstn (start c) src)
    by (unfold slice; now rewrite Nat.sub_0_r).
  split; [apply scan_unit_pairs|].
  unfold f, finding_of, build_finding_for_pair. simpl. fold src snip.
  rewrite E. fold line. repeat split.
  intros Z. rewrite St, <- Cn in Z. now rewrite Z.
Qed.

Lemma line_numbers_witness :
  In (multi_select, multi_delete) (matched_pairs multi_unit)
  /\ starting_line (finding_of multi_unit (multi_select, multi_delete))
     = Some 101%Z
  /\ ending_line (finding_of multi_unit (multi_select, multi_delete))
     = Some 103%Z.
Proof.
  assert (H : In (multi_select, multi_delete) (matched_pairs multi_unit))
    by (rewrite multi_pairs; left; reflexivity).
  split; [exact H|].
  destruct (line_numbers multi_unit multi_select multi_delete H)
    as (_ & A & B & _).
  split; [rewrite A | rewrite B]; vm_compute; reflexivity.
Defined.

(* ------------------------------------------------------------------ *)
(** ** Following the matcher along its first successful path *)

Lemma star_run_lang {R} p (k : cursor -> option R) rest : forall prev pos g res,
  star_run p k prev pos rest g = Some res ->
  exists w cur', rest = w ++ c_rest cur'
                 /\ Forall (fun c => p c = true) w /\ k cur' = Some res.
Proof.
  induction rest as [|c t IH]; intros prev pos g res H; simpl in H.
  - exists [], (mkCursor prev pos [] g). auto.
  - destruct (p c) eqn:E.
    + destruct (star_run p k (Some c) (S pos) t g) as [r0|] eqn:F.
      * injection H as <-. apply IH in F as (w & cur' & A & B & C).
        exists (c :: w), cur'. simpl. rewrite <- A. auto.
      * exists [], (mkCursor prev pos (c :: t) g). auto.
    + exists [], (mkCursor prev pos (c :: t) g). auto.
Qed.

Lemma rmatch_lang {R} r : forall cur (k : cursor -> option R) res,
  rmatch r cur k = Some res ->
  exists w cur', c_rest cur = w ++ c_rest cur' /\ lang r w /\ k cur' = Some res.
Proof.
  induction r as [|p|a IHa b IHb|a IHa b IHb|a IHa|p| |n a IHa];
    intros cur k res H; simpl in H.
  - exists [], cur. simpl. auto.
  - destruct (c_rest cur) as [|c t] eqn:E; [discriminate|].
    destruct (p c) eqn:P; [|discriminate].
    exists [c], (mkCursor (Some c) (S (c_pos cur)) t (c_groups cur)).
    split; [reflexivity|]. split; [|exact H]. simpl. eauto.
  - apply IHa in H as (w1 & c1 & E1 & L1 & H).
    apply IHb in H as (w2 & c2 & E2 & L2 & H).
    exists (w1 ++ w2), c2. rewrite E1, E2, app_assoc.
    split; [reflexivity|]. split; [|exact H]. simpl. eauto.
  - destruct (rmatch a cur k) as [x|] eqn:E.
    + injection H as <-. apply IHa in E as (w & c1 & E1 & L1 & E).
      exists w, c1. simpl. auto.
    + apply IHb in H as (w & c1 & E1 & L1 & H).
      exists w, c1. simpl. auto.
  - destruct (rmatch a cur k) as [x|] eqn:E.
    + injection H as <-. apply IHa in E as (w & c1 & E1 & L1 & E).
      exists w, c1. simpl. auto.
    + exists [], cur. simpl. auto.
  - apply star_run_lang in H. exact H.
  - destruct (at_boundary cur); [|discriminate].
    exists [], cur. simpl. auto.
  - apply IHa in H as (w & c1 & E1 & L1 & H).
    exists w, (capture n cur c1). simpl. auto.
Qed.

Lemma fails_lang r cur :
  (forall w t, c_rest cur = w ++ t -> ~ lang r w) -> fails r cur.
Proof.
  intros H R k. destruct (rmatch r cur k) as [res|] eqn:E; [|reflexivity].
  apply rmatch_lang in E as (w & cur' & A & B & _). now apply H in A.
Qed.

Lemma fails_chr p prev pos rest g :
  stops p rest -> fails (Chr p) (mkCursor prev pos rest g).
Proof.
  intros H R k. simpl. destruct rest as [|c t]; [reflexivity|].
  simpl in H. now rewrite H.
Qed.

Lemma fails_cat a b cur : fails a cur -> fails (Cat a b) cur.
Proof. intros H R k. simpl. apply H. Qed.

Lemma leads_eps cur : leads Eps cur cur.
Proof. intros R k res H. exact H. Qed.

Lemma leads_chr p c prev pos t g :
  p c = true ->
  leads (Chr p) (mkCursor prev pos (c :: t) g) (mkCursor (Some c) (S pos) t g).
Proof. intros P R k res H. simpl. now rewrite P. Qed.

Lemma leads_cat a b c1 c2 c3 :
  leads a c1 c2 -> leads b c2 c3 -> leads (Cat a b) c1 c3.
Proof. intros A B R k res H. simpl. apply A. now apply B. Qed.

Lemma leads_alt_l a b c1 c2 : leads a c1 c2 -> leads (Alt a b) c1 c2.
Proof. intros A R k res H. simpl. now rewrite (A R k res H). Qed.

Lemma leads_alt_r a b c1 c2 :
  fails a c1 -> leads b c1 c2 -> leads (Alt a b) c1 c2.
Proof. intros A B R k res H. simpl. rewrite (A R k). now apply B. Qed.

Lemma leads_opt a c1 c2 : leads a c1 c2 -> leads (Opt a) c1 c2.
Proof. intros A R k res H. simpl. now rewrite (A R k res H). Qed.

Lemma leads_opt_skip a c1 : fails a c1 -> leads (Opt a) c1 c1.
Proof. intros A R k res H. simpl. now rewrite (A R k). Qed.

Lemma leads_wordb cur : at_boundary cur = true -> leads WordB cur cur.
Proof. intros A R k res H. simpl. now rewrite A. Qed.

Lemma leads_group n a c1 c2 :
  leads a c1 c2 -> leads (Group n a) c1 (capture n c1 c2).
Proof. intros A R k res H. simpl. now apply A. Qed.

Lemma leads_star p w : forall prev pos rest g,
  Forall (fun c => p c = true) w -> stops p rest ->
  leads (Star p) (mkCursor prev pos (w ++ rest) g) (passed prev pos w rest g).
Proof.
  unfold passed.
  induction w as [|c t IH]; intros prev pos rest g Hw Hs R k res H; simpl in *.
  - rewrite Nat.add_0_r in H. destruct rest as [|c t]; simpl; [exact H|].
    simpl in Hs. now rewrite Hs.
  - inversion Hw as [|? ? Pc Pt]; subst. rewrite Pc.
    replace (pos + S (length t)) with (S pos + length t) in H by lia.
    pose proof (IH (Some c) (S pos) rest g Pt Hs R k res H) as Q.
    simpl in Q. now rewrite Q.
Qed.

Lemma leads_star_none p prev pos rest g :
  stops p rest ->
  leads (Star p) (mkCursor prev pos rest g) (mkCursor prev pos rest g).
Proof.
  intros Hs R k res H. simpl. destruct rest as [|c t]; simpl; [exact H|].
  simpl in Hs. now rewrite Hs.
Qed.

(** An attempt that the matcher leads through succeeds with that match. *)
Lemma try_at_leads r ma prev pos rest g fin :
  leads r (mkCursor prev pos rest g) fin ->
  (ma && (c_pos fin =? pos)) = false ->
  try_at r ma (mkCursor prev pos rest g)
  = Some (mkMatch pos (c_pos fin) (firstn (c_pos fin - pos) rest) (c_groups fin)).
Proof. intros L M. unfold try_at. apply L. simpl. now rewrite M. Qed.

Lemma leads_eq r c1 c2 c2' : leads r c1 c2 -> c2 = c2' -> leads r c1 c2'.
Proof. now intros H <-. Qed.

Lemma leads_chr_at p cur c t :
  c_rest cur = c :: t -> p c = true ->
  leads (Chr p) cur (mkCursor (Some c) (S (c_pos cur)) t (c_groups cur)).
Proof. intros E P R k res H. simpl. now rewrite E, P. Qed.

Lemma leads_skip p cur : stops p (c_rest cur) -> leads (Star p) cur cur.
Proof. destruct cur. apply leads_star_none. Qed.

Lemma fails_chr_at p cur : stops p (c_rest cur) -> fails (Chr p) cur.
Proof. destruct cur. apply fails_chr. Qed.

(* ------------------------------------------------------------------ *)
(** ** Target resolution *)

Lemma word_char c :
  is_word c = true ->
  is_space c = false /\ Ascii.eqb "@" c = false /\ Ascii.eqb "<" c = false
  /\ Ascii.eqb "(" c = false /\ c <> "("%char /\ c <> "."%char.
Proof.
  destruct c as [[] [] [] [] [] [] [] []]; vm_compute; intros H;
    repeat split; congruence.
Qed.

Lemma identifier_cons x :
  identifier x ->
  exists c t, x = c :: t /\ is_word c = true
              /\ Forall (fun c => is_word c = true) t.
Proof.
  intros [N F]. destruct x as [|c t]; [congruence|].
  inversion F; subst. eauto.
Qed.

Lemma stops_identifier (p : ascii -> bool) x rest :
  identifier x -> (forall c, is_word c = true -> p c = false) ->
  stops p (x ++ rest).
Proof.
  intros H P. apply identifier_cons in H as (c & t & -> & W & _).
  simpl. auto.
Qed.

Lemma leads_ident n x rest cur :
  c_rest cur = x ++ rest -> identifier x -> stops is_word rest ->
  exists fin,
    leads (Group n ident) cur fin
    /\ c_rest fin = rest /\ c_pos fin = c_pos cur + length x
    /\ c_groups fin = (n, x) :: c_groups cur.
Proof.
  intros E H Hs. apply identifier_cons in H as (c & t & -> & W & F).
  eexists. split.
  - apply leads_group. unfold ident, plus. eapply leads_cat.
    + apply leads_chr_at; [exact E | exact W].
    + apply leads_star; eassumption.
  - unfold capture, passed. cbn [c_rest c_pos c_groups c_prev].
    rewrite E. repeat split; [simpl; lia|].
    replace (S (c_pos cur) + length t - c_pos cur) with (length (c :: t))
      by (cbn [length]; lia).
    now rewrite firstn_app, firstn_all, Nat.sub_diag, app_nil_r.
Qed.

Lemma word_not_space c : is_word c = true -> is_space c = false.
Proof. intros H. apply (word_char c H). Qed.

Lemma word_not_at c : is_word c = true -> Ascii.eqb "@" c = false.
Proof. intros H. apply (word_char c H). Qed.

Lemma word_not_lt c : is_word c = true -> Ascii.eqb "<" c = false.
Proof. intros H. apply (word_char c H). Qed.

Lemma word_not_paren c : is_word c = true -> Ascii.eqb "(" c = false.
Proof. intros H. apply (word_char c H). Qed.

Ltac chr_ok :=
  apply leads_chr_at; [first [eassumption | reflexivity] | reflexivity].

Ltac skip_ok := apply leads_skip; first [reflexivity | eassumption].

(** Inside the brackets of a shape: [\s*(?P<n>\w+)\s*] and the closing
    bracket, on the identifier and the bracket. *)
Lemma leads_bracketed n close x rest cur :
  c_rest cur = x ++ close :: rest -> identifier x ->
  is_word close = false -> is_space close = false ->
  exists fin,
    leads (cat [spaces0; Group n ident; spaces0; lit close]) cur fin
    /\ c_rest fin = rest /\ c_pos fin = c_pos cur + length x + 1
    /\ c_groups fin = (n, x) :: c_groups cur.
Proof.
  intros E H W Sp.
  destruct (leads_ident n x (close :: rest) cur E H W)
    as (f1 & L1 & R1 & P1 & G1).
  eexists. split.
  - cbn [cat]. eapply leads_cat.
    { apply leads_skip. rewrite E.
      apply stops_identifier; [exact H | exact word_not_space]. }
    eapply leads_cat; [exact L1|].
    eapply leads_cat.
    { apply leads_skip. rewrite R1. exact Sp. }
    apply leads_chr_at; [exact R1 | apply Ascii.eqb_refl].
  - cbn [c_rest c_pos c_groups]. repeat split; [lia | exact G1].
Qed.

Lemma lang_shape_data w : lang shape_data w -> In "("%char w.
Proof.
  unfold shape_data. cbn [cat lang].
  intros (w1 & w2 & -> & _ & w3 & w4 & -> & _ & w5 & w6 & -> & Hc & _).
  unfold lit in Hc. cbn [lang] in Hc. destruct Hc as (c & -> & Hc).
  apply Ascii.eqb_eq in Hc as <-. rewrite !in_app_iff. simpl. auto.
Qed.

Lemma identifier_no_paren x : identifier x -> ~ In "("%char x.
Proof.
  intros [_ F] I. rewrite Forall_forall in F. apply F in I. discriminate I.
Qed.

(** The target token on an identifier spelled in a shape: the matcher
    goes through the shape, and the group of the shape holds the
    identifier as it is written. *)
Lemma token_leads sh x rest cur :
  c_rest cur = spell sh x ++ rest -> identifier x ->
  stops is_word rest -> ~ In "("%char rest ->
  exists fin,
    leads TARGET_ITAB_TOKEN cur fin
    /\ c_rest fin = rest
    /\ c_pos fin = c_pos cur + length (spell sh x)
    /\ c_groups fin = (group_of sh, x) :: c_groups cur.
Proof.
  intros E H Hs Hp. unfold TARGET_ITAB_TOKEN. cbn [cat].
  destruct sh; unfold spell in *;
    rewrite <- ?app_assoc in E; cbn [s list_ascii_of_string app] in E.
  - (* DATA(x) *)
    set (c5 := mkCursor (Some "("%char) (5 + c_pos cur)
                        (x ++ ")"%char :: rest) (c_groups cur)).
    destruct (leads_bracketed "data" ")"%char x rest c5 eq_refl H eq_refl eq_refl)
      as (fin & L & R1 & P1 & G1).
    exists fin. split; [|repeat split; auto].
    + eapply leads_cat.
      { apply leads_opt_skip, fails_chr_at. now rewrite E. }
      eapply leads_cat; [apply leads_skip; now rewrite E|].
      apply leads_alt_l. unfold shape_data.
      cbn [cat kw word_ci s list_ascii_of_string]. unfold ci, lit.
      eapply leads_cat.
      { eapply leads_cat; [chr_ok|]. eapply leads_cat; [chr_ok|].
        eapply leads_cat; [chr_ok|]. chr_ok. }
      eapply leads_cat; [skip_ok|].
      eapply leads_cat; [chr_ok|]. exact L.
    + rewrite P1. cbn [c_pos c5]. rewrite !length_app. simpl. lia.
  - (* <x> *)
    set (c1 := mkCursor (Some "<"%char) (1 + c_pos cur)
                        (x ++ ">"%char :: rest) (c_groups cur)).
    destruct (leads_bracketed "fs" ">"%char x rest c1 eq_refl H eq_refl eq_refl)
      as (fin & L & R1 & P1 & G1).
    exists fin. split; [|repeat split; auto].
    + eapply leads_cat.
      { apply leads_opt_skip, fails_chr_at. now rewrite E. }
      eapply leads_cat; [apply leads_skip; now rewrite E|].
      apply leads_alt_r.
      { unfold shape_data. cbn [cat kw word_ci s list_ascii_of_string].
        apply fails_cat, fails_cat, fails_chr_at. now rewrite E. }
      apply leads_alt_l. unfold shape_fs. cbn [cat]. unfold lit.
      eapply leads_cat; [chr_ok|]. exact L.
    + rewrite P1. cbn [c_pos c1]. rewrite !length_app. simpl. lia.
  - (* (x) *)
    set (c1 := mkCursor (Some "("%char) (1 + c_pos cur)
                        (x ++ ")"%char :: rest) (c_groups cur)).
    destruct (leads_bracketed "dyn" ")"%char x rest c1 eq_refl H eq_refl eq_refl)
      as (fin & L & R1 & P1 & G1).
    exists fin. split; [|repeat split; auto].
    + eapply leads_cat.
      { apply leads_opt_skip, fails_chr_at. now rewrite E. }
      eapply leads_cat; [apply leads_skip; now rewrite E|].
      apply leads_alt_r.
      { unfold shape_data. cbn [cat kw word_ci s list_ascii_of_string].
        apply fails_cat, fails_cat, fails_chr_at. now rewrite E. }
      apply leads_alt_r.
      { unfold shape_fs. cbn [cat].
        apply fails_cat, fails_chr_at. now rewrite E. }
      apply leads_alt_l. unfold shape_dyn. cbn [cat]. unfold lit.
      eapply leads_cat; [chr_ok|]. exact L.
    + rewrite P1. cbn [c_pos c1]. rewrite !length_app. simpl. lia.
  - (* x *)
    destruct (leads_ident "plain" x rest cur E H Hs)
      as (fin & L & R1 & P1 & G1).
    exists fin. split; [|repeat split; auto].
    eapply leads_cat.
    { apply leads_opt_skip, fails_chr_at. rewrite E.
      apply stops_identifier; [exact H | exact word_not_at]. }
    eapply leads_cat.
    { apply leads_skip. rewrite E.
      apply stops_identifier; [exact H | exact word_not_space]. }
    apply leads_alt_r.
    { apply fails_lang. intros w t Ew Hl. apply lang_shape_data in Hl.
      rewrite E in Ew.
      assert (I : In "("%char (x ++ rest))
        by (rewrite Ew; apply in_or_app; now left).
      apply in_app_or in I as [I | I]; [|exact (Hp I)].
      exact (identifier_no_paren x H I). }
    apply leads_alt_r.
    { unfold shape_fs. cbn [cat]. apply fails_cat, fails_chr_at. rewrite E.
      apply stops_identifier; [exact H | exact word_not_lt]. }
    apply leads_alt_r.
    { unfold shape_dyn. cbn [cat]. apply fails_cat, fails_chr_at. rewrite E.
      apply stops_identifier; [exact H | exact word_not_paren]. }
    exact L.
Qed.

Lemma stops_space_spell sh x rest :
  identifier x -> stops is_space (spell sh x ++ rest).
Proof.
  intros H. destruct sh; try reflexivity.
  apply stops_identifier; [exact H | exact word_not_space].
Qed.

Lemma resolve_group sh x :
  identifier x ->
  canon_name (coalesce_group (mkMatch 0 0 [] [(group_of sh, x)]) shapes)
  = Some (lower x).
Proof.
  intros H. apply identifier_cons in H as (c & t & -> & _).
  destruct sh; reflexivity.
Qed.

Lemma coalesce_group_dict m m' names :
  m_groupdict m = m_groupdict m' ->
  coalesce_group m names = coalesce_group m' names.
Proof.
  intros E. induction names as [|n t IH]; simpl; [reflexivity|].
  now rewrite E, IH.
Qed.

Ltac chr_step := apply leads_chr; reflexivity.

Ltac skip_step := apply leads_star_none; reflexivity.

Lemma boundary_start prev pos c t g :
  after_nonword prev -> is_word c = true ->
  at_boundary (mkCursor prev pos (c :: t) g) = true.
Proof.
  intros P W. unfold at_boundary, word_before, word_after. simpl.
  rewrite W. destruct prev as [q|]; simpl in *; [now rewrite P | reflexivity].
Qed.

(** The fill clause of a query on a spelled identifier. *)
Lemma into_table_leads sh x prev pos rest g :
  after_nonword prev -> identifier x ->
  stops is_word rest -> ~ In "("%char rest ->
  exists fin,
    leads INTO_TABLE_ITAB_RE
          (mkCursor prev pos (s "INTO TABLE " ++ spell sh x ++ rest) g) fin
    /\ c_groups fin = (group_of sh, x) :: g
    /\ c_pos fin = pos + 11 + length (spell sh x)
    /\ c_rest fin = rest.
Proof.
  intros Hb H Hs Hp. cbn [s list_ascii_of_string app].
  set (c11 := mkCursor (Some " "%char) (11 + pos) (spell sh x ++ rest) g).
  destruct (token_leads sh x rest c11 eq_refl H Hs Hp)
    as (fin & L & R1 & P1 & G).
  exists fin. split; [|split; [exact G | split; [|exact R1]]].
  - unfold INTO_TABLE_ITAB_RE, spaces1, plus.
    cbn [cat kw word_ci s list_ascii_of_string]. unfold ci.
    eapply leads_cat; [now apply leads_wordb, boundary_start|].
    eapply leads_cat.
    { do 3 (eapply leads_cat; [chr_step|]). chr_step. }
    eapply leads_cat; [eapply leads_cat; [chr_step | skip_step]|].
    eapply leads_cat.
    { apply leads_alt_l. eapply leads_cat.
      - apply leads_opt_skip. now apply fails_cat, fails_cat, fails_chr.
      - do 4 (eapply leads_cat; [chr_step|]). chr_step. }
    eapply leads_cat; [|exact L].
    eapply leads_cat; [chr_step|]. apply leads_star_none.
    now apply stops_space_spell.
  - rewrite P1. cbn [c_pos c11]. lia.
Qed.

(** The deduplication statement on a spelled identifier. *)
Lemma delete_dup_leads sh x prev pos g :
  after_nonword prev -> identifier x ->
  exists fin,
    leads STMT_DELETE_DUP_RE
          (mkCursor prev pos
             (s "DELETE ADJACENT DUPLICATES FROM " ++ spell sh x ++ s ".") g)
          fin
    /\ c_groups fin = (group_of sh, x) :: g
    /\ c_pos fin
       = pos + length (s "DELETE ADJACENT DUPLICATES FROM "
                         ++ spell sh x ++ s ".").
Proof.
  intros Hb H. cbn [s list_ascii_of_string app].
  set (c32 := mkCursor (Some " "%char) (32 + pos) (spell sh x ++ ["."%char]) g).
  destruct (token_leads sh x ["."%char] c32) as (fin & L & R1 & P1 & G);
    [reflexivity | exact H | reflexivity | intros [[=]|[]] |].
  eexists. split; [|split].
  - unfold STMT_DELETE_DUP_RE, spaces1, plus.
    cbn [cat kw word_ci s list_ascii_of_string]. unfold ci, lit.
    eapply leads_cat; [now apply leads_wordb, boundary_start|].
    eapply leads_cat.
    { do 5 (eapply leads_cat; [chr_step|]). chr_step. }
    eapply leads_cat; [eapply leads_cat; [chr_step | skip_step]|].
    eapply leads_cat.
    { do 7 (eapply leads_cat; [chr_step|]). chr_step. }
    eapply leads_cat; [eapply leads_cat; [chr_step | skip_step]|].
    eapply leads_cat.
    { do 9 (eapply leads_cat; [chr_step|]). chr_step. }
    eapply leads_cat; [eapply leads_cat; [chr_step | skip_step]|].
    eapply leads_cat.
    { do 3 (eapply leads_cat; [chr_step|]). chr_step. }
    eapply leads_cat.
    { eapply leads_cat; [chr_step|]. apply leads_star_none.
      now apply stops_space_spell. }
    eapply leads_cat; [exact L|].
    eapply leads_cat.
    { apply leads_skip. now rewrite R1. }
    apply leads_chr_at; [exact R1 | reflexivity].
  - exact G.
  - cbn [c_pos]. rewrite P1. cbn [c_pos c32 length].
    rewrite length_app. simpl. lia.
Qed.

Lemma scan_from_skip_all r :
  0 < min_len r ->
  forall rest prev pos, scan_from r prev pos rest (length rest) = [].
Proof.
  intros Hr. induction rest as [|c t IH]; intros prev pos; simpl.
  - destruct (try_at r false _) as [m|] eqn:E; [|reflexivity].
    apply try_at_match in E as (A & B & C & _). simpl in C. lia.
  - apply IH.
Qed.

(** A match that takes the whole text is the only one. *)
Lemma finditer_whole r text m :
  0 < min_len r ->
  try_at r false (mkCursor None 0 text []) = Some m ->
  m_end m = length text ->
  finditer r text = [m].
Proof.
  intros Hr E L. unfold finditer.
  pose proof (try_at_match _ _ _ _ _ _ _ E) as (A & B & _).
  destruct text as [|c t]; simpl in *; [lia|].
  rewrite E. destruct (m_end m =? 0) eqn:Q; [apply Nat.eqb_eq in Q; lia|].
  f_equal. rewrite L. replace (S (length t) - 1) with (length t) by lia.
  now apply scan_from_skip_all.
Qed.

Lemma search_from_hit r prev pos rest m :
  try_at r false (mkCursor prev pos rest []) = Some m ->
  search_from r prev pos rest = Some m.
Proof. intros H. destruct rest; simpl; now rewrite H. Qed.

(* ------------------------------------------------------------------ *)
(** ** A query and a deduplication statement on one identifier *)

Lemma search_from_miss r prev pos c t :
  try_at r false (mkCursor prev pos (c :: t) []) = None ->
  search_from r prev pos (c :: t) = search_from r (Some c) (S pos) t.
Proof. intros H. simpl. now rewrite H. Qed.

Lemma scan_from_miss r prev pos c t :
  try_at r false (mkCursor prev pos (c :: t) []) = None ->
  scan_from r prev pos (c :: t) 0 = scan_from r (Some c) (S pos) t 0.
Proof. intros H. simpl. now rewrite H. Qed.

Lemma try_at_fails r ma cur : fails r cur -> try_at r ma cur = None.
Proof. intros H. apply H. Qed.

(** A pattern whose every match holds a character of some kind finds
    nothing in a text with no character of that kind. *)
Lemma search_from_barren r (kind : ascii -> bool) rest :
  (forall w, lang r w -> exists c, In c w /\ kind c = true) ->
  Forall (fun c => kind c = false) rest ->
  forall prev pos, search_from r prev pos rest = None.
Proof.
  intros Hr. induction rest as [|c t IH]; intros F prev pos.
  - simpl. rewrite try_at_fails; [reflexivity|].
    apply fails_lang. intros w t' E Hl. simpl in E.
    destruct w; [|discriminate]. apply Hr in Hl as (c & [] & _).
  - inversion F as [|? ? Fc Ft]; subst.
    rewrite search_from_miss; [now apply IH|].
    apply try_at_fails, fails_lang. intros w t' E Hl. simpl in E.
    apply Hr in Hl as (q & Iq & Kq).
    assert (Iq' : In q (c :: t)) by (rewrite E; apply in_or_app; now left).
    rewrite Forall_forall in F. rewrite (F q Iq') in Kq. discriminate.
Qed.

Lemma lang_distinct_space w :
  lang SELECT_DISTINCT_RE w -> exists c, In c w /\ is_space c = true.
Proof.
  unfold SELECT_DISTINCT_RE, spaces1, plus. cbn [cat lang].
  intros (w1 & w2 & -> & _ & w3 & w4 & -> & _ & w5 & w6 & -> & _
          & w7 & w8 & -> & (a & b & -> & (c & -> & Hc) & _) & _).
  exists c. split; [|exact Hc]. rewrite !in_app_iff. simpl. auto 10.
Qed.

Lemma spell_no_space sh x :
  identifier x -> Forall (fun c => is_space c = false) (spell sh x).
Proof.
  intros [_ F].
  assert (Fx : Forall (fun c => is_space c = false) x).
  { eapply Forall_impl; [|exact F]. exact word_not_space. }
  destruct sh; unfold spell; cbn [s list_ascii_of_string];
    repeat (apply Forall_app; split); auto; repeat constructor.
Qed.

Lemma spell_not_dot sh x :
  identifier x -> Forall (fun c => not_dot c = true) (spell sh x).
Proof.
  intros [_ F].
  assert (Fx : Forall (fun c => not_dot c = true) x).
  { eapply Forall_impl; [|exact F]. intros c W. unfold not_dot.
    destruct (Ascii.eqb c ".") eqn:Q; [|reflexivity].
    apply Ascii.eqb_eq in Q. now apply word_char in W. }
  destruct sh; unfold spell; cbn [s list_ascii_of_string];
    repeat (apply Forall_app; split); auto; repeat constructor.
Qed.

(** The query statement, found at the start of a text. *)
Lemma select_first sh x rest :
  identifier x ->
  try_at STMT_SELECT_RE false (mkCursor None 0 (query_on sh x ++ rest) [])
  = Some (mkMatch 0 (length (query_on sh x)) (query_on sh x) []).
Proof.
  intros H.
  assert (Et : query_on sh x ++ rest
               = s "SELECT" ++ (s " * FROM t INTO TABLE " ++ spell sh x)
                   ++ "."%char :: rest).
  { unfold query_on. rewrite <- !app_assoc. reflexivity. }
  assert (L : leads STMT_SELECT_RE (mkCursor None 0 (query_on sh x ++ rest) [])
                (mkCursor (Some "."%char) (length (query_on sh x)) rest [])).
  { rewrite Et. cbn [s list_ascii_of_string app].
    unfold STMT_SELECT_RE. cbn [cat kw word_ci s list_ascii_of_string].
    unfold ci, lit.
    eapply leads_cat; [now apply leads_wordb|].
    eapply leads_cat. { do 5 (eapply leads_cat; [chr_step|]). chr_step. }
    eapply leads_cat; [now apply leads_wordb|].
    eapply leads_cat.
    { apply (leads_star not_dot
               (" "%char :: "*"%char :: s " FROM t INTO TABLE " ++ spell sh x)).
      - cbn [s list_ascii_of_string app]. repeat constructor.
        now apply spell_not_dot.
      - reflexivity. }
    eapply leads_eq; [chr_ok|]. unfold passed. cbn [c_pos c_groups].
    f_equal. unfold query_on. rewrite !length_app. simpl. lia. }
  rewrite (try_at_leads _ false _ _ _ _ _ L eq_refl). cbn [c_pos c_groups].
  do 2 f_equal. rewrite Nat.sub_0_r, firstn_app, firstn_all, Nat.sub_diag.
  cbn [firstn]. apply app_nil_r.
Qed.

Lemma search_into_query sh x :
  identifier x ->
  exists m, search INTO_TABLE_ITAB_RE (query_on sh x) = Some m
            /\ m_groupdict m = [(group_of sh, x)].
Proof.
  intros H. unfold search, query_on. cbn [s list_ascii_of_string app].
  do 16 (rewrite search_from_miss by reflexivity).
  destruct (into_table_leads sh x (Some " "%char) 16 ["."%char] [])
    as (fin & L & G & _); [reflexivity | exact H | reflexivity | |].
  { intros [[=]|[]]. }
  eexists. split.
  - apply search_from_hit. exact (try_at_leads _ false _ _ _ _ _ L eq_refl).
  - exact G.
Qed.

Lemma search_distinct_query sh x :
  identifier x -> search SELECT_DISTINCT_RE (query_on sh x) = None.
Proof.
  intros H. unfold search, query_on. cbn [s list_ascii_of_string app].
  do 27 (rewrite search_from_miss by reflexivity).
  apply (search_from_barren _ is_space); [exact lang_distinct_space|].
  apply Forall_app. split; [now apply spell_no_space | repeat constructor].
Qed.

(** The query statement is a candidate on the lower-case identifier,
    without the distinct flag. *)
Lemma select_of_query sh x a b g :
  identifier x ->
  select_of (mkMatch a b (query_on sh x) g)
  = [mkSelect (lower x) a b false (query_on sh x)].
Proof.
  intros H. unfold select_of, select_step. cbn [m_group0 m_start m_end].
  destruct (search_into_query sh x H) as (m & -> & G).
  assert (C : canon_name (coalesce_group m shapes) = Some (lower x)).
  { rewrite <- (resolve_group sh x H). f_equal.
    apply coalesce_group_dict. exact G. }
  rewrite C, (search_distinct_query sh x H).
  apply identifier_cons in H as (c & t & -> & _). reflexivity.
Qed.

Lemma is_word_lower c : is_word (lower_char c) = is_word c.
Proof. destruct c as [[] [] [] [] [] [] [] []]; reflexivity. Qed.

Lemma lang_ci_word l w :
  is_word l = true -> lang (ci l) w -> Forall (fun c => is_word c = true) w.
Proof.
  intros W (c & -> & E). apply Ascii.eqb_eq in E.
  constructor; [|constructor].
  now rewrite <- is_word_lower, E, is_word_lower.
Qed.

Lemma lang_word_ci k : forall w,
  Forall (fun c => is_word c = true) k -> lang (word_ci k) w ->
  Forall (fun c => is_word c = true) w.
Proof.
  induction k as [|l t IH]; intros w F H.
  - simpl in H. subst. constructor.
  - inversion F as [|? ? Fl Ft]; subst. destruct t as [|l' t'].
    + now apply (lang_ci_word l).
    + cbn [word_ci lang] in H. destruct H as (w1 & w2 & -> & H1 & H2).
      apply Forall_app. split; [now apply (lang_ci_word l) | now apply IH].
Qed.

(** Every match of the deduplication pattern starts with word characters
    and then a space. *)
Lemma lang_delete_head w :
  lang STMT_DELETE_DUP_RE w ->
  exists a b c, w = a ++ b :: c
                /\ Forall (fun c => is_word c = true) a /\ is_space b = true.
Proof.
  unfold STMT_DELETE_DUP_RE, spaces1, plus. cbn [cat lang].
  intros (w1 & w2 & -> & -> & w3 & w4 & -> & Hk
          & w5 & w6 & -> & (a & b & -> & (c & -> & Hc) & _) & _).
  exists w3, c, (b ++ w6). split; [|split; [|exact Hc]].
  - reflexivity.
  - apply (lang_word_ci (s "DELETE")); [repeat constructor | exact Hk].
Qed.

(** Word characters and then a space do not fit on a run of word
    characters closed by a character that is neither. *)
Lemma no_space_in_word_run x1 : forall a b c q tail t,
  Forall (fun c => is_word c = true) x1 ->
  is_word q = false -> is_space q = false ->
  Forall (fun c => is_word c = true) a -> is_space b = true ->
  x1 ++ q :: tail = (a ++ b :: c) ++ t -> False.
Proof.
  induction x1 as [|c1 x1 IH]; intros a b c q tail t Fx Wq Sq Fa Sb E.
  - destruct a as [|a0 a]; simpl in E; injection E as <- _.
    + congruence.
    + inversion Fa; subst. congruence.
  - inversion Fx as [|? ? W1 Fx']; subst.
    destruct a as [|a0 a]; simpl in E; injection E as <- E.
    + apply word_not_space in W1. congruence.
    + inversion Fa; subst. eapply IH; eauto.
Qed.

(** The deduplication pattern finds nothing on an identifier closed by a
    bracket or a period. *)
Lemma delete_scan_word_run x1 : forall q tail prev pos,
  Forall (fun c => is_word c = true) x1 ->
  is_word q = false -> is_space q = false ->
  scan_from STMT_DELETE_DUP_RE prev pos (x1 ++ q :: tail) 0
  = scan_from STMT_DELETE_DUP_RE (prev_after prev x1) (pos + length x1)
              (q :: tail) 0.
Proof.
  induction x1 as [|c1 x1 IH]; intros q tail prev pos Fx Wq Sq.
  - simpl. now rewrite Nat.add_0_r.
  - inversion Fx as [|? ? W1 Fx']; subst.
    cbn [app]. rewrite scan_from_miss.
    + rewrite IH by assumption. cbn [prev_after length]. f_equal. lia.
    + apply try_at_fails, fails_lang. intros w t E Hl. cbn [c_rest] in E.
      apply lang_delete_head in Hl as (a & b & c & -> & Fa & Sb).
      exact (no_space_in_word_run (c1 :: x1) a b c q tail t Fx Wq Sq Fa Sb E).
Qed.

(** A match that takes the rest of the text is the last one. *)
Lemma scan_from_whole r prev pos text m :
  0 < min_len r ->
  try_at r false (mkCursor prev pos text []) = Some m ->
  m_end m = pos + length text ->
  scan_from r prev pos text 0 = [m].
Proof.
  intros Hr E L.
  pose proof (try_at_match _ _ _ _ _ _ _ E) as (A & B & _).
  destruct text as [|c t]; simpl in *; [lia|].
  rewrite E. destruct (m_end m =? pos) eqn:Q; [apply Nat.eqb_eq in Q; lia|].
  f_equal. rewrite L. replace (pos + S (length t) - S pos) with (length t) by lia.
  now apply scan_from_skip_all.
Qed.

Lemma fails_after_wordb b cur : fails b cur -> fails (Cat WordB b) cur.
Proof.
  intros H R k. simpl. destruct (at_boundary cur); [apply H | reflexivity].
Qed.

(** The deduplication pattern does not start on a character other than
    the letter D. *)
Lemma delete_miss_head ma prev pos c t g :
  Ascii.eqb (lower_char c) "d" = false ->
  try_at STMT_DELETE_DUP_RE ma (mkCursor prev pos (c :: t) g) = None.
Proof.
  intros H. apply try_at_fails. unfold STMT_DELETE_DUP_RE.
  cbn [cat kw word_ci s list_ascii_of_string].
  apply fails_after_wordb, fails_cat, fails_cat, fails_chr. exact H.
Qed.

Ltac len :=
  repeat first [rewrite length_app | progress cbn [length]]; lia.

Ltac delete_miss :=
  rewrite scan_from_miss by (apply delete_miss_head; reflexivity).

(** In the text of a query and a deduplication statement, the
    deduplication pattern finds the second statement and nothing else. *)
Lemma deletes_pair_text sh1 x sh2 y :
  identifier x -> identifier y ->
  exists d,
    finditer STMT_DELETE_DUP_RE (pair_text sh1 x sh2 y) = [d]
    /\ m_start d = length (query_on sh1 x) + 1
    /\ m_end d = length (pair_text sh1 x sh2 y)
    /\ m_groupdict d = [(group_of sh2, y)].
Proof.
  intros Hx Hy.
  assert (T : forall pos,
             exists d,
               scan_from STMT_DELETE_DUP_RE (Some nl) pos (dedup_on sh2 y) 0
               = [d]
               /\ m_start d = pos
               /\ m_end d = pos + length (dedup_on sh2 y)
               /\ m_groupdict d = [(group_of sh2, y)]).
  { intros pos.
    destruct (delete_dup_leads sh2 y (Some nl) pos [] eq_refl Hy)
      as (fin & L & G & P).
    pose proof (try_at_leads _ false _ _ _ _ _ L eq_refl) as E.
    eexists. split; [|split; [|split]].
    - apply scan_from_whole; [rewrite min_len_delete; lia | exact E | exact P].
    - reflexivity.
    - exact P.
    - exact G. }
  assert (Lq : length (query_on sh1 x) = 28 + length (spell sh1 x))
    by (unfold query_on; rewrite !length_app; simpl; lia).
  assert (Lt : length (pair_text sh1 x sh2 y)
               = 29 + length (spell sh1 x) + length (dedup_on sh2 y))
    by (unfold pair_text; rewrite !length_app, Lq; simpl; lia).
  rewrite Lq, Lt. clear Lq Lt.
  destruct Hx as [Nx Fx]. unfold finditer, pair_text, query_on.
  destruct sh1; unfold spell; repeat rewrite <- app_assoc;
    cbn [s list_ascii_of_string app]; do 27 delete_miss.
  - rewrite scan_from_miss by reflexivity. do 4 delete_miss.
    rewrite delete_scan_word_run by auto.
    do 3 delete_miss.
    destruct (T (S (S (S (32 + length x))))) as (d & E & A & B & G).
    exists d. repeat split; [exact E | | | exact G];
      rewrite ?B; len.
  - do 1 delete_miss. rewrite delete_scan_word_run by auto.
    do 3 delete_miss.
    destruct (T (S (S (S (28 + length x))))) as (d & E & A & B & G).
    exists d. repeat split; [exact E | | | exact G];
      rewrite ?B; len.
  - do 1 delete_miss. rewrite delete_scan_word_run by auto.
    do 3 delete_miss.
    destruct (T (S (S (S (28 + length x))))) as (d & E & A & B & G).
    exists d. repeat split; [exact E | | | exact G];
      rewrite ?B; len.
  - rewrite delete_scan_word_run by auto.
    do 2 delete_miss.
    destruct (T (S (S (27 + length x)))) as (d & E & A & B & G).
    exists d. repeat split; [exact E | | | exact G];
      rewrite ?B; len.
Qed.

Lemma finditer_first r text m :
  try_at r false (mkCursor None 0 text []) = Some m -> 0 < m_end m ->
  exists rest, finditer r text = m :: rest /\ chained r text (m_end m) rest.
Proof.
  intros E L. pose proof (finditer_chained r text) as H.
  unfold finditer in *. destruct text as [|c t]; simpl in *; rewrite E in *;
    destruct (m_end m =? 0) eqn:Q;
    try (apply Nat.eqb_eq in Q; lia);
    eexists; (split; [reflexivity | apply H]).
Qed.

(** The candidates of the text: the query of line 1, and nothing else that
    ends before line 2 starts. *)
Lemma selects_pair_text sh1 x sh2 y :
  identifier x ->
  exists others,
    collect_selects (pair_text sh1 x sh2 y)
    = mkSelect (lower x) 0 (length (query_on sh1 x)) false (query_on sh1 x)
        :: others
    /\ Forall (fun c => length (query_on sh1 x) + 1 <= end_ c) others.
Proof.
  intros H. rewrite collect_selects_flat. unfold pair_text.
  pose proof (select_first sh1 x ([nl] ++ dedup_on sh2 y) H) as E.
  apply finditer_first in E as (rest & -> & C);
    [|unfold query_on; rewrite length_app; simpl; lia].
  cbn [m_end] in C. simpl flat_map.
  rewrite (select_of_query sh1 x _ _ _ H).
  eexists. split; [reflexivity|].
  apply Forall_flat_map. apply chained_Forall in C.
  eapply Forall_impl; [|exact C]. intros m [A (B & _)].
  change (min_len STMT_SELECT_RE) with 7 in B.
  destruct (select_of_cases m) as [-> | (c & -> & _ & Ec & _)];
    constructor; [lia | constructor].
Qed.

Lemma fold_prior_ineligible t d_start l : forall acc,
  Forall (fun c => d_start <= end_ c) l ->
  fold_left (prior_step t d_start) l acc = acc.
Proof.
  induction l as [|c l IH]; intros acc F; [reflexivity|].
  inversion F as [|? ? Fc Fl]; subst. simpl. rewrite IH by exact Fl.
  destruct (prior_step_cases t d_start acc c) as [(_ & L & _) | (_ & E)];
    [lia | exact E].
Qed.

(** A query on an identifier and a deduplication statement on an
    identifier with the same lower-case form, each in any of the four
    shapes, are paired: the scan returns one finding, on the lower-case
    identifier, anchored to the query. *)
Lemma pairing_any_spelling (unit : Unit) sh1 x sh2 y :
  code unit = Some (pair_text sh1 x sh2 y) ->
  identifier x -> identifier y -> lower x = lower y ->
  findings (scan_unit unit)
  = Some [build_finding_for_pair unit (pair_text sh1 x sh2 y)
            (base_start_of unit) (lower x) 0 (length (query_on sh1 x))
            (length (query_on sh1 x) + 1) (length (pair_text sh1 x sh2 y))].
Proof.
  intros Hc Hx Hy E. rewrite scan_unit_findings.
  assert (Hs : src_of unit = pair_text sh1 x sh2 y)
    by (unfold src_of; now rewrite Hc).
  unfold findings_for. rewrite Hs.
  destruct (deletes_pair_text sh1 x sh2 y Hx Hy) as (d & -> & A & B & G).
  destruct (selects_pair_text sh1 x sh2 y Hx) as (others & -> & F).
  remember (length (query_on sh1 x)) as e1 eqn:He1. clear He1.
  cbn [flat_map]. rewrite app_nil_r. unfold delete_step.
  assert (C : canon_name (coalesce_group d shapes) = Some (lower x)).
  { rewrite E, <- (resolve_group sh2 y Hy). f_equal.
    apply coalesce_group_dict. exact G. }
  rewrite C.
  pose proof (identifier_cons x Hx) as (c & t & Ex & _).
  destruct (lower x) as [|c' t'] eqn:Lx; [rewrite Ex in Lx; discriminate|].
  unfold find_prior. cbn [fold_left]. unfold prior_step at 2.
  cbn [itab end_]. rewrite (proj2 (str_eqb_eq _ _) eq_refl), A.
  replace (e1 <? e1 + 1) with true by (symmetry; apply Nat.ltb_lt; lia).
  cbn [andb]. rewrite fold_prior_ineligible by exact F.
  cbn [has_distinct start end_]. now rewrite B.
Qed.

(* ------------------------------------------------------------------ *)
(** ** Target resolution is the same for every spelling *)

Lemma lower_char_idem c : lower_char (lower_char c) = lower_char c.
Proof. destruct c as [[] [] [] [] [] [] [] []]; reflexivity. Qed.

Lemma lower_idem x : lower (lower x) = lower x.
Proof.
  unfold lower. rewrite map_map. apply map_ext. exact lower_char_idem.
Qed.

(** Two identifiers with the same lower-case form, each spelled in any of
    the four shapes: both statements are matched, both resolve to that
    form, and the two statements are paired. *)
Lemma resolution_same_lower (x y : str) (sh1 sh2 : shape) :
  identifier x -> identifier y -> lower x = lower y ->
  (exists m d,
      search INTO_TABLE_ITAB_RE (s "INTO TABLE " ++ spell sh1 x) = Some m
      /\ finditer STMT_DELETE_DUP_RE (dedup_on sh2 y) = [d]
      /\ canon_name (coalesce_group m shapes) = Some (lower x)
      /\ d_target d = Some (lower x))
  /\ forall unit,
       code unit = Some (pair_text sh1 x sh2 y) ->
       findings (scan_unit unit)
       = Some [build_finding_for_pair unit (pair_text sh1 x sh2 y)
                 (base_start_of unit) (lower x) 0 (length (query_on sh1 x))
                 (length (query_on sh1 x) + 1)
                 (length (pair_text sh1 x sh2 y))].
Proof.
  intros Hx Hy E. split.
  - destruct (into_table_leads sh1 x None 0 [] [] I Hx I (fun f => f))
      as (f1 & L1 & G1 & _).
    rewrite app_nil_r in L1.
    destruct (delete_dup_leads sh2 y None 0 [] I Hy) as (f2 & L2 & G2 & P2).
    pose proof (try_at_leads _ false _ _ _ _ _ L1 eq_refl) as T1.
    pose proof (try_at_leads _ false _ _ _ _ _ L2 eq_refl) as T2.
    eexists. eexists. split; [|split; [|split]].
    + apply search_from_hit. exact T1.
    + apply finditer_whole; [rewrite min_len_delete; lia | exact T2 | exact P2].
    + rewrite <- (resolve_group sh1 x Hx).
      f_equal. apply coalesce_group_dict. exact G1.
    + unfold d_target. rewrite E, <- (resolve_group sh2 y Hy).
      f_equal. apply coalesce_group_dict. exact G2.
  - intros unit Hc. now apply pairing_any_spelling.
Qed.

(** The upper-case form of a character other than the sharp s is one
    character, and [str.lower] takes it to the lower-case form of the
    character. *)
Lemma upper_char_lower c u :
  upper_char c = Some u -> c <> sharp_s -> lower u = [lower_char c].
Proof.
  intros E N.
  destruct c as [[] [] [] [] [] [] [] []];
    try (exfalso; apply N; reflexivity);
    vm_compute in E; try discriminate E; injection E as <-; reflexivity.
Qed.

Lemma upper_char_word c u :
  upper_char c = Some u -> is_word c = true ->
  u <> [] /\ Forall (fun a => is_word a = true) u.
Proof.
  intros E W.
  destruct c as [[] [] [] [] [] [] [] []];
    try discriminate W;
    vm_compute in E; try discriminate E; injection E as <-;
    (split; [discriminate | repeat constructor]).
Qed.

(** Away from the sharp s, every spelling of an identifier in another
    letter case has the lower-case form of the identifier. *)
Lemma recased_lower_eq x y :
  recased x y -> ~ In sharp_s x -> lower y = lower x.
Proof.
  induction 1 as [|c x y R IH|c x y R IH|c u x y U R IH]; intros N.
  - reflexivity.
  - simpl. f_equal. apply IH. intros I. apply N. now right.
  - simpl. rewrite lower_char_idem. f_equal.
    apply IH. intros I. apply N. now right.
  - unfold lower in *. rewrite map_app. cbn [map].
    change (map lower_char u) with (lower u).
    rewrite (upper_char_lower c u U).
    + cbn [app]. f_equal. apply IH. intros I. apply N. now right.
    + intros ->. apply N. now left.
Qed.

(** A spelling of an identifier in another letter case is an identifier. *)
Lemma recased_word x y :
  recased x y -> Forall (fun c => is_word c = true) x ->
  Forall (fun c => is_word c = true) y /\ (x <> [] -> y <> []).
Proof.
  induction 1 as [|c x y R IH|c x y R IH|c u x y U R IH]; intros F.
  - split; [constructor | congruence].
  - inversion F; subst. destruct (IH H2) as [Fy _].
    split; [now constructor | discriminate].
  - inversion F; subst. destruct (IH H2) as [Fy _].
    split; [|discriminate]. constructor; [|exact Fy].
    now rewrite is_word_lower.
  - inversion F; subst. destruct (IH H2) as [Fy _].
    destruct (upper_char_word c u U H1) as [Nu Fu].
    split; [now apply Forall_app|].
    intros _ E. apply app_eq_nil in E as [E _]. contradiction.
Qed.

Lemma recased_identifier x y : recased x y -> identifier x -> identifier y.
Proof.
  intros R [N F]. destruct (recased_word x y R F) as [Fy Ny].
  split; [now apply Ny | exact Fy].
Qed.

Lemma recased_sharp_s : recased sharp_s_name sharp_s_upper.
Proof.
  unfold sharp_s_name, sharp_s_upper. cbn [s list_ascii_of_string app].
  refine (recased_upper "s"%char ["S"%char] _ _ eq_refl _).
  refine (recased_upper "t"%char ["T"%char] _ _ eq_refl _).
  refine (recased_upper "r"%char ["R"%char] _ _ eq_refl _).
  refine (recased_upper "a"%char ["A"%char] _ _ eq_refl _).
  refine (recased_upper sharp_s (s "SS") _ _ eq_refl _).
  refine (recased_upper "e"%char ["E"%char] _ _ eq_refl _).
  exact recased_nil.
Qed.

(** The identifier with the sharp s and its upper-case spelling, each spelled
    plainly: the fill clause resolves to the identifier as it is, the
    deduplication statement to the seven letters in lower case, and the
    unit with the two statements gets no finding. *)
Lemma sharp_s_resolution :
  (exists m,
      search INTO_TABLE_ITAB_RE (s "INTO TABLE " ++ spell Plain sharp_s_name)
      = Some m
      /\ canon_name (coalesce_group m shapes) = Some sharp_s_name)
  /\ (exists d,
         finditer STMT_DELETE_DUP_RE (dedup_on Plain sharp_s_upper) = [d]
         /\ d_target d = Some (s "strasse"))
  /\ lower sharp_s_name = sharp_s_name
  /\ findings (scan_unit (header (pair_text Plain sharp_s_name
                                            Plain sharp_s_upper) 100))
     = Some [].
Proof.
  split; [|split; [|split]].
  - eexists. split; vm_compute; reflexivity.
  - eexists. split; vm_compute; reflexivity.
  - reflexivity.
  - vm_compute. reflexivity.
Qed.

(** C6, as stated, fails: the identifier with a sharp s and its spelling in
    upper case, STRASSE, are both identifiers, and with both spelled
    plainly the deduplication statement resolves to the seven letters in
    lower case, not to the lower-case form of the identifier, which keeps
    the sharp s. *)
Lemma any_case_resolution_fails :
  ~ (forall x y sh1 sh2,
        identifier x -> recased x y ->
        (exists m d,
            search INTO_TABLE_ITAB_RE (s "INTO TABLE " ++ spell sh1 x) = Some m
            /\ finditer STMT_DELETE_DUP_RE (dedup_on sh2 y) = [d]
            /\ canon_name (coalesce_group m shapes) = Some (lower x)
            /\ d_target d = Some (lower x))
        /\ forall unit,
             code unit = Some (pair_text sh1 x sh2 y) ->
             findings (scan_unit unit)
             = Some [build_finding_for_pair unit (pair_text sh1 x sh2 y)
                       (base_start_of unit) (lower x) 0
                       (length (query_on sh1 x))
                       (length (query_on sh1 x) + 1)
                       (length (pair_text sh1 x sh2 y))]).
Proof.
  intros H.
  assert (Hx : identifier sharp_s_name)
    by (split; [discriminate | repeat constructor]).
  destruct (H sharp_s_name sharp_s_upper Plain Plain Hx recased_sharp_s)
    as [_ F].
  specialize (F (header (pair_text Plain sharp_s_name Plain sharp_s_upper) 100)
                eq_refl).
  destruct sharp_s_resolution as (_ & _ & _ & E).
  rewrite E in F. discriminate F.
Qed.

(** C6.  An identifier and a spelling of it in another combination of
    upper and lower case, the identifier without a sharp s unless the
    spelling is the identifier itself, each spelled in any of the four
    shapes.  The spelling is an identifier with the same lower-case form.
    The fill clause of a query on the one and a deduplication statement on
    the other are matched by the patterns of the scanner, and both resolve
    to the same canonical target, that lower-case form.  So the two
    statements are paired: a unit with the query on line 1 and the
    deduplication statement on line 2 gets one finding, on the lower-case
    identifier, anchored to the query. *)
Theorem target_resolution (x y : str) (sh1 sh2 : shape) :
  identifier x -> recased x y -> x = y \/ ~ In sharp_s x ->
  identifier y /\ lower y = lower x
  /\ (exists m d,
         search INTO_TABLE_ITAB_RE (s "INTO TABLE " ++ spell sh1 x) = Some m
         /\ finditer STMT_DELETE_DUP_RE (dedup_on sh2 y) = [d]
         /\ canon_name (coalesce_group m shapes) = Some (lower x)
         /\ d_target d = Some (lower x))
  /\ forall unit,
       code unit = Some (pair_text sh1 x sh2 y) ->
       findings (scan_unit unit)
       = Some [build_finding_for_pair unit (pair_text sh1 x sh2 y)
                 (base_start_of unit) (lower x) 0 (length (query_on sh1 x))
                 (length (query_on sh1 x) + 1)
                 (length (pair_text sh1 x sh2 y))].
Proof.
  intros Hx R D.
  assert (Hy : identifier y) by exact (recased_identifier x y R Hx).
  assert (E : lower y = lower x).
  { destruct D as [<- | N]; [reflexivity | now apply recased_lower_eq]. }
  split; [exact Hy|]. split; [exact E|].
  apply resolution_same_lower; [exact Hx | exact Hy | now symmetry].
Qed.

Lemma target_resolution_witness :
  identifier (s "LT_TAB") /\ recased (s "LT_TAB") (s "lt_Tab")
  /\ ~ In sharp_s (s "LT_TAB")
  /\ exists m d,
       search INTO_TABLE_ITAB_RE (s "INTO TABLE " ++ spell InlineData (s "LT_TAB"))
       = Some m
       /\ finditer STMT_DELETE_DUP_RE (dedup_on FieldSymbol (s "lt_Tab")) = [d]
       /\ canon_name (coalesce_group m shapes) = Some (s "lt_tab")
       /\ d_target d = Some (s "lt_tab")
       /\ exists f,
            findings (scan_unit (header (pair_text InlineData (s "LT_TAB")
                                           FieldSymbol (s "lt_Tab")) 100))
            = Some [f].
Proof.
  assert (H1 : identifier (s "LT_TAB"))
    by (split; [discriminate | repeat constructor]).
  assert (H2 : recased (s "LT_TAB") (s "lt_Tab")).
  { cbn [s list_ascii_of_string].
    refine (recased_lower "L"%char _ _ _).
    refine (recased_lower "T"%char _ _ _).
    refine (recased_keep "_"%char _ _ _).
    refine (recased_keep "T"%char _ _ _).
    refine (recased_lower "A"%char _ _ _).
    refine (recased_lower "B"%char _ _ _).
    exact recased_nil. }
  assert (H3 : ~ In sharp_s (s "LT_TAB")).
  { intros J. cbn [s list_ascii_of_string] in J.
    repeat (destruct J as [J|J]; [discriminate J|]). exact J. }
  split; [exact H1|]. split; [exact H2|]. split; [exact H3|].
  destruct (target_resolution (s "LT_TAB") (s "lt_Tab") InlineData FieldSymbol
              H1 H2 (or_intror H3)) as (_ & _ & (m & d & A & B & C & D) & F).
  exists m, d. repeat split; try assumption.
  eexists. apply F. reflexivity.
Defined.

(* ================================================================== *)
(** * Further properties of the code *)

(* ------------------------------------------------------------------ *)
(** ** Every match is in the language of its pattern *)

Lemma star_run_sound {R} p (k : cursor -> option R) rest : forall prev pos g res,
  star_run p k prev pos rest g = Some res ->
  exists w cur', rest = w ++ c_rest cur'
                 /\ c_pos cur' = pos + length w
                 /\ Forall (fun c => p c = true) w /\ k cur' = Some res.
Proof.
  induction rest as [|c t IH]; intros prev pos g res H; simpl in H.
  - exists [], (mkCursor prev pos [] g). simpl. repeat split; auto.
  - destruct (p c) eqn:E.
    + destruct (star_run p k (Some c) (S pos) t g) as [r0|] eqn:F.
      * injection H as <-. apply IH in F as (w & cur' & A & P & B & C).
        exists (c :: w), cur'. simpl. rewrite <- A, P.
        repeat split; auto; lia.
      * exists [], (mkCursor prev pos (c :: t) g). simpl. repeat split; auto.
    + exists [], (mkCursor prev pos (c :: t) g). simpl. repeat split; auto.
Qed.

(** What the matcher returns comes from a continuation called after a word
    of the language of the pattern. *)
Lemma rmatch_sound {R} r : forall cur (k : cursor -> option R) res,
  rmatch r cur k = Some res ->
  exists w cur', c_rest cur = w ++ c_rest cur'
                 /\ c_pos cur' = c_pos cur + length w
                 /\ lang r w /\ k cur' = Some res.
Proof.
  induction r as [|p|a IHa b IHb|a IHa b IHb|a IHa|p| |n a IHa];
    intros cur k res H; simpl in H.
  - exists [], cur. simpl. repeat split; auto.
  - destruct (c_rest cur) as [|c t] eqn:E; [discriminate|].
    destruct (p c) eqn:P; [|discriminate].
    exists [c], (mkCursor (Some c) (S (c_pos cur)) t (c_groups cur)).
    simpl. repeat split; [lia | eauto | exact H].
  - apply IHa in H as (w1 & c1 & E1 & P1 & L1 & H).
    apply IHb in H as (w2 & c2 & E2 & P2 & L2 & H).
    exists (w1 ++ w2), c2. rewrite E1, E2, P2, P1, app_assoc, length_app.
    repeat split; [lia | | exact H]. simpl. eauto.
  - destruct (rmatch a cur k) as [x|] eqn:E.
    + injection H as <-. apply IHa in E as (w & c1 & E1 & P1 & L1 & E).
      exists w, c1. simpl. auto.
    + apply IHb in H as (w & c1 & E1 & P1 & L1 & H).
      exists w, c1. simpl. auto.
  - destruct (rmatch a cur k) as [x|] eqn:E.
    + injection H as <-. apply IHa in E as (w & c1 & E1 & P1 & L1 & E).
      exists w, c1. simpl. auto.
    + exists [], cur. simpl. repeat split; auto.
  - apply star_run_sound in H. exact H.
  - destruct (at_boundary cur); [|discriminate].
    exists [], cur. simpl. repeat split; auto.
  - apply IHa in H as (w & c1 & E1 & P1 & L1 & H).
    exists w, (capture n cur c1). simpl. auto.
Qed.

Lemma try_at_lang r ma cur m :
  try_at r ma cur = Some m -> lang r (m_group0 m).
Proof.
  unfold try_at. intros H.
  apply rmatch_sound in H as (w & fin & E & P & L & H).
  destruct (ma && (c_pos fin =? c_pos cur)); [discriminate|].
  injection H as <-. simpl. rewrite E, P.
  replace (c_pos cur + length w - c_pos cur) with (length w) by lia.
  now rewrite firstn_app, firstn_all, Nat.sub_diag, app_nil_r.
Qed.

Lemma search_from_lang r rest : forall prev pos m,
  search_from r prev pos rest = Some m -> lang r (m_group0 m).
Proof.
  induction rest as [|c t IH]; intros prev pos m H; simpl in H.
  - destruct (try_at r false _) as [m0|] eqn:E; [|discriminate].
    injection H as <-. exact (try_at_lang _ _ _ _ E).
  - destruct (try_at r false _) as [m0|] eqn:E.
    + injection H as <-. exact (try_at_lang _ _ _ _ E).
    + eapply IH. exact H.
Qed.

Lemma scan_from_lang r rest : forall prev pos skip,
  Forall (fun m => lang r (m_group0 m)) (scan_from r prev pos rest skip).
Proof.
  induction rest as [|c t IH]; intros prev pos skip.
  - destruct skip; simpl; [|constructor].
    destruct (try_at r false _) as [m|] eqn:E; [|constructor].
    apply try_at_lang in E.
    destruct (m_end m =? pos); [|repeat constructor; exact E].
    destruct (try_at r true _) as [m2|] eqn:E2; repeat constructor; auto.
    exact (try_at_lang _ _ _ _ E2).
  - destruct skip as [|k]; simpl; [|apply IH].
    destruct (try_at r false _) as [m|] eqn:E; [|apply IH].
    apply try_at_lang in E.
    destruct (m_end m =? pos); [|constructor; [exact E | apply IH]].
    destruct (try_at r true _) as [m2|] eqn:E2.
    + constructor; [exact E|]. constructor; [|apply IH].
      exact (try_at_lang _ _ _ _ E2).
    + constructor; [exact E | apply IH].
Qed.

Lemma finditer_lang r text :
  Forall (fun m => lang r (m_group0 m)) (finditer r text).
Proof. apply scan_from_lang. Qed.

Lemma lang_all_chars (P : ascii -> Prop) r : forall w,
  all_chars P r -> lang r w -> Forall P w.
Proof.
  induction r as [|p|a IHa b IHb|a IHa b IHb|a IHa|p| |n a IHa];
    intros w A L; simpl in *.
  - subst. constructor.
  - destruct L as (c & -> & Hc). constructor; [auto | constructor].
  - destruct L as (w1 & w2 & -> & L1 & L2). destruct A as [A1 A2].
    apply Forall_app. split; auto.
  - destruct A as [A1 A2]. destruct L; auto.
  - destruct L as [-> | L]; [constructor | auto].
  - eapply Forall_impl; [|exact L]. auto.
  - subst. constructor.
  - auto.
Qed.

Lemma lang_ends_with (P : ascii -> Prop) c r : forall w,
  ends_with P c r -> lang r w -> exists head, w = head ++ [c] /\ Forall P head.
Proof.
  induction r as [|p|a IHa b IHb|a IHa b IHb|a IHa|p| |n a IHa];
    intros w E L; simpl in E; try contradiction.
  - destruct L as (x & -> & Hx). apply E in Hx as ->. exists []. auto.
  - destruct E as [A E]. destruct L as (w1 & w2 & -> & L1 & L2).
    destruct (IHb w2 E L2) as (h & -> & Fh).
    exists (w1 ++ h). rewrite app_assoc. split; [reflexivity|].
    apply Forall_app. split; [|exact Fh]. now apply (lang_all_chars P a).
Qed.

Lemma lang_ci_lower l w : lang (ci l) w -> lower w = [lower_char l].
Proof. intros (c & -> & E). apply Ascii.eqb_eq in E. simpl. now rewrite E. Qed.

Lemma lang_word_ci_lower k : forall w,
  k <> [] -> lang (word_ci k) w -> lower w = lower k.
Proof.
  induction k as [|l t IH]; intros w N H; [congruence|].
  destruct t as [|l' t'].
  - now apply lang_ci_lower.
  - cbn [word_ci lang] in H. destruct H as (w1 & w2 & -> & H1 & H2).
    unfold lower in *. rewrite map_app. cbn [map].
    change (map lower_char w1) with (lower w1).
    rewrite (lang_ci_lower l w1 H1). simpl. f_equal.
    apply IH; [discriminate | exact H2].
Qed.

Lemma lang_starts_with_kw k r : forall w,
  k <> [] -> starts_with_kw k r -> lang r w ->
  exists kwd rest, w = kwd ++ rest /\ lower kwd = lower k.
Proof.
  induction r as [|p|a IHa b IHb|a IHa b IHb|a IHa|p| |n a IHa];
    intros w N S L; simpl in S; try contradiction.
  destruct L as (w1 & w2 & -> & L1 & L2).
  destruct a;
    try (rewrite S in L1; exists w1, w2; split;
         [reflexivity | now apply lang_word_ci_lower]).
  simpl in L1. subst. simpl. now apply IHb.
Qed.

Ltac not_period := intros c H ->; vm_compute in H; discriminate H.

Lemma select_ends_with :
  ends_with (fun c => c <> period) period STMT_SELECT_RE.
Proof.
  unfold STMT_SELECT_RE. cbn [cat ends_with all_chars kw word_ci s
                              list_ascii_of_string ci lit].
  repeat split; try not_period.
  intros x H. apply Ascii.eqb_eq in H. now subst.
Qed.

Lemma delete_ends_with :
  ends_with (fun c => c <> period) period STMT_DELETE_DUP_RE.
Proof.
  unfold STMT_DELETE_DUP_RE, TARGET_ITAB_TOKEN, shape_data, shape_fs,
    shape_dyn, shape_plain, spaces1, spaces0, ident, plus.
  cbn [cat ends_with all_chars kw word_ci s list_ascii_of_string ci lit].
  repeat split; try not_period.
  intros x H. apply Ascii.eqb_eq in H. now subst.
Qed.

Lemma in_slice (text : str) a b x : In x (slice text a b) -> In x text.
Proof.
  unfold slice. intros H.
  rewrite <- (firstn_skipn a text). apply in_or_app. right.
  rewrite <- (firstn_skipn (b - a) (skipn a text)). apply in_or_app. now left.
Qed.

Lemma lang_statement_of k r w :
  k <> [] -> ends_with (fun c => c <> period) period r ->
  starts_with_kw k r -> lang r w -> statement_of (lower k) w.
Proof.
  intros N E S L. split.
  - destruct (lang_ends_with _ _ _ _ E L) as (head & -> & F).
    exists head. split; [reflexivity|]. intros I.
    rewrite Forall_forall in F. now apply (F _ I).
  - exact (lang_starts_with_kw k r w N S L).
Qed.

Lemma finditer_statement_of k r text :
  k <> [] -> ends_with (fun c => c <> period) period r ->
  starts_with_kw k r ->
  Forall (fun m => statement_of (lower k) (slice text (m_start m) (m_end m)))
         (finditer r text).
Proof.
  intros N E S.
  pose proof (finditer_lang r text) as L.
  pose proof (finditer_in_text r text) as T.
  rewrite Forall_forall in *. intros m Hm.
  destruct (T m Hm) as (_ & _ & <-).
  apply (lang_statement_of k r); auto.
Qed.

(** X1.  Every query statement the scanner finds opens with the letters of
    SELECT in any case and runs to the first period after it: the period
    is its last character and its only one.  The same holds of every
    deduplication statement, with the letters of DELETE. *)
Theorem statements_run_to_first_period (text : str) :
  Forall (fun m => statement_of (s "select")
                     (slice text (m_start m) (m_end m)))
         (finditer STMT_SELECT_RE text)
  /\ Forall (fun m => statement_of (s "delete")
                        (slice text (m_start m) (m_end m)))
            (finditer STMT_DELETE_DUP_RE text).
Proof.
  split.
  - apply (finditer_statement_of (s "SELECT"));
      [discriminate | exact select_ends_with | reflexivity].
  - apply (finditer_statement_of (s "DELETE"));
      [discriminate | exact delete_ends_with | reflexivity].
Qed.

Lemma no_period_no_match k r text :
  k <> [] -> ends_with (fun c => c <> period) period r ->
  starts_with_kw k r -> ~ In period text -> finditer r text = [].
Proof.
  intros N E S H.
  pose proof (finditer_statement_of k r text N E S) as F.
  destruct (finditer r text) as [|m l]; [reflexivity|].
  inversion F as [|? ? ((head & Eh & _) & _) _]; subst.
  exfalso. apply H. apply (in_slice text (m_start m) (m_end m)).
  rewrite Eh. apply in_or_app. right. now left.
Qed.

(** X2.  A text with no period in it has no statement: no candidate is
    collected and the scan returns no finding. *)
Theorem no_period_no_findings (unit : Unit) :
  ~ In period (src_of unit) ->
  collect_selects (src_of unit) = []
  /\ finditer STMT_DELETE_DUP_RE (src_of unit) = []
  /\ findings (scan_unit unit) = Some [].
Proof.
  intros H.
  assert (D : finditer STMT_DELETE_DUP_RE (src_of unit) = []).
  { apply (no_period_no_match (s "DELETE"));
      [discriminate | exact delete_ends_with | reflexivity | exact H]. }
  split; [|split; [exact D|]].
  - rewrite collect_selects_flat.
    rewrite (no_period_no_match (s "SELECT"));
      [reflexivity | discriminate | exact select_ends_with | reflexivity
       | exact H].
  - now rewrite scan_unit_findings, D.
Qed.

Lemma no_period_no_findings_witness :
  ~ In period (src_of unterminated_unit)
  /\ findings (scan_unit unterminated_unit) = Some [].
Proof.
  assert (H : ~ In period (src_of unterminated_unit)).
  { vm_compute. intros I.
    repeat (destruct I as [I|I]; [discriminate I|]). exact I. }
  split; [exact H|]. exact (proj2 (proj2 (no_period_no_findings _ H))).
Defined.

(* ------------------------------------------------------------------ *)
(** ** The helpers *)

(** X3.  [coalesce_group] returns the text of the first group, in the order
    of the names, that took part in the match with a text that is not
    empty; it returns nothing exactly when no name has such a group. *)
Theorem coalesce_group_first (m : re_match) (names : list string) :
  match coalesce_group m names with
  | Some v =>
      v <> []
      /\ exists before n after,
           names = before ++ n :: after
           /\ groupdict_get (m_groupdict m) n = Some v
           /\ Forall (fun n' => falsy (groupdict_get (m_groupdict m) n'))
                     before
  | None => Forall (fun n => falsy (groupdict_get (m_groupdict m) n)) names
  end.
Proof.
  induction names as [|n t IH]; simpl; [constructor|].
  destruct (groupdict_get (m_groupdict m) n) as [[|c v]|] eqn:E.
  - destruct (coalesce_group m t) as [v|].
    + destruct IH as (N & b & n0 & a & -> & G & F). split; [exact N|].
      exists (n :: b), n0, a. repeat split; auto.
      constructor; [right; exact E | exact F].
    + constructor; [right; exact E | exact IH].
  - split; [discriminate|]. exists [], n, t. repeat split; auto.
  - destruct (coalesce_group m t) as [v|].
    + destruct IH as (N & b & n0 & a & -> & G & F). split; [exact N|].
      exists (n :: b), n0, a. repeat split; auto.
      constructor; [left; exact E | exact F].
    + constructor; [left; exact E | exact IH].
Qed.

Lemma canon_name_lower raw t : canon_name raw = Some t -> lower t = t.
Proof.
  destruct raw as [[|c x]|]; cbn [canon_name]; intros [=<-].
  apply (lower_idem (c :: x)).
Qed.

(* ------------------------------------------------------------------ *)
(** ** The list of candidates *)

Lemma select_of_inv m c :
  In c (select_of m) ->
  exists im,
    search INTO_TABLE_ITAB_RE (m_group0 m) = Some im
    /\ canon_name (coalesce_group im shapes) = Some (itab c)
    /\ stmt c = m_group0 m.
Proof.
  unfold select_of, select_step.
  destruct (search INTO_TABLE_ITAB_RE (m_group0 m)) as [im|];
    [|simpl; tauto].
  destruct (canon_name _) as [[|x t]|] eqn:E; simpl; try tauto.
  intros [<-|[]]. exists im. simpl. auto.
Qed.

(** X5.  The candidates are recorded in the order of the text and do not
    overlap.  Each one spans a query statement of the text that is not
    empty, keeps the text of that span, has a fill clause in it, has a
    target that is not empty and is in lower case, and has the distinct
    flag exactly when the modifier is found in its text. *)
Theorem candidates_invariant (src : str) :
  StronglySorted sel_before (collect_selects src)
  /\ Forall (fun c =>
               sel_in_text src c
               /\ statement_of (s "select") (stmt c)
               /\ search INTO_TABLE_ITAB_RE (stmt c) <> None
               /\ itab c <> [] /\ lower (itab c) = itab c
               /\ (has_distinct c = true
                   <-> search SELECT_DISTINCT_RE (stmt c) <> None))
            (collect_selects src).
Proof.
  split; [apply selects_sorted|].
  pose proof (selects_in_text src) as T.
  assert (Q : Forall (fun m => statement_of (s "select")
                                (slice src (m_start m) (m_end m)))
                     (finditer STMT_SELECT_RE src)).
  { apply (finditer_statement_of (s "SELECT"));
      [discriminate | exact select_ends_with | reflexivity]. }
  rewrite Forall_forall in *. intros c Hc.
  specialize (T c Hc). split; [exact T|].
  pose proof Hc as Hc'. apply in_selects_from in Hc' as (m & Hm & A & B & C & N & D).
  rewrite collect_selects_flat, in_flat_map in Hc.
  destruct Hc as (m' & Hm' & Hc).
  apply select_of_inv in Hc as (im & Si & Ci & St).
  split; [|split; [|split; [|split]]].
  - rewrite C. pose proof (finditer_in_text STMT_SELECT_RE src) as F.
    rewrite Forall_forall in F. destruct (F m Hm) as (_ & _ & ->).
    exact (Q m Hm).
  - rewrite St, Si. discriminate.
  - exact N.
  - exact (canon_name_lower _ _ Ci).
  - rewrite D, C. destruct (search SELECT_DISTINCT_RE (m_group0 m));
      split; congruence.
Qed.

(* ------------------------------------------------------------------ *)
(** ** The findings of a unit *)

Lemma findings_list_pairs unit :
  findings_list (scan_unit unit) = map (finding_of unit) (matched_pairs unit).
Proof. unfold findings_list. now rewrite scan_unit_pairs. Qed.

Lemma starts_with_app n b : starts_with n (n ++ b) = true.
Proof.
  induction n as [|c t IH]; [reflexivity|]. simpl.
  now rewrite Ascii.eqb_refl, IH.
Qed.

Lemma contains_prefix n h : starts_with n h = true -> contains n h = true.
Proof. intros H. destruct h; simpl; now rewrite H. Qed.

Lemma contains_app n a b : contains n (a ++ n ++ b) = true.
Proof.
  induction a as [|c t IH]; simpl.
  - apply contains_prefix, starts_with_app.
  - rewrite IH. apply orb_true_r.
Qed.

(** X6.  Every finding of a scanned unit carries the program, include,
    type and block name of the unit, the tag UseSelectDistinct and the
    severity error.  Its message is the fixed sentence on the target of a
    candidate of the unit that has no distinct flag, and its suggestion
    names that target. *)
Theorem finding_fields (unit : Unit) :
  Forall (fun f =>
            prog_name f = Some (pgm_name unit)
            /\ incl_name f = Some (inc_name unit)
            /\ types f = Some (type unit)
            /\ blockname f = name unit
            /\ issues_type f = Some (s "UseSelectDistinct")
            /\ severity f = Some (s "error")
            /\ exists c sg,
                 In c (collect_selects (src_of unit))
                 /\ has_distinct c = false
                 /\ message f
                    = Some (s "SELECT fills '" ++ itab c
                              ++ s "' followed by DELETE ADJACENT DUPLICATES. Prefer SELECT DISTINCT.")
                 /\ suggestion f = Some sg
                 /\ contains (itab c) sg = true)
         (findings_list (scan_unit unit)).
Proof.
  rewrite findings_list_pairs, Forall_forall. intros f Hf.
  apply in_map_iff in Hf as ([c d] & <- & Hp).
  apply matched_pairs_inv in Hp as (_ & Hnd & t & _ & (Hc & _) & _).
  repeat split. exists c. eexists.
  split; [exact Hc|]. split; [exact Hnd|]. split; [reflexivity|].
  split; [reflexivity|]. apply contains_app.
Qed.

Lemma count_nl_escape x : count_nl (escape_nl x) = 0.
Proof.
  induction x as [|c t IH]; [reflexivity|]. simpl.
  destruct (Ascii.eqb c nl) eqn:E; simpl; [exact IH|]. now rewrite E.
Qed.

Lemma length_escape x : length (escape_nl x) = length x + count_nl x.
Proof.
  induction x as [|c t IH]; [reflexivity|]. simpl.
  destruct (Ascii.eqb c nl); simpl; rewrite IH; lia.
Qed.

Lemma escape_nl_collides a b :
  escape_nl (a ++ nl :: b) = escape_nl (a ++ backslash :: "n"%char :: b).
Proof.
  induction a as [|c t IH]; [reflexivity|].
  cbn [app escape_nl]. now rewrite IH.
Qed.

(** X7.  Escaping takes every line break out of a text and makes it longer
    by one character for each; so the snippet of every finding is on one
    line.  It cannot be undone: a line break and a backslash followed by
    the letter n, at the same place of a text, give the same snippet. *)
Theorem snippet_on_one_line :
  (forall x, count_nl (escape_nl x) = 0
             /\ length (escape_nl x) = length x + count_nl x)
  /\ (forall unit,
         Forall (fun f => exists sn, snippet f = Some sn /\ count_nl sn = 0)
                (findings_list (scan_unit unit)))
  /\ (forall a b,
         escape_nl (a ++ nl :: b)
         = escape_nl (a ++ backslash :: "n"%char :: b)).
Proof.
  split; [|split; [|exact escape_nl_collides]].
  - intros x. split; [apply count_nl_escape | apply length_escape].
  - intros unit. rewrite findings_list_pairs, Forall_forall. intros f Hf.
    apply in_map_iff in Hf as (p & <- & _).
    eexists. split; [reflexivity | apply count_nl_escape].
Qed.

Lemma firstn_slice (text : str) a b :
  a <= b -> firstn b text = firstn a text ++ slice text a b.
Proof.
  intros H. unfold slice.
  rewrite <- (firstn_skipn a (firstn b text)) at 1.
  rewrite firstn_firstn, skipn_firstn_comm.
  now replace (Nat.min a b) with a by lia.
Qed.

(** X8.  The lines of every finding lie in the unit: with [n] line breaks
    in the text and the starting line [base] of the unit, the finding
    starts at [base + 1] or later, ends after it starts, and ends at
    [base + n + 2] or before. *)
Theorem finding_lines_in_unit (unit : Unit) :
  Forall (fun f =>
            exists a b,
              starting_line f = Some a /\ ending_line f = Some b
              /\ (base_start_of unit + 1 <= a)%Z /\ (a < b)%Z
              /\ (b <= base_start_of unit
                       + Z.of_nat (count_nl (src_of unit)) + 2)%Z)
         (findings_list (scan_unit unit)).
Proof.
  rewrite findings_list_pairs, Forall_forall. intros f Hf.
  apply in_map_iff in Hf as ([c d] & <- & Hp).
  apply matched_pair_span in Hp as (L1 & L2 & _).
  destruct (get_line_snippet_spec (src_of unit) (start c) (end_ c))
    as ((pre & post & T & _ & _ & A1 & A2 & _) & _); [lia | exact L2 |].
  cbn [finding_of build_finding_for_pair starting_line ending_line fst].
  eexists. eexists. split; [reflexivity|]. split; [reflexivity|].
  set (snip := get_line_snippet (src_of unit) (start c) (end_ c)) in *.
  assert (E : count_nl (slice (src_of unit) 0 (start c)) = count_nl pre).
  { unfold slice at 1. rewrite Nat.sub_0_r. cbn [skipn].
    rewrite (firstn_slice _ (length pre) (start c) A1), count_nl_app, A2.
    rewrite T at 1. rewrite firstn_app, firstn_all, Nat.sub_diag.
    cbn [firstn]. rewrite app_nil_r. lia. }
  assert (C : count_nl (src_of unit)
              = count_nl pre + count_nl snip + count_nl post).
  { rewrite T at 1. rewrite !count_nl_app. lia. }
  rewrite E, C. lia.
Qed.

(* ------------------------------------------------------------------ *)
(** ** What a scan depends on *)

Lemma matched_pairs_ext u u' :
  src_of u = src_of u' -> matched_pairs u = matched_pairs u'.
Proof. unfold matched_pairs. now intros ->. Qed.

(** The findings depend on the header, the starting line and the text
    only. *)
Lemma scan_unit_ext u u' :
  pgm_name u = pgm_name u' -> inc_name u = inc_name u' ->
  type u = type u' -> name u = name u' ->
  base_start_of u = base_start_of u' -> src_of u = src_of u' ->
  findings (scan_unit u) = findings (scan_unit u').
Proof.
  intros H1 H2 H3 H4 H5 H6.
  rewrite !scan_unit_pairs, (matched_pairs_ext u u' H6). f_equal.
  apply map_ext. intros p. unfold finding_of, build_finding_for_pair.
  now rewrite H1, H2, H3, H4, H5, H6.
Qed.

Lemma scan_unit_eta unit :
  scan_unit unit
  = mkUnit (pgm_name unit) (inc_name unit) (type unit) (name unit)
           (start_line unit) (end_line unit) (code unit)
           (findings (scan_unit unit)).
Proof. reflexivity. Qed.

(** X9.  Scanning a scanned unit changes nothing.  The findings that come
    in with a unit and its ending line have no effect on the findings of
    the scan; an absent starting line counts as 0 and an absent text as the
    empty text. *)
Theorem scan_idempotent (unit : Unit) :
  scan_unit (scan_unit unit) = scan_unit unit
  /\ (forall e fs,
         findings (scan_unit (with_incoming unit e fs))
         = findings (scan_unit unit))
  /\ findings (scan_unit (with_start_line unit None))
     = findings (scan_unit (with_start_line unit (Some 0%Z)))
  /\ (code unit = None ->
      findings (scan_unit unit)
      = findings (scan_unit (mkUnit (pgm_name unit) (inc_name unit)
                                    (type unit) (name unit) (start_line unit)
                                    (end_line unit) (Some []) (findings unit)))).
Proof.
  split; [|split; [|split]].
  - rewrite (scan_unit_eta (scan_unit unit)).
    rewrite (scan_unit_ext (scan_unit unit) unit) by reflexivity.
    reflexivity.
  - intros e fs. now apply scan_unit_ext.
  - now apply scan_unit_ext.
  - intros H. apply scan_unit_ext; try reflexivity.
    unfold src_of. now rewrite H.
Qed.

Lemma finding_of_shift unit k p :
  finding_of (with_start_line unit (Some (base_start_of unit + k)%Z)) p
  = shift_lines k (finding_of unit p).
Proof.
  unfold finding_of, build_finding_for_pair, shift_lines. simpl.
  change (src_of (with_start_line unit (Some (base_start_of unit + k)%Z)))
    with (src_of unit).
  change (base_start_of
            (with_start_line unit (Some (base_start_of unit + k)%Z)))
    with (base_start_of unit + k)%Z.
  f_equal; f_equal; lia.
Qed.

(** X10.  Moving the starting line of a unit by [k] moves the starting and
    ending lines of its findings by [k] and changes nothing else. *)
Theorem start_line_shifts (unit : Unit) (k : Z) :
  findings_list
    (scan_unit (with_start_line unit (Some (base_start_of unit + k)%Z)))
  = map (shift_lines k) (findings_list (scan_unit unit)).
Proof.
  rewrite !findings_list_pairs, map_map.
  rewrite (matched_pairs_ext _ unit) by reflexivity.
  apply map_ext. intros p. apply finding_of_shift.
Qed.

Lemma length_pair_of selects d : length (pair_of selects d) <= 1.
Proof.
  destruct (pair_of_cases selects d) as [-> | (c & ->)]; simpl; lia.
Qed.

(** X11.  A deduplication statement adds one finding at most: a unit has
    no more findings than deduplication statements, and no more matched
    pairs either. *)
Theorem findings_bounded (unit : Unit) :
  length (findings_list (scan_unit unit)) = length (matched_pairs unit)
  /\ length (matched_pairs unit)
     <= length (finditer STMT_DELETE_DUP_RE (src_of unit)).
Proof.
  split; [now rewrite findings_list_pairs, length_map|].
  unfold matched_pairs.
  induction (finditer STMT_DELETE_DUP_RE (src_of unit)) as [|d l IH];
    simpl; [lia|].
  rewrite length_app.
  pose proof (length_pair_of (collect_selects (src_of unit)) d). lia.
Qed.

(* ------------------------------------------------------------------ *)
(** ** Batches *)

Lemma scan_rule_array_filter units :
  scan_rule_array units = filter has_findings (map scan_unit units).
Proof.
  unfold scan_rule_array.
  now rewrite (fold_left_filter scan_unit has_findings).
Qed.

Lemma has_findings_scan_twice u :
  has_findings (scan_unit (scan_unit u)) = has_findings (scan_unit u).
Proof.
  unfold has_findings.
  now rewrite (scan_unit_ext (scan_unit u) u) by reflexivity.
Qed.

Lemma filter_scan_twice l :
  filter has_findings (map scan_unit (filter has_findings (map scan_unit l)))
  = filter has_findings (map scan_unit l).
Proof.
  induction l as [|u l IH]; [reflexivity|]. simpl.
  destruct (has_findings (scan_unit u)) eqn:E; [|exact IH].
  simpl. rewrite has_findings_scan_twice, E, IH. now f_equal.
Qed.

(** X12.  A batch scan works unit by unit: the scan of two batches put
    together is the two scans put together.  Every unit it returns is the
    scan of a unit of the batch and has a finding; it returns no more units
    than it was given, none for the empty batch; and the scan of what it
    returns is what it returns. *)
Theorem batch_unit_by_unit :
  (forall us vs,
      scan_rule_array (us ++ vs) = scan_rule_array us ++ scan_rule_array vs)
  /\ (forall us r,
         In r (scan_rule_array us)
         <-> exists u, In u us /\ r = scan_unit u
                       /\ findings_list r <> [])
  /\ (forall us, length (scan_rule_array us) <= length us)
  /\ scan_rule_array [] = []
  /\ (forall us, scan_rule_array (scan_rule_array us) = scan_rule_array us).
Proof.
  split; [|split; [|split; [|split]]].
  - intros us vs. now rewrite !scan_rule_array_filter, map_app, filter_app.
  - intros us r. rewrite scan_rule_array_filter, filter_In, in_map_iff.
    unfold has_findings, findings_list. split.
    + intros ((u & <- & Hu) & H). exists u. repeat split; auto.
      destruct (findings (scan_unit u)) as [[|f l]|]; congruence.
    + intros (u & Hu & -> & H). split; [eauto|].
      destruct (findings (scan_unit u)) as [[|f l]|]; congruence.
  - intros us. rewrite scan_rule_array_filter.
    rewrite <- (length_map scan_unit us). apply filter_length_le.
  - reflexivity.
  - intros us. rewrite !scan_rule_array_filter. apply filter_scan_twice.
Qed.

(* ------------------------------------------------------------------ *)
(** ** The snippet of any span *)

Lemma count_nl_firstn_le n (x : str) : count_nl (firstn n x) <= count_nl x.
Proof.
  rewrite <- (firstn_skipn n x) at 2. rewrite count_nl_app. lia.
Qed.

Lemma count_nl_skipn_le n (x : str) : count_nl (skipn n x) <= count_nl x.
Proof.
  rewrite <- (firstn_skipn n x) at 2. rewrite count_nl_app. lia.
Qed.

Lemma count_nl_middle a b : count_nl (a ++ nl :: b) <> 0.
Proof. rewrite count_nl_app. simpl. lia. Qed.

Lemma snippet_around text a b :
  a <= b -> b <= length text ->
  exists x y,
    get_line_snippet text a b = x ++ slice text a b ++ y
    /\ count_nl x = 0 /\ count_nl y = 0.
Proof.
  intros H1 H2. destruct (text_split text a b H1 H2) as (T & LA & LM).
  assert (LB : length text = b + length (skipn b text))
    by (rewrite length_skipn; lia).
  destruct (line_start_spec (firstn a text)) as (p & x & EA & Cx & Hp & Ls).
  destruct (line_end_spec (skipn b text) b) as (y & q & EB & Cy & Hq & Le).
  rewrite <- LB in Le.
  assert (G : get_line_snippet text a b
              = slice text (length p) (b + length y)).
  { unfold get_line_snippet, rfind_nl, find_nl. now rewrite Ls, Le. }
  exists x, y. rewrite G. clear G Ls Le LB.
  rewrite EA, EB in T. rewrite EA, length_app in LA.
  remember (slice text a b) as M. clear HeqM EA EB.
  split; [|split; assumption].
  rewrite T.
  replace ((p ++ x) ++ M ++ y ++ q) with (p ++ (x ++ M ++ y) ++ q)
    by (now rewrite <- !app_assoc).
  apply slice_mid; [reflexivity|]. rewrite !length_app. lia.
Qed.

Lemma snippet_of_one_line text a b :
  count_nl text = 0 -> get_line_snippet text a b = text.
Proof.
  intros H. unfold get_line_snippet, rfind_nl, find_nl.
  destruct (rfind_nl_aux_spec (firstn a text) 0 (-1)%Z)
    as [[-> _] | (x1 & x2 & E & _)].
  - destruct (find_nl_aux_spec (skipn b text) b)
      as [[-> _] | (y1 & y2 & E & _)].
    + simpl. unfold slice. rewrite Nat2Z.id, Nat.sub_0_r. simpl.
      apply firstn_all.
    + pose proof (count_nl_skipn_le b text) as L. rewrite E in L.
      pose proof (count_nl_middle y1 y2). lia.
  - pose proof (count_nl_firstn_le a text) as L. rewrite E in L.
    pose proof (count_nl_middle x1 x2). lia.
Qed.

(** X13.  The snippet of a span of the text holds the whole text of the
    span, with text before and after it that has no line break.  On a text
    with no line break the snippet is the whole text, whatever the span. *)
Theorem snippet_holds_span :
  (forall text a b,
      a <= b -> b <= length text ->
      exists x y,
        get_line_snippet text a b = x ++ slice text a b ++ y
        /\ count_nl x = 0 /\ count_nl y = 0)
  /\ (forall text a b, count_nl text = 0 -> get_line_snippet text a b = text).
Proof. split; [exact snippet_around | exact snippet_of_one_line]. Qed.

(* ------------------------------------------------------------------ *)
(** ** The fill clause opens with INTO *)

Lemma search_from_part r rest : forall prev pos m,
  search_from r prev pos rest = Some m ->
  exists pre post, rest = pre ++ m_group0 m ++ post.
Proof.
  induction rest as [|c t IH]; intros prev pos m H; simpl in H.
  - destruct (try_at r false _) as [m0|] eqn:E; [|discriminate].
    injection H as <-. apply try_at_match in E as (_ & _ & _ & ->).
    exists [], []. now destruct (m_end m0 - m_start m0).
  - destruct (try_at r false _) as [m0|] eqn:E.
    + injection H as <-. apply try_at_match in E as (_ & _ & _ & ->).
      exists [], (skipn (m_end m0 - m_start m0) (c :: t)).
      cbn [app]. symmetry. apply firstn_skipn.
    + apply IH in H as (pre & post & ->). now exists (c :: pre), post.
Qed.

(** X14.  Every fill clause the scanner finds opens with the letters of
    INTO, in any case, the appending form too; so the statement of every
    candidate has these letters in it, and a query that appends to a table
    with no INTO before the clause is no candidate. *)
Theorem fill_clause_opens_with_into :
  (forall text m,
      search INTO_TABLE_ITAB_RE text = Some m ->
      exists kwd rest, m_group0 m = kwd ++ rest /\ lower kwd = s "into")
  /\ (forall src c,
         In c (collect_selects src) ->
         exists pre kwd post,
           stmt c = pre ++ kwd ++ post /\ lower kwd = s "into")
  /\ collect_selects appending_stmt = [].
Proof.
  assert (A : forall text m,
             search INTO_TABLE_ITAB_RE text = Some m ->
             exists kwd rest, m_group0 m = kwd ++ rest /\ lower kwd = s "into").
  { intros text m H. apply search_from_lang in H.
    apply (lang_starts_with_kw (s "INTO") INTO_TABLE_ITAB_RE);
      [discriminate | reflexivity | exact H]. }
  split; [exact A|]. split; [|vm_compute; reflexivity].
  intros src c Hc. rewrite collect_selects_flat, in_flat_map in Hc.
  destruct Hc as (m & _ & Hc).
  apply select_of_inv in Hc as (im & Si & _ & ->).
  destruct (A _ _ Si) as (kwd & rest & E & L).
  apply search_from_part in Si as (pre & post & ->).
  exists pre, kwd, (rest ++ post). rewrite E, <- app_assoc. auto.
Qed.

(* ------------------------------------------------------------------ *)
(** ** Keywords in any case, whitespace of any length *)

Lemma space_not_word c : is_space c = true -> is_word c = false.
Proof. destruct c as [[] [] [] [] [] [] [] []]; vm_compute; congruence. Qed.

Lemma lower_eq_word : forall a k,
  lower a = lower k -> Forall (fun c => is_word c = true) k ->
  Forall (fun c => is_word c = true) a.
Proof.
  induction a as [|c a IH]; intros [|d k] E F; simpl in E;
    try discriminate; constructor.
  - injection E as E1 E2. inversion F; subst.
    now rewrite <- is_word_lower, E1, is_word_lower.
  - injection E as E1 E2. inversion F; subst. now apply (IH k).
Qed.

Lemma written_identifier k a :
  written k a -> s k <> [] -> Forall (fun c => is_word c = true) (s k) ->
  identifier a.
Proof.
  intros W N F. split.
  - intros ->. unfold written in W. simpl in W.
    destruct (s k); [congruence | discriminate].
  - now apply (lower_eq_word a (s k)).
Qed.

Lemma boundary_identifier prev pos a rest g :
  after_nonword prev -> identifier a ->
  at_boundary (mkCursor prev pos (a ++ rest) g) = true.
Proof.
  intros P H. apply identifier_cons in H as (c & t & -> & W & _).
  now apply boundary_start.
Qed.

Lemma leads_word_ci : forall k a prev pos rest g,
  k <> [] -> lower a = lower k ->
  leads (word_ci k) (mkCursor prev pos (a ++ rest) g) (passed prev pos a rest g).
Proof.
  induction k as [|c t IH]; intros a prev pos rest g N E; [congruence|].
  destruct a as [|d a]; [discriminate|]. simpl in E. injection E as E1 E2.
  assert (P : Ascii.eqb (lower_char d) (lower_char c) = true)
    by (rewrite E1; apply Ascii.eqb_refl).
  destruct t as [|c' t'].
  - destruct a; [|discriminate]. cbn [word_ci app]. unfold ci.
    eapply leads_eq; [apply leads_chr; exact P|].
    unfold passed. simpl. f_equal. lia.
  - cbn [word_ci app]. unfold ci. eapply leads_cat; [apply leads_chr; exact P|].
    eapply leads_eq; [apply IH; [discriminate | exact E2]|].
    unfold passed. simpl. f_equal. lia.
Qed.

Lemma leads_written k a prev pos rest g :
  s k <> [] -> written k a ->
  leads (kw k) (mkCursor prev pos (a ++ rest) g) (passed prev pos a rest g).
Proof. intros N W. now apply leads_word_ci. Qed.

Lemma leads_gap w prev pos rest g :
  gap w -> stops is_space rest ->
  leads spaces1 (mkCursor prev pos (w ++ rest) g) (passed prev pos w rest g).
Proof.
  intros [N F] Hs. destruct w as [|c t]; [congruence|].
  inversion F; subst. unfold spaces1, plus. cbn [app].
  eapply leads_cat; [apply leads_chr; assumption|].
  eapply leads_eq; [apply leads_star; eassumption|].
  unfold passed. simpl. f_equal. lia.
Qed.

Lemma leads_star_at p w rest cur :
  c_rest cur = w ++ rest -> Forall (fun c => p c = true) w -> stops p rest ->
  leads (Star p) cur (passed (c_prev cur) (c_pos cur) w rest (c_groups cur)).
Proof. destruct cur; simpl; intros ->. apply leads_star. Qed.

(** A keyword does not start where another keyword with another first
    letter is written. *)
Lemma fails_written k k' a prev pos rest g :
  written k' a -> s k' <> [] -> s k <> [] ->
  hd_error (lower (s k')) <> hd_error (lower (s k)) ->
  fails (kw k) (mkCursor prev pos (a ++ rest) g).
Proof.
  unfold written, kw. intros W N' N D.
  destruct a as [|d a].
  { simpl in W. destruct (s k'); [congruence | discriminate]. }
  destruct (s k) as [|c t]; [congruence|].
  rewrite <- W in D. simpl in D.
  assert (P : Ascii.eqb (lower_char d) (lower_char c) = false).
  { apply Ascii.eqb_neq. congruence. }
  destruct t; cbn [word_ci app]; unfold ci;
    [|apply fails_cat]; now apply fails_chr.
Qed.

Lemma fails_cat_opt a b cur :
  fails a cur -> fails b cur -> fails (Cat (Opt a) b) cur.
Proof.
  intros A B R k. simpl. rewrite (A R). apply B.
Qed.

Lemma stops_blanks (p : ascii -> bool) w rest :
  (forall c, is_space c = true -> p c = false) ->
  blanks w -> stops p rest -> stops p (w ++ rest).
Proof.
  intros P B Hs. destruct w as [|c t]; [exact Hs|].
  inversion B; subst. simpl. auto.
Qed.

(* ------------------------------------------------------------------ *)
(** ** The target token in any layout *)

Lemma leads_padded n close wl x wr rest cur :
  c_rest cur = wl ++ x ++ wr ++ close :: rest ->
  blanks wl -> blanks wr -> identifier x ->
  is_word close = false -> is_space close = false ->
  exists fin,
    leads (cat [spaces0; Group n ident; spaces0; lit close]) cur fin
    /\ c_rest fin = rest
    /\ c_pos fin = c_pos cur + length wl + length x + length wr + 1
    /\ c_groups fin = (n, x) :: c_groups cur.
Proof.
  intros E Bl Br H W Sp.
  set (c1 := passed (c_prev cur) (c_pos cur) wl (x ++ wr ++ close :: rest)
                    (c_groups cur)).
  destruct (leads_ident n x (wr ++ close :: rest) c1 eq_refl H)
    as (f1 & L1 & R1 & P1 & G1).
  { apply stops_blanks; [exact space_not_word | exact Br | exact W]. }
  eexists. split.
  - cbn [cat]. eapply leads_cat.
    { apply (leads_star_at is_space wl _ cur E Bl).
      apply stops_identifier; [exact H | exact word_not_space]. }
    eapply leads_cat; [exact L1|].
    eapply leads_cat.
    { apply (leads_star_at is_space wr (close :: rest) f1 R1 Br). exact Sp. }
    unfold passed, lit. apply leads_chr. apply Ascii.eqb_refl.
  - cbn [c_rest c_pos c_groups]. rewrite P1, G1. unfold c1, passed.
    cbn [c_pos c_groups]. repeat split. lia.
Qed.

Lemma body_text_assoc l sh x rest :
  body_text l sh x ++ rest
  = match sh with
    | InlineData =>
        data_kw l ++ before_open l ++ "("%char :: inner_left l ++ x
          ++ inner_right l ++ ")"%char :: rest
    | FieldSymbol =>
        "<"%char :: inner_left l ++ x ++ inner_right l ++ ">"%char :: rest
    | Dynamic =>
        "("%char :: inner_left l ++ x ++ inner_right l ++ ")"%char :: rest
    | Plain => x ++ rest
    end.
Proof.
  destruct sh; unfold body_text;
    repeat first [rewrite <- app_assoc | progress cbn [app]]; reflexivity.
Qed.

Lemma length_body_text l sh x :
  length (body_text l sh x)
  = match sh with
    | InlineData =>
        length (data_kw l) + length (before_open l) + 1
          + length (inner_left l) + length x + length (inner_right l) + 1
    | FieldSymbol | Dynamic =>
        1 + length (inner_left l) + length x + length (inner_right l) + 1
    | Plain => length x
    end.
Proof.
  destruct sh; unfold body_text; cbn [length];
    rewrite ?length_app; cbn [length]; rewrite ?length_app; cbn [length]; lia.
Qed.

Lemma data_kw_identifier l : layout_ok l -> identifier (data_kw l).
Proof.
  intros (_ & W & _). apply (written_identifier "DATA"); auto.
  - discriminate.
  - repeat constructor.
Qed.

(** The body of a token starts with no character that the marker, the
    whitespace or another shape would take. *)
Lemma body_stops (p : ascii -> bool) l sh x rest :
  layout_ok l -> identifier x ->
  (forall c, is_word c = true -> p c = false) ->
  p "<"%char = false -> p "("%char = false ->
  stops p (body_text l sh x ++ rest).
Proof.
  intros L H P Plt Pp. rewrite body_text_assoc. destruct sh; simpl; auto.
  - apply stops_identifier; [now apply data_kw_identifier | exact P].
  - now apply stops_identifier.
Qed.

Lemma body_leads l sh x rest prev pos g :
  layout_ok l -> identifier x -> may_follow sh rest ->
  exists fin,
    leads (Alt shape_data (Alt shape_fs (Alt shape_dyn shape_plain)))
          (mkCursor prev pos (body_text l sh x ++ rest) g) fin
    /\ c_rest fin = rest
    /\ c_pos fin = pos + length (body_text l sh x)
    /\ c_groups fin = (group_of sh, x) :: g.
Proof.
  intros Lo H Mf. pose proof Lo as (_ & Wd & Bo & Bl & Br).
  rewrite length_body_text, body_text_assoc. destruct sh.
  - (* DATA ( x ) *)
    set (c5 := mkCursor (Some "("%char)
                 (S (pos + length (data_kw l) + length (before_open l)))
                 (inner_left l ++ x ++ inner_right l ++ ")"%char :: rest) g).
    destruct (leads_padded "data" ")"%char (inner_left l) x (inner_right l)
                rest c5 eq_refl Bl Br H eq_refl eq_refl)
      as (fin & L & R1 & P1 & G1).
    exists fin. split; [|repeat split; auto].
    + apply leads_alt_l. unfold shape_data. cbn [cat].
      eapply leads_cat; [apply leads_written; [discriminate | exact Wd]|].
      eapply leads_cat; [apply leads_star; [exact Bo | reflexivity]|].
      eapply leads_cat; [apply leads_chr; reflexivity|]. exact L.
    + rewrite P1. cbn [c_pos c5]. lia.
  - (* < x > *)
    set (c1 := mkCursor (Some "<"%char) (S pos)
                 (inner_left l ++ x ++ inner_right l ++ ">"%char :: rest) g).
    destruct (leads_padded "fs" ">"%char (inner_left l) x (inner_right l)
                rest c1 eq_refl Bl Br H eq_refl eq_refl)
      as (fin & L & R1 & P1 & G1).
    exists fin. split; [|repeat split; auto].
    + apply leads_alt_r.
      { unfold shape_data. cbn [cat kw word_ci s list_ascii_of_string].
        now apply fails_cat, fails_cat, fails_chr. }
      apply leads_alt_l. unfold shape_fs, lit. cbn [cat].
      eapply leads_cat; [apply leads_chr; reflexivity|]. exact L.
    + rewrite P1. cbn [c_pos c1]. lia.
  - (* ( x ) *)
    set (c1 := mkCursor (Some "("%char) (S pos)
                 (inner_left l ++ x ++ inner_right l ++ ")"%char :: rest) g).
    destruct (leads_padded "dyn" ")"%char (inner_left l) x (inner_right l)
                rest c1 eq_refl Bl Br H eq_refl eq_refl)
      as (fin & L & R1 & P1 & G1).
    exists fin. split; [|repeat split; auto].
    + apply leads_alt_r.
      { unfold shape_data. cbn [cat kw word_ci s list_ascii_of_string].
        now apply fails_cat, fails_cat, fails_chr. }
      apply leads_alt_r.
      { unfold shape_fs. cbn [cat]. now apply fails_cat, fails_chr. }
      apply leads_alt_l. unfold shape_dyn, lit. cbn [cat].
      eapply leads_cat; [apply leads_chr; reflexivity|]. exact L.
    + rewrite P1. cbn [c_pos c1]. lia.
  - (* x *)
    destruct (Mf eq_refl) as [Hs Hp].
    destruct (leads_ident "plain" x rest (mkCursor prev pos (x ++ rest) g)
                eq_refl H Hs)
      as (fin & L & R1 & P1 & G1).
    exists fin. split; [|repeat split; auto].
    apply leads_alt_r.
    { apply fails_lang. intros w t Ew Hl. apply lang_shape_data in Hl.
      cbn [c_rest] in Ew.
      assert (I : In "("%char (x ++ rest))
        by (rewrite Ew; apply in_or_app; now left).
      apply in_app_or in I as [I | I]; [|exact (Hp I)].
      exact (identifier_no_paren x H I). }
    apply leads_alt_r.
    { unfold shape_fs. cbn [cat]. apply fails_cat, fails_chr.
      apply stops_identifier; [exact H | exact word_not_lt]. }
    apply leads_alt_r.
    { unfold shape_dyn. cbn [cat]. apply fails_cat, fails_chr.
      apply stops_identifier; [exact H | exact word_not_paren]. }
    exact L.
Qed.

Lemma token_text_leads l sh x rest prev pos g :
  layout_ok l -> identifier x -> may_follow sh rest ->
  exists fin,
    leads TARGET_ITAB_TOKEN
          (mkCursor prev pos (token_text l sh x ++ rest) g) fin
    /\ c_rest fin = rest
    /\ c_pos fin = pos + length (token_text l sh x)
    /\ c_groups fin = (group_of sh, x) :: g.
Proof.
  intros Lo H Mf. pose proof Lo as (Bh & _).
  assert (Ssp : stops is_space (body_text l sh x ++ rest))
    by (apply body_stops; auto; exact word_not_space).
  assert (Sat : stops (Ascii.eqb "@") (body_text l sh x ++ rest))
    by (apply body_stops; auto; exact word_not_at).
  unfold token_text, TARGET_ITAB_TOKEN. cbn [cat].
  destruct (host l) as [w0|].
  - destruct (body_leads l sh x rest (prev_after (Some "@"%char) w0)
                (S pos + length w0) g Lo H Mf) as (fin & L & R1 & P1 & G1).
    exists fin. split; [|repeat split; auto].
    + rewrite <- app_assoc. cbn [app].
      eapply leads_cat; [apply leads_opt, leads_chr; reflexivity|].
      eapply leads_cat; [apply leads_star; [exact Bh | exact Ssp]|].
      exact L.
    + rewrite P1, length_app. cbn [length]. lia.
  - destruct (body_leads l sh x rest prev pos g Lo H Mf)
      as (fin & L & R1 & P1 & G1).
    exists fin. split; [|repeat split; auto].
    cbn [app].
    eapply leads_cat; [apply leads_opt_skip, fails_chr; exact Sat|].
    eapply leads_cat; [apply leads_star_none; exact Ssp|].
    exact L.
Qed.

Lemma token_stops_space l sh x rest :
  layout_ok l -> identifier x -> stops is_space (token_text l sh x ++ rest).
Proof.
  intros Lo H. unfold token_text. destruct (host l); [reflexivity|].
  cbn [app]. apply body_stops; auto. exact word_not_space.
Qed.

Lemma token_text_tight sh x : token_text tight sh x = spell sh x.
Proof. destruct sh; reflexivity. Qed.

(* ------------------------------------------------------------------ *)
(** ** Patterns that go through a text *)

Lemma runs_cat a b w1 w2 rest gs1 gs2 :
  runs a w1 (w2 ++ rest) gs1 -> runs b w2 rest gs2 ->
  runs (Cat a b) (w1 ++ w2) rest (gs2 ++ gs1).
Proof.
  intros A B prev pos g.
  destruct (A prev pos g) as ([p q r' g'] & L1 & P1 & R1 & G1).
  cbn [c_pos c_rest c_groups] in P1, R1, G1. subst.
  destruct (B p (pos + length w1) (gs1 ++ g)) as (f2 & L2 & P2 & R2 & G2).
  exists f2. split; [|split; [|split]].
  - rewrite <- app_assoc. eapply leads_cat; eassumption.
  - rewrite P2, length_app. lia.
  - exact R2.
  - rewrite G2. apply app_assoc.
Qed.

Lemma runs_eq r w w' rest gs gs' :
  runs r w rest gs -> w = w' -> gs = gs' -> runs r w' rest gs'.
Proof. now intros H <- <-. Qed.

Lemma runs_kw k a rest :
  s k <> [] -> written k a -> runs (kw k) a rest [].
Proof.
  intros N W prev pos g. exists (passed prev pos a rest g).
  split; [now apply leads_written | now unfold passed].
Qed.

Lemma runs_gap w rest : gap w -> stops is_space rest -> runs spaces1 w rest [].
Proof.
  intros G Hs prev pos g. exists (passed prev pos w rest g).
  split; [now apply leads_gap | now unfold passed].
Qed.

Lemma runs_star p w rest :
  Forall (fun c => p c = true) w -> stops p rest -> runs (Star p) w rest [].
Proof.
  intros F Hs prev pos g. exists (passed prev pos w rest g).
  split; [now apply leads_star | now unfold passed].
Qed.

Lemma runs_chr (p : ascii -> bool) c rest :
  p c = true -> runs (Chr p) [c] rest [].
Proof.
  intros P prev pos g. eexists. split; [apply leads_chr; exact P|].
  cbn [c_pos c_rest c_groups length app]. repeat split. lia.
Qed.

Lemma runs_token l sh x rest :
  layout_ok l -> identifier x -> may_follow sh rest ->
  runs TARGET_ITAB_TOKEN (token_text l sh x) rest [(group_of sh, x)].
Proof.
  intros Lo H Mf prev pos g.
  destruct (token_text_leads l sh x rest prev pos g Lo H Mf)
    as (fin & L & R1 & P1 & G1).
  exists fin. auto.
Qed.

Lemma runs_alt_l a b w rest gs : runs a w rest gs -> runs (Alt a b) w rest gs.
Proof.
  intros A prev pos g. destruct (A prev pos g) as (fin & L & Q).
  exists fin. split; [now apply leads_alt_l | exact Q].
Qed.

Lemma runs_alt_r a b w rest gs :
  (forall prev pos g, fails a (mkCursor prev pos (w ++ rest) g)) ->
  runs b w rest gs -> runs (Alt a b) w rest gs.
Proof.
  intros F B prev pos g. destruct (B prev pos g) as (fin & L & Q).
  exists fin. split; [now apply leads_alt_r | exact Q].
Qed.

Lemma runs_opt a w rest gs : runs a w rest gs -> runs (Opt a) w rest gs.
Proof.
  intros A prev pos g. destruct (A prev pos g) as (fin & L & Q).
  exists fin. split; [now apply leads_opt | exact Q].
Qed.

Lemma runs_opt_skip a b w rest gs :
  (forall prev pos g, fails a (mkCursor prev pos (w ++ rest) g)) ->
  runs b w rest gs -> runs (Cat (Opt a) b) w rest gs.
Proof.
  intros F B prev pos g. destruct (B prev pos g) as (fin & L & Q).
  exists fin. split; [|exact Q].
  eapply leads_cat; [apply leads_opt_skip, F | exact L].
Qed.

(** An attempt at a word boundary, on a pattern that goes through [w]. *)
Lemma try_at_runs b w rest gs prev pos :
  runs b w rest gs ->
  at_boundary (mkCursor prev pos (w ++ rest) []) = true ->
  try_at (Cat WordB b) false (mkCursor prev pos (w ++ rest) [])
  = Some (mkMatch pos (pos + length w) w gs).
Proof.
  intros B Hb. destruct (B prev pos []) as (fin & L & P1 & R1 & G1).
  assert (L' : leads (Cat WordB b) (mkCursor prev pos (w ++ rest) []) fin)
    by (eapply leads_cat; [now apply leads_wordb | exact L]).
  rewrite (try_at_leads _ false _ _ _ _ _ L' eq_refl).
  rewrite P1, G1, app_nil_r. do 2 f_equal.
  replace (pos + length w - pos) with (length w) by lia.
  now rewrite firstn_app, firstn_all, Nat.sub_diag, app_nil_r.
Qed.

Lemma written_kw_identifier k a :
  written k a -> s k <> [] ->
  forallb is_word (s k) = true -> identifier a.
Proof.
  intros W N F. apply (written_identifier k); auto.
  apply Forall_forall. intros c I.
  rewrite forallb_forall in F. now apply F.
Qed.

Ltac kw_ident W :=
  apply (written_kw_identifier _ _ W); [discriminate | reflexivity].

Ltac stops_kw W :=
  rewrite ?app_nil_r, <- ?app_assoc; apply stops_identifier;
  [kw_ident W | exact word_not_space].

Ltac other_kw W :=
  apply (fails_written _ _ _ _ _ _ _ W);
  [discriminate | discriminate | intros E; vm_compute in E; discriminate E].

(* ------------------------------------------------------------------ *)
(** ** The deduplication statement in any layout *)

Lemma phrase_dedup ph :
  phrase dedup_keywords ph ->
  exists a1 g1 a2 g2 a3 g3 a4 g4,
    ph = a1 ++ g1 ++ a2 ++ g2 ++ a3 ++ g3 ++ a4 ++ g4
    /\ (written "DELETE" a1 /\ gap g1)
    /\ (written "ADJACENT" a2 /\ gap g2)
    /\ (written "DUPLICATES" a3 /\ gap g3)
    /\ (written "FROM" a4 /\ gap g4).
Proof.
  cbn [dedup_keywords phrase].
  intros (a1 & g1 & r1 & -> & W1 & G1 & a2 & g2 & r2 & -> & W2 & G2
          & a3 & g3 & r3 & -> & W3 & G3 & a4 & g4 & r4 & -> & W4 & G4 & ->).
  exists a1, g1, a2, g2, a3, g3, a4, g4. rewrite app_nil_r. auto 10.
Qed.

Lemma dedup_runs ph l sh x junk :
  layout_ok l -> identifier x -> phrase dedup_keywords ph ->
  Forall (fun c => not_dot c = true) junk ->
  may_follow sh (junk ++ ["."%char]) ->
  runs (cat [kw "DELETE"; spaces1; kw "ADJACENT"; spaces1;
             kw "DUPLICATES"; spaces1; kw "FROM"; spaces1;
             TARGET_ITAB_TOKEN; Star not_dot; lit "."%char])
       (dedup_text ph l sh x junk) [] [(group_of sh, x)].
Proof.
  intros Lo H Ph Fj Mf.
  apply phrase_dedup in Ph
    as (a1 & g1 & a2 & g2 & a3 & g3 & a4 & g4 & -> & [W1 G1] & [W2 G2]
        & [W3 G3] & [W4 G4]).
  cbn [cat].
  eapply (runs_eq _ (a1 ++ g1 ++ a2 ++ g2 ++ a3 ++ g3 ++ a4 ++ g4
                       ++ token_text l sh x ++ junk ++ ["."%char])).
  - eapply runs_cat; [apply (runs_kw _ a1); [discriminate | exact W1]|].
    eapply runs_cat; [apply (runs_gap g1); [exact G1 | stops_kw W2]|].
    eapply runs_cat; [apply (runs_kw _ a2); [discriminate | exact W2]|].
    eapply runs_cat; [apply (runs_gap g2); [exact G2 | stops_kw W3]|].
    eapply runs_cat; [apply (runs_kw _ a3); [discriminate | exact W3]|].
    eapply runs_cat; [apply (runs_gap g3); [exact G3 | stops_kw W4]|].
    eapply runs_cat; [apply (runs_kw _ a4); [discriminate | exact W4]|].
    eapply runs_cat.
    { apply (runs_gap g4); [exact G4|]. rewrite app_nil_r.
      now apply token_stops_space. }
    eapply runs_cat.
    { apply (runs_token l sh x); [exact Lo | exact H|].
      rewrite app_nil_r. exact Mf. }
    eapply runs_cat.
    { apply (runs_star not_dot junk); [exact Fj | reflexivity]. }
    apply runs_chr. reflexivity.
  - unfold dedup_text, laid_out. now rewrite <- !app_assoc.
  - reflexivity.
Qed.

Lemma phrase_head k ks ph rest :
  phrase (k :: ks) ph -> s k <> [] -> forallb is_word (s k) = true ->
  exists c t, ph ++ rest = c :: t /\ is_word c = true.
Proof.
  cbn [phrase]. intros (a & g & r & -> & W & _) N F.
  assert (I : identifier a) by now apply (written_kw_identifier k).
  apply identifier_cons in I as (c & t & -> & Wc & _).
  exists c. eexists. split; [reflexivity | exact Wc].
Qed.

Lemma resolve_match sh x a b w :
  identifier x ->
  canon_name (coalesce_group (mkMatch a b w [(group_of sh, x)]) shapes)
  = Some (lower x).
Proof.
  intros H. rewrite <- (resolve_group sh x H).
  f_equal; now apply coalesce_group_dict.
Qed.

(** X15.  The deduplication statement is found in any letter case, with
    any whitespace between its keywords, with or without the host marker
    and with whitespace around the brackets and the identifier; whatever
    follows the token up to the period belongs to the statement.  Its
    target is the identifier in lower case. *)
Theorem dedup_in_any_layout ph l sh x junk :
  layout_ok l -> identifier x -> phrase dedup_keywords ph ->
  Forall (fun c => not_dot c = true) junk ->
  may_follow sh (junk ++ ["."%char]) ->
  finditer STMT_DELETE_DUP_RE (dedup_text ph l sh x junk)
  = [mkMatch 0 (length (dedup_text ph l sh x junk))
             (dedup_text ph l sh x junk) [(group_of sh, x)]]
  /\ Forall (fun d => d_target d = Some (lower x))
            (finditer STMT_DELETE_DUP_RE (dedup_text ph l sh x junk)).
Proof.
  intros Lo H Ph Fj Mf.
  pose proof (dedup_runs ph l sh x junk Lo H Ph Fj Mf) as B.
  assert (Hb : at_boundary
                 (mkCursor None 0 (dedup_text ph l sh x junk ++ []) [])
               = true).
  { unfold dedup_text, laid_out. rewrite <- !app_assoc.
    destruct (phrase_head _ _ ph
                (token_text l sh x ++ junk ++ ["."%char] ++ []) Ph)
      as (c & t & -> & Wc); [discriminate | reflexivity|].
    now apply boundary_start. }
  pose proof (try_at_runs _ _ _ _ None 0 B Hb) as T.
  rewrite app_nil_r in T. cbn [Nat.add] in T.
  assert (E : finditer STMT_DELETE_DUP_RE (dedup_text ph l sh x junk)
              = [mkMatch 0 (length (dedup_text ph l sh x junk))
                         (dedup_text ph l sh x junk) [(group_of sh, x)]]).
  { apply finditer_whole; [rewrite min_len_delete; lia | exact T
                           | reflexivity]. }
  split; [exact E|]. rewrite E. constructor; [|constructor].
  now apply resolve_match.
Qed.

Lemma dedup_in_any_layout_witness :
  finditer STMT_DELETE_DUP_RE
    (dedup_text loose_dedup_phrase loose InlineData (s "lt_Tab")
                (s " comparing all fields"))
  = [mkMatch 0 73
       (dedup_text loose_dedup_phrase loose InlineData (s "lt_Tab")
                   (s " comparing all fields"))
       [("data"%string, s "lt_Tab")]].
Proof.
  refine (proj1 (dedup_in_any_layout loose_dedup_phrase loose InlineData
                   (s "lt_Tab") (s " comparing all fields") _ _ _ _ _)).
  - repeat split; repeat constructor.
  - split; [discriminate | repeat constructor].
  - exists (s "delete"), (s "  "), (s "adjacent" ++ nl :: s "Duplicates FROM ").
    split; [reflexivity|]. split; [reflexivity|].
    split; [split; [discriminate | repeat constructor]|].
    exists (s "adjacent"), [nl], (s "Duplicates FROM ").
    split; [reflexivity|]. split; [reflexivity|].
    split; [split; [discriminate | repeat constructor]|].
    exists (s "Duplicates"), (s " "), (s "FROM ").
    split; [reflexivity|]. split; [reflexivity|].
    split; [split; [discriminate | repeat constructor]|].
    exists (s "FROM"), (s " "), [].
    split; [reflexivity|]. split; [reflexivity|].
    split; [split; [discriminate | repeat constructor]|]. reflexivity.
  - repeat constructor.
  - intros [=].
Defined.

(* ------------------------------------------------------------------ *)
(** ** The fill clause in any layout *)

Lemma fill_try_at f ph l sh x rest prev pos :
  layout_ok l -> identifier x -> phrase (fill_keywords f) ph ->
  may_follow sh rest ->
  at_boundary (mkCursor prev pos (laid_out ph l sh x ++ rest) []) = true ->
  try_at INTO_TABLE_ITAB_RE false
         (mkCursor prev pos (laid_out ph l sh x ++ rest) [])
  = Some (mkMatch pos (pos + length (laid_out ph l sh x))
                  (laid_out ph l sh x) [(group_of sh, x)]).
Proof.
  intros Lo H Ph Mf Hb. unfold INTO_TABLE_ITAB_RE. cbn [cat].
  apply try_at_runs; [|exact Hb]. clear Hb. unfold laid_out.
  pose proof (token_stops_space l sh x rest Lo H) as St.
  pose proof (runs_token l sh x rest Lo H Mf) as Rt.
  destruct f; cbn [fill_keywords phrase] in Ph.
  - (* INTO TABLE *)
    destruct Ph as (aI & gI & ? & -> & WI & GI
                    & aT & gT & ? & -> & WT & GT & ->).
    eapply (runs_eq _ (aI ++ gI ++ aT ++ gT ++ token_text l sh x)).
    + eapply runs_cat; [apply (runs_kw _ aI); [discriminate | exact WI]|].
      eapply runs_cat; [apply (runs_gap gI); [exact GI | stops_kw WT]|].
      eapply runs_cat.
      { apply runs_alt_l, runs_opt_skip.
        - intros p q g. apply fails_cat. other_kw WT.
        - apply (runs_kw _ aT); [discriminate | exact WT]. }
      eapply runs_cat; [apply (runs_gap gT); [exact GT | exact St]|].
      exact Rt.
    + now rewrite app_nil_r, <- !app_assoc.
    + reflexivity.
  - (* INTO CORRESPONDING FIELDS OF TABLE *)
    destruct Ph as (aI & gI & ? & -> & WI & GI
                    & aC & gC & ? & -> & WC & GC
                    & aF & gF & ? & -> & WF & GF
                    & aO & gO & ? & -> & WO & GO
                    & aT & gT & ? & -> & WT & GT & ->).
    eapply (runs_eq _ (aI ++ gI
                         ++ ((aC ++ gC ++ aF ++ gF ++ aO ++ gO) ++ aT)
                         ++ gT ++ token_text l sh x)).
    + eapply runs_cat; [apply (runs_kw _ aI); [discriminate | exact WI]|].
      eapply runs_cat; [apply (runs_gap gI); [exact GI | stops_kw WC]|].
      eapply runs_cat.
      { apply runs_alt_l. eapply runs_cat.
        - apply runs_opt.
          eapply runs_cat; [apply (runs_kw _ aC); [discriminate | exact WC]|].
          eapply runs_cat; [apply (runs_gap gC); [exact GC | stops_kw WF]|].
          eapply runs_cat; [apply (runs_kw _ aF); [discriminate | exact WF]|].
          eapply runs_cat; [apply (runs_gap gF); [exact GF | stops_kw WO]|].
          eapply runs_cat; [apply (runs_kw _ aO); [discriminate | exact WO]|].
          apply (runs_gap gO); [exact GO | stops_kw WT].
        - apply (runs_kw _ aT); [discriminate | exact WT]. }
      eapply runs_cat; [apply (runs_gap gT); [exact GT | exact St]|].
      exact Rt.
    + now rewrite app_nil_r, <- !app_assoc.
    + reflexivity.
  - (* INTO APPENDING TABLE *)
    destruct Ph as (aI & gI & ? & -> & WI & GI
                    & aA & gA & ? & -> & WA & GA
                    & aT & gT & ? & -> & WT & GT & ->).
    eapply (runs_eq _ (aI ++ gI ++ (aA ++ gA ++ aT)
                         ++ gT ++ token_text l sh x)).
    + eapply runs_cat; [apply (runs_kw _ aI); [discriminate | exact WI]|].
      eapply runs_cat; [apply (runs_gap gI); [exact GI | stops_kw WA]|].
      eapply runs_cat.
      { apply runs_alt_r.
        - intros p q g. rewrite <- !app_assoc. apply fails_cat_opt.
          + apply fails_cat. other_kw WA.
          + other_kw WA.
        - eapply runs_cat; [apply (runs_kw _ aA); [discriminate | exact WA]|].
          eapply runs_cat; [apply (runs_gap gA); [exact GA | stops_kw WT]|].
          apply (runs_kw _ aT); [discriminate | exact WT]. }
      eapply runs_cat; [apply (runs_gap gT); [exact GT | exact St]|].
      exact Rt.
    + now rewrite app_nil_r, <- !app_assoc.
    + reflexivity.
Qed.

Lemma fill_phrase_head f ph rest :
  phrase (fill_keywords f) ph ->
  exists c t, ph ++ rest = c :: t /\ is_word c = true.
Proof.
  intros Ph.
  destruct f; apply (phrase_head _ _ ph rest Ph); first [discriminate | reflexivity].
Qed.

(** X16.  The fill clause is found in each of its three forms, INTO
    TABLE, INTO CORRESPONDING FIELDS OF TABLE and INTO APPENDING TABLE, in
    any letter case and with any whitespace between the keywords, the
    target token in any layout; its target is the identifier in lower
    case. *)
Theorem fill_clause_in_any_layout f ph l sh x rest :
  layout_ok l -> identifier x -> phrase (fill_keywords f) ph ->
  may_follow sh rest ->
  search INTO_TABLE_ITAB_RE (laid_out ph l sh x ++ rest)
  = Some (mkMatch 0 (length (laid_out ph l sh x)) (laid_out ph l sh x)
                  [(group_of sh, x)])
  /\ (forall m,
        search INTO_TABLE_ITAB_RE (laid_out ph l sh x ++ rest) = Some m ->
        canon_name (coalesce_group m shapes) = Some (lower x)).
Proof.
  intros Lo H Ph Mf.
  assert (E : search INTO_TABLE_ITAB_RE (laid_out ph l sh x ++ rest)
              = Some (mkMatch 0 (length (laid_out ph l sh x))
                              (laid_out ph l sh x) [(group_of sh, x)])).
  { apply search_from_hit.
    apply (fill_try_at f ph l sh x rest None 0 Lo H Ph Mf).
    unfold laid_out. rewrite <- app_assoc.
    destruct (fill_phrase_head f ph (token_text l sh x ++ rest) Ph)
      as (c & t & -> & Wc).
    now apply boundary_start. }
  split; [exact E|]. intros m Hm. rewrite E in Hm. injection Hm as <-.
  now apply resolve_match.
Qed.

Lemma fill_clause_in_any_layout_witness :
  search INTO_TABLE_ITAB_RE
    (laid_out loose_fill_phrase loose FieldSymbol (s "lt_Tab") ++ s ".")
  = Some (mkMatch 0 49
            (laid_out loose_fill_phrase loose FieldSymbol (s "lt_Tab"))
            [("fs"%string, s "lt_Tab")]).
Proof.
  refine (proj1 (fill_clause_in_any_layout IntoCorresponding
                   loose_fill_phrase loose FieldSymbol (s "lt_Tab") (s ".")
                   _ _ _ _)).
  - repeat split; repeat constructor.
  - split; [discriminate | repeat constructor].
  - exists (s "into"), (s " "), (s "corresponding  Fields" ++ nl :: s "of TABLE ").
    split; [reflexivity|]. split; [reflexivity|].
    split; [split; [discriminate | repeat constructor]|].
    exists (s "corresponding"), (s "  "), (s "Fields" ++ nl :: s "of TABLE ").
    split; [reflexivity|]. split; [reflexivity|].
    split; [split; [discriminate | repeat constructor]|].
    exists (s "Fields"), [nl], (s "of TABLE ").
    split; [reflexivity|]. split; [reflexivity|].
    split; [split; [discriminate | repeat constructor]|].
    exists (s "of"), (s " "), (s "TABLE ").
    split; [reflexivity|]. split; [reflexivity|].
    split; [split; [discriminate | repeat constructor]|].
    exists (s "TABLE"), (s " "), [].
    split; [reflexivity|]. split; [reflexivity|].
    split; [split; [discriminate | repeat constructor]|]. reflexivity.
  - intros [=].
Defined.

(* ------------------------------------------------------------------ *)
(** ** The query keyword and the distinct mark *)

Lemma prev_after_word : forall a prev,
  a <> [] -> Forall (fun c => is_word c = true) a ->
  exists c, prev_after prev a = Some c /\ is_word c = true.
Proof.
  induction a as [|c t IH]; intros prev N F; [congruence|].
  inversion F; subst. destruct t as [|c' t'].
  - exists c. auto.
  - apply (IH (Some c)); [discriminate | assumption].
Qed.

Lemma boundary_end prev pos a rest g :
  identifier a -> stops is_word rest ->
  at_boundary (passed prev pos a rest g) = true.
Proof.
  intros [N F] Hs.
  destruct (prev_after_word a prev N F) as (c & E & W).
  unfold at_boundary, word_before, word_after, passed.
  cbn [c_prev c_rest]. rewrite E, W.
  destruct rest as [|d t]; [reflexivity|]. simpl in Hs. now rewrite Hs.
Qed.

Lemma stops_word_gap w rest : gap w -> stops is_word (w ++ rest).
Proof.
  intros [N F]. destruct w as [|c t]; [congruence|].
  inversion F; subst. simpl. now apply space_not_word.
Qed.

Lemma lang_gap w : lang spaces1 w -> gap w.
Proof.
  unfold spaces1, plus. cbn [lang].
  intros (w1 & w2 & -> & (c & -> & Hc) & F). split; [discriminate|].
  constructor; assumption.
Qed.

Lemma distinct_leads a g d rest :
  written "SELECT" a -> gap g -> written "DISTINCT" d -> stops is_word rest ->
  exists fin,
    leads SELECT_DISTINCT_RE (mkCursor None 0 (a ++ g ++ d ++ rest) []) fin
    /\ c_pos fin = length (a ++ g ++ d) /\ c_groups fin = [].
Proof.
  intros Wa G Wd Hs.
  assert (Ia : identifier a) by kw_ident Wa.
  assert (Id : identifier d) by kw_ident Wd.
  eexists. split.
  - unfold SELECT_DISTINCT_RE. cbn [cat].
    eapply leads_cat; [now apply leads_wordb, boundary_identifier|].
    eapply leads_cat; [apply leads_written; [discriminate | exact Wa]|].
    eapply leads_cat.
    { apply leads_wordb, boundary_end; [exact Ia | now apply stops_word_gap]. }
    eapply leads_cat.
    { apply leads_gap; [exact G|].
      apply stops_identifier; [exact Id | exact word_not_space]. }
    eapply leads_cat; [apply leads_written; [discriminate | exact Wd]|].
    apply leads_wordb, boundary_end; [exact Id | exact Hs].
  - unfold passed. cbn [c_pos c_groups]. rewrite !length_app.
    split; [lia | reflexivity].
Qed.

(** X17.  The distinct mark is the keyword SELECT, whitespace and the
    keyword DISTINCT, each in any letter case: nothing else is found as
    the mark, and every such text is found when no word character
    follows it. *)
Theorem distinct_mark :
  (forall text m,
      search SELECT_DISTINCT_RE text = Some m ->
      exists a g d,
        m_group0 m = a ++ g ++ d
        /\ written "SELECT" a /\ gap g /\ written "DISTINCT" d)
  /\ (forall a g d rest,
        written "SELECT" a -> gap g -> written "DISTINCT" d ->
        stops is_word rest ->
        search SELECT_DISTINCT_RE (a ++ g ++ d ++ rest)
        = Some (mkMatch 0 (length (a ++ g ++ d)) (a ++ g ++ d) [])).
Proof.
  split.
  - intros text m H. apply search_from_lang in H.
    unfold SELECT_DISTINCT_RE in H. cbn [cat lang] in H.
    destruct H as (w1 & w2 & E & -> & a & w3 & -> & La & w4 & w5 & -> & ->
                   & g & w6 & -> & Lg & d & w7 & -> & Ld & ->).
    exists a, g, d. rewrite E. cbn [app]. rewrite app_nil_r.
    split; [reflexivity|]. split; [|split].
    + apply lang_word_ci_lower; [discriminate | exact La].
    + now apply lang_gap.
    + apply lang_word_ci_lower; [discriminate | exact Ld].
  - intros a g d rest Wa G Wd Hs.
    destruct (distinct_leads a g d rest Wa G Wd Hs) as (fin & L & P & Gr).
    apply search_from_hit.
    rewrite (try_at_leads _ false _ _ _ _ _ L eq_refl), P, Gr.
    do 2 f_equal. rewrite Nat.sub_0_r.
    replace (a ++ g ++ d ++ rest) with ((a ++ g ++ d) ++ rest)
      by (now rewrite <- !app_assoc).
    now rewrite firstn_app, firstn_all, Nat.sub_diag, app_nil_r.
Qed.

(* ------------------------------------------------------------------ *)
(** ** The query statement in any case, over any lines *)

Lemma min_len_select : min_len STMT_SELECT_RE = 7.
Proof. reflexivity. Qed.

(** X18.  A text that is the keyword SELECT in any letter case, then
    characters other than the period, line breaks among them, and the
    period is one query statement, when no word character follows the
    keyword. *)
Theorem query_statement_found a body :
  written "SELECT" a -> Forall (fun c => not_dot c = true) body ->
  stops is_word body ->
  finditer STMT_SELECT_RE (a ++ body ++ [period])
  = [mkMatch 0 (length (a ++ body ++ [period])) (a ++ body ++ [period]) []].
Proof.
  intros Wa Fb Hs.
  assert (Ia : identifier a) by kw_ident Wa.
  assert (Hs' : stops is_word (body ++ [period])).
  { destruct body; [reflexivity | exact Hs]. }
  assert (L : leads STMT_SELECT_RE
                (mkCursor None 0 (a ++ body ++ [period]) [])
                (mkCursor (Some period)
                          (length (a ++ body ++ [period])) [] [])).
  { unfold STMT_SELECT_RE. cbn [cat].
    eapply leads_cat; [now apply leads_wordb, boundary_identifier|].
    eapply leads_cat; [apply leads_written; [discriminate | exact Wa]|].
    eapply leads_cat; [now apply leads_wordb, boundary_end|].
    eapply leads_cat; [apply leads_star; [exact Fb | reflexivity]|].
    eapply leads_eq; [unfold passed, lit; apply leads_chr; reflexivity|].
    f_equal. rewrite !length_app. cbn [length]. lia. }
  apply finditer_whole; [rewrite min_len_select; lia | |].
  - rewrite (try_at_leads _ false _ _ _ _ _ L eq_refl).
    cbn [c_pos c_groups]. do 2 f_equal. rewrite Nat.sub_0_r.
    apply firstn_all.
  - reflexivity.
Qed.

Lemma query_statement_found_witness :
  finditer STMT_SELECT_RE
    (s "Select" ++ (nl :: s "  * from t" ++ nl :: s "  into table lt") ++ [period])
  = [mkMatch 0 34
       (s "Select" ++ (nl :: s "  * from t" ++ nl :: s "  into table lt")
          ++ [period]) []].
Proof.
  apply (query_statement_found (s "Select")
           (nl :: s "  * from t" ++ nl :: s "  into table lt")).
  - reflexivity.
  - repeat constructor.
  - reflexivity.
Defined.
